(** * ROOTGeomAnalyzer: path lengths and vertex sampling along a ray

    A shallow embedding of [src/Geo/ROOTGeomAnalyzer.cxx].

    Modelling conventions.
    - A C++ [double] is an exact rational ([Q]); rounding is not modelled,
      and a division by zero yields 0.  A literal the code compares with
      stands for the [double] it compiles to ([9.99E29]); the runs use
      values a [double] holds, or stay clear of the places where rounding
      could decide.
      [sqrt] and the narrowing of a [double] to a [float] are operations of
      the class [FloatOps].
    - The ROOT navigator ([TGeoManager]) is an external collaborator: it is
      the interface [TGeoManager] over an abstract cursor type.
    - A pointer is an [option]; dereferencing a null pointer is [Crash].
    - A [while] loop whose trip count the code does not bound runs on fuel;
      running out of fuel is [OutOfFuel].
    - The Messenger output is the list of [Message]s a call emits.  The lines
      that carry data (positions, steps, attributions) and the pERROR lines
      are kept; the remaining pINFO/pDEBUG lines are dropped, but for the
      pointer they read ([vol->GetName()]). *)

From Stdlib Require Import ZArith QArith List String Lia.
From stdpp Require Import base option list gmap fin_maps.

Local Open Scope Q_scope.

(* ------------------------------------------------------------------ *)
(** ** Numbers *)

Class FloatOps := {
  (** [sqrt] of <cmath> *)
  fsqrt : Q -> Q;
  (** the implicit conversion [float xx = XYZ[0]] *)
  to_float : Q -> Q
}.

Definition Qgt_bool (a b : Q) : bool := negb (Qle_bool a b).
Definition Qlt_bool (a b : Q) : bool := negb (Qle_bool b a).

(** [int(d)] for a double [d]: truncation toward zero. *)
Definition double_to_int (d : Q) : Z := Z.quot (Qnum d) (Z.pos (Qden d)).

(* ------------------------------------------------------------------ *)
(** ** Messenger *)

Inductive Priority := pDEBUG | pINFO | pNOTICE | pWARN | pERROR | pFATAL.

Record TVector3 := mkTVector3 { fX : Q; fY : Q; fZ : Q }.

Inductive Message :=
| MsgText (prio : Priority) (text : string)
    (** a line without data *)
| MsgPosition (r : TVector3) (flag : Z)
    (** pDEBUG "Position = ..., flag(not in yet) = ..." *)
| MsgStepping (dr : Q)
    (** pDEBUG "Stepping...dr = ..." *)
| MsgSegment (pdgc : Z) (step : Q)
    (** pDEBUG " PDG-Code = ..., Step = ..." *)
| MsgBadIndex (i : Z)
    (** ROOT's Error("operator()(i)", "bad index (%d) returning &fX") *).

(* ------------------------------------------------------------------ *)
(** ** TVector3 and TLorentzVector (ROOT) *)

Definition TVector3_index_ok (i : Z) : bool := ((0 <=? i) && (i <=? 2))%Z.

(** [v[i]]: ROOT's [TVector3::operator()(int)] switches on the index and,
    for an index other than 0, 1, 2, reports the bad index and yields a
    reference to [fX]. *)
Definition TVector3_at (v : TVector3) (i : Z) : Q * list Message :=
  match i with
  | 0%Z => (fX v, [])
  | 1%Z => (fY v, [])
  | 2%Z => (fZ v, [])
  | _ => (fX v, [MsgBadIndex i])
  end.

(** [(v[0], v[1], v[2])] *)
Definition TVector3_xyz (v : TVector3) : TVector3 :=
  mkTVector3 (fst (TVector3_at v 0)) (fst (TVector3_at v 1))
             (fst (TVector3_at v 2)).

(** [v[i] += d] *)
Definition TVector3_add_at (i : Z) (d : Q) (v : TVector3)
  : TVector3 * list Message :=
  match i with
  | 0%Z => (mkTVector3 (fX v + d) (fY v) (fZ v), [])
  | 1%Z => (mkTVector3 (fX v) (fY v + d) (fZ v), [])
  | 2%Z => (mkTVector3 (fX v) (fY v) (fZ v + d), [])
  | _ => (mkTVector3 (fX v + d) (fY v) (fZ v), [MsgBadIndex i])
  end.

(** [v[i] -= d] *)
Definition TVector3_sub_at (i : Z) (d : Q) (v : TVector3)
  : TVector3 * list Message :=
  match i with
  | 0%Z => (mkTVector3 (fX v - d) (fY v) (fZ v), [])
  | 1%Z => (mkTVector3 (fX v) (fY v - d) (fZ v), [])
  | 2%Z => (mkTVector3 (fX v) (fY v) (fZ v - d), [])
  | _ => (mkTVector3 (fX v - d) (fY v) (fZ v), [MsgBadIndex i])
  end.

Record TLorentzVector := mkTLorentzVector {
  lvX : Q; lvY : Q; lvZ : Q; lvT : Q
}.

Definition Px (p : TLorentzVector) : Q := lvX p.
Definition Py (p : TLorentzVector) : Q := lvY p.
Definition Pz (p : TLorentzVector) : Q := lvZ p.

(** [p.P()]: the magnitude of the 3-momentum. *)
Definition P `{FloatOps} (p : TLorentzVector) : Q :=
  fsqrt (Px p * Px p + Py p * Py p + Pz p * Pz p).

(* ------------------------------------------------------------------ *)
(** ** Materials and volumes (ROOT) *)

Record TGeoElement := mkTGeoElement { eleA : Q; eleZ : Q }.

(** A [TGeoMaterial]; [IsMixture] tells whether it is a [TGeoMixture], whose
    elements are then [GetElements]. *)
Record TGeoMaterial := mkTGeoMaterial {
  GetA : Q;
  GetZ : Q;
  GetDensity : Q;
  IsMixture : bool;
  GetElements : list TGeoElement
}.

Record TGeoMedium := mkTGeoMedium { GetMaterial : option TGeoMaterial }.

Record TGeoBBox := mkTGeoBBox {
  GetDX : Q; GetDY : Q; GetDZ : Q; GetOrigin : TVector3
}.

Record TGeoVolume := mkTGeoVolume {
  GetMedium : option TGeoMedium;
  GetShape : TGeoBBox
}.

(** The navigation interface of [TGeoManager] the analyzer consumes.  [G] is
    the navigator's mutable cursor; the geometry itself is the instance. *)
Class TGeoManager (G : Type) := {
  SetCurrentDirection : TVector3 -> G -> G;
  SetCurrentPoint : TVector3 -> G -> G;
  FindNode : TVector3 -> G -> G;
  GetCurrentVolume : G -> option TGeoVolume;
  IsOutside : G -> bool;
  FindNextBoundary : G -> G;
  GetStep : G -> Q;
  IsEntering : G -> bool;
  Step : G -> G
}.

(** The shared random source ([RandomGen::Instance()->Random3()]). *)
Class TRandom (R : Type) := { Rndm : R -> Q * R }.

(** [pdg::IonPdgCode(A,Z)] (PDG/PDGUtils, not among the sources). *)
Class PDGUtils := { IonPdgCode : Z -> Z -> Z }.

(* ------------------------------------------------------------------ *)
(** ** PathLengthList *)

Module PathLengthList.

(** Modelled from the spec: [PathLengthList] (EVGDrivers/PathLengthList.h
    is not among the sources).  "Mapping from Nuclide Identifier to a
    non-negative accumulated length [...] keys are exactly the set of
    nuclides discovered in the geometry; all values start at zero". *)
Definition create (pdglist : list Z) : gmap Z Q :=
  list_to_map ((fun k => (k, 0)) <$> pdglist).

(** Modelled from the spec: "reset to zero at the start of each new
    pass"; the keys stay. *)
Definition SetAllToZero (pl : gmap Z Q) : gmap Z Q :=
  (fun _ => 0) <$> pl.

(** Modelled from the spec: adds [d] to the length stored under [pdgc];
    the keys stay "exactly the set of nuclides discovered in the
    geometry", so a code that is not a key is not added. *)
Definition AddPathLength (pdgc : Z) (d : Q) (pl : gmap Z Q) : gmap Z Q :=
  alter (fun v => v + d) pdgc pl.

(** Modelled from the spec: "Scaling Factor [...] applied [...] to every
    record's values"; this rescales the value stored under [pdgc]. *)
Definition ScalePathLength (pdgc : Z) (scale : Q) (pl : gmap Z Q)
  : gmap Z Q :=
  alter (fun v => v * scale) pdgc pl.

Definition AllZero (pl : gmap Z Q) : Prop :=
  forall k v, pl !! k = Some v -> v == 0.

End PathLengthList.

(* ------------------------------------------------------------------ *)
(** ** Outcomes of a call *)

Inductive outcome (A : Type) :=
| Done (a : A)
| Crash      (** a null pointer was dereferenced *)
| OutOfFuel    (** the fuel ran out *).
Arguments Done {A} a.
Arguments Crash {A}.
Arguments OutOfFuel {A}.

Definition obind {A B} (m : outcome A) (f : A -> outcome B) : outcome B :=
  match m with
  | Done a => f a
  | Crash => Crash
  | OutOfFuel => OutOfFuel
  end.

Notation "'let*' x := m 'in' k" := (obind m (fun x => k))
  (at level 10, x pattern, m at level 100, k at level 200).


(** [*ptr] *)
Definition deref {A} (ptr : option A) : outcome A :=
  match ptr with Some a => Done a | None => Crash end.

(* ------------------------------------------------------------------ *)
(** ** The analyzer *)

Section Analyzer.

Context {G : Type} `{!TGeoManager G} `{!FloatOps} `{!PDGUtils}.

Record ROOTGeomAnalyzer := mkROOTGeomAnalyzer {
  fGeometry : option G;
  fTopVolume : option TGeoVolume;
  fCurrPathLengthList : option (gmap Z Q);
  fCurrMaxPathLengthList : option (gmap Z Q);
  fCurrPDGCodeList : option (list Z);
  fCurrVertex : option TVector3;
  fScale : Q;
  fNPoints : Z;
  fNRays : Z;
  fDensWeight : bool
}.

Definition WeightWithDensity (a : ROOTGeomAnalyzer) : bool := fDensWeight a.

Definition set_fGeometry (g : option G) (a : ROOTGeomAnalyzer) :=
  mkROOTGeomAnalyzer g (fTopVolume a) (fCurrPathLengthList a)
    (fCurrMaxPathLengthList a) (fCurrPDGCodeList a) (fCurrVertex a)
    (fScale a) (fNPoints a) (fNRays a) (fDensWeight a).

Definition set_fCurrPathLengthList (pl : option (gmap Z Q))
    (a : ROOTGeomAnalyzer) :=
  mkROOTGeomAnalyzer (fGeometry a) (fTopVolume a) pl
    (fCurrMaxPathLengthList a) (fCurrPDGCodeList a) (fCurrVertex a)
    (fScale a) (fNPoints a) (fNRays a) (fDensWeight a).

Definition set_fCurrMaxPathLengthList (pl : option (gmap Z Q))
    (a : ROOTGeomAnalyzer) :=
  mkROOTGeomAnalyzer (fGeometry a) (fTopVolume a) (fCurrPathLengthList a)
    pl (fCurrPDGCodeList a) (fCurrVertex a)
    (fScale a) (fNPoints a) (fNRays a) (fDensWeight a).

Definition set_fCurrVertex (v : option TVector3) (a : ROOTGeomAnalyzer) :=
  mkROOTGeomAnalyzer (fGeometry a) (fTopVolume a) (fCurrPathLengthList a)
    (fCurrMaxPathLengthList a) (fCurrPDGCodeList a) v
    (fScale a) (fNPoints a) (fNRays a) (fDensWeight a).


(** *** GetWeight, WillNeverEnter, ScalePathLengths, GetTargetPdgCode *)

Definition GetWeight (a : ROOTGeomAnalyzer) (mat : TGeoMaterial) : Q :=
  let weight := 1 in
  if WeightWithDensity a then GetDensity mat else weight.

(** An integer a [double] holds exactly: at most 53 significant bits. *)
Definition double_integer (z : Z) : bool :=
  let n := Z.abs z in
  (n mod 2 ^ Z.max 0 (Z.log2 n - 52) =? 0)%Z.

(** The [double] the literal [9.99E29] stands for: the one nearest to
    999 x 10^27, which no [double] holds (the doubles there are 2^47
    apart). *)
Definition max_step_threshold : Q :=
  inject_Z 999000000000000020146215190528.

Definition WillNeverEnter (step : Q) : bool :=
  Qgt_bool step max_step_threshold.

(** The loop over the entries of [pl], rescaling the entry of each key. *)
Definition ScalePathLengths (a : ROOTGeomAnalyzer) (pl : gmap Z Q)
  : gmap Z Q :=
  foldl (fun acc pdgc => PathLengthList.ScalePathLength pdgc (fScale a) acc)
        pl ((map_to_list pl).*1).

Definition GetTargetPdgCode (m : TGeoMaterial) : Z :=
  IonPdgCode (double_to_int (GetA m)) (double_to_int (GetZ m)).

Definition GetTargetPdgCode_element (e : TGeoElement) : Z :=
  IonPdgCode (double_to_int (eleA e)) (double_to_int (eleZ e)).

(** *** The pieces the three ray walks share *)

(** The locals of a ray walk. *)
Record Locals := mkLocals {
  FlagNotInYet : Z;
  condition : bool;
  step : Q;
  r : TVector3
}.

(** [r[i0] += d*p.Px()/p.P(); r[i1] += d*p.Py()/p.P();
     r[i2] += d*p.Pz()/p.P();] *)
Definition advance (i0 i1 i2 : Z) (d : Q) (p : TLorentzVector)
    (v : TVector3) : TVector3 * list Message :=
  let '(v, m0) := TVector3_add_at i0 (d * Px p / P p) v in
  let '(v, m1) := TVector3_add_at i1 (d * Py p / P p) v in
  let '(v, m2) := TVector3_add_at i2 (d * Pz p / P p) v in
  (v, m0 ++ m1 ++ m2).

(** [while(!fGeometry->IsEntering()) { fGeometry->Step();
     step=fGeometry->GetStep(); }] *)
Fixpoint step_while_not_entering (fuel : nat) (g : G) (s : Q)
  : outcome (G * Q) :=
  if IsEntering g then Done (g, s)
  else match fuel with
       | O => OutOfFuel
       | S n => let g := Step g in step_while_not_entering n g (GetStep g)
       end.

(** [fGeometry->FindNextBoundary(); step=fGeometry->GetStep();] and the
    loop above. *)
Definition next_boundary (fuel : nat) (g : G) : outcome (G * Q) :=
  let g := FindNextBoundary g in
  step_while_not_entering fuel g (GetStep g).

(** *** ComputePathLengths *)

Inductive Seek :=
| SeekEntering (g : G) (s : Q)
| SeekNeverEnters (g : G).

(** The stepping loop of the outside branch, which alone asks
    [WillNeverEnter]. *)
Fixpoint cpl_seek_entry (fuel : nat) (g : G) (s : Q)
  : outcome (Seek * list Message) :=
  if IsEntering g then Done (SeekEntering g s, [])
  else match fuel with
       | O => OutOfFuel
       | S n =>
           let g := Step g in
           let s := GetStep g in
           if WillNeverEnter s then
             Done (SeekNeverEnters g,
                   [MsgStepping s;
                    MsgText pINFO
                      "This trajectory isn't entering the detector"])
           else
             let* (sk, m) := cpl_seek_entry n g s in
             Done (sk, MsgStepping s :: m)
       end.

(** The [for] loop over the elements of a mixture. *)
Fixpoint cpl_elements (fuel : nat) (a : ROOTGeomAnalyzer)
    (p : TLorentzVector) (mat : TGeoMaterial) (eles : list TGeoElement)
    (l : Locals) (g : G) (pl : gmap Z Q)
  : outcome (Locals * G * gmap Z Q * list Message) :=
  match eles with
  | [] => Done (l, g, pl, [])
  | ele :: rest =>
      let ion_pdgc := GetTargetPdgCode_element ele in
      let weight := GetWeight a mat in
      let* (g, s) := next_boundary fuel g in
      let pl := PathLengthList.AddPathLength ion_pdgc (s * weight) pl in
      let '(r', mr) := advance 0 1 2 s p (r l) in
      let l := mkLocals (FlagNotInYet l) (condition l) s r' in
      let* (l, g, pl, m) := cpl_elements fuel a p mat rest l g pl in
      Done (l, g, pl, MsgSegment ion_pdgc s :: mr ++ m)
  end.

(** The three [if(condition)] blocks that follow the outside branch. *)
Definition cpl_inside (fuel : nat) (a : ROOTGeomAnalyzer)
    (p : TLorentzVector) (vol : option TGeoVolume)
    (l : Locals) (g : G) (pl : gmap Z Q)
  : outcome (Locals * G * gmap Z Q * list Message) :=
  if condition l then
    let l := if (FlagNotInYet l =? 0)%Z
             then mkLocals 1 (condition l) (step l) (r l) else l in
    let* v := deref vol in
    match GetMedium v with
    | None => Done (mkLocals (FlagNotInYet l) false (step l) (r l), g, pl, [])
    | Some med =>
        match GetMaterial med with
        | None =>
            Done (mkLocals (FlagNotInYet l) false (step l) (r l), g, pl, [])
        | Some mat =>
            if IsMixture mat then
              cpl_elements fuel a p mat (GetElements mat) l g pl
            else
              let ion_pdgc := GetTargetPdgCode mat in
              let weight := GetWeight a mat in
              let* (g, s) := next_boundary fuel g in
              let pl :=
                PathLengthList.AddPathLength ion_pdgc (s * weight) pl in
              let '(r', mr) := advance 0 1 2 s p (r l) in
              Done (mkLocals (FlagNotInYet l) (condition l) s r', g, pl,
                    MsgSegment ion_pdgc s :: mr)
        end
    end
  else Done (l, g, pl, []).

(** How one pass through a loop body ends. *)
Inductive Flow :=
| Continue (l : Locals) (g : G) (pl : gmap Z Q)
| Break (l : Locals) (g : G) (pl : gmap Z Q)
| Return (g : G) (pl : gmap Z Q).

Definition cpl_body (fuel : nat) (a : ROOTGeomAnalyzer)
    (p : TLorentzVector) (l : Locals) (g : G) (pl : gmap Z Q)
  : outcome (Flow * list Message) :=
  let l := mkLocals (FlagNotInYet l) true (step l) (r l) in
  let m0 := [MsgPosition (r l) (FlagNotInYet l)] in
  let g := SetCurrentPoint (TVector3_xyz (r l)) g in
  let g := FindNode (TVector3_xyz (r l)) g in
  let vol := GetCurrentVolume g in
  (* LOG(pDEBUG) << "Current volume: " << vol->GetName() *)
  let* _ := deref vol in
  if IsOutside g || negb (bool_decide (is_Some vol)) then
    if negb (FlagNotInYet l =? 0)%Z then Done (Break l g pl, m0)
    else
      let l := mkLocals (FlagNotInYet l) false (step l) (r l) in
      let g := FindNextBoundary g in
      let* (sk, ms) := cpl_seek_entry fuel g (GetStep g) in
      match sk with
      | SeekNeverEnters g => Done (Return g pl, m0 ++ ms)
      | SeekEntering g s =>
          let '(r', mr) := advance 0 1 2 s p (r l) in
          let l := mkLocals (FlagNotInYet l) (condition l) s r' in
          let* (l, g, pl, mi) := cpl_inside fuel a p vol l g pl in
          Done (Continue l g pl, m0 ++ ms ++ mr ++ mi)
      end
  else
    let* (l, g, pl, mi) := cpl_inside fuel a p vol l g pl in
    Done (Continue l g pl, m0 ++ mi).

(** Through which [return] (or past which loop) a walk came out. *)
Inductive LoopExit :=
| LoopEnd (g : G) (pl : gmap Z Q)
| LoopReturn (g : G) (pl : gmap Z Q).

(** [while((!FlagNotInYet) || condition) { ... }]; [inner] is the fuel of
    the stepping loops inside the body. *)
Fixpoint cpl_while (inner fuel : nat) (a : ROOTGeomAnalyzer)
    (p : TLorentzVector) (l : Locals) (g : G) (pl : gmap Z Q)
  : outcome (LoopExit * list Message) :=
  if (FlagNotInYet l =? 0)%Z || condition l then
    match fuel with
    | O => OutOfFuel
    | S n =>
        let* (fl, m) := cpl_body inner a p l g pl in
        match fl with
        | Continue l g pl =>
            let* (e, m') := cpl_while inner n a p l g pl in
            Done (e, m ++ m')
        | Break l g pl => Done (LoopEnd g pl, m)
        | Return g pl => Done (LoopReturn g pl, m)
        end
    end
  else Done (LoopEnd g pl, []).

Inductive ReturnSite :=
| ReturnNeverEnters   (** the [return] behind [WillNeverEnter] *)
| ReturnEnd           (** the [return] that ends the function *).

Definition direction_of (p : TLorentzVector) : TVector3 :=
  mkTVector3 (Px p / P p) (Py p / P p) (Pz p / P p).

Definition ComputePathLengths (fuel : nat) (a : ROOTGeomAnalyzer)
    (x p : TLorentzVector)
  : outcome (ROOTGeomAnalyzer * ReturnSite * list Message) :=
  let* pl := deref (fCurrPathLengthList a) in
  let pl := PathLengthList.SetAllToZero pl in
  let l := mkLocals 0 true 0 (mkTVector3 (lvX x) (lvY x) (lvZ x)) in
  let* g := deref (fGeometry a) in
  let g := SetCurrentDirection (direction_of p) g in
  let* (e, m) := cpl_while fuel fuel a p l g pl in
  match e with
  | LoopReturn g pl =>
      Done (set_fCurrPathLengthList (Some pl) (set_fGeometry (Some g) a),
            ReturnNeverEnters, m)
  | LoopEnd g pl =>
      let pl := ScalePathLengths a pl in
      Done (set_fCurrPathLengthList (Some pl) (set_fGeometry (Some g) a),
            ReturnEnd, m)
  end.

(** *** GenerateVertex *)

Definition no_geometry_msg : Message :=
  MsgText pERROR "No ROOT geometry is loaded!".

Definition no_material_msg : Message :=
  MsgText pERROR
    "No material selected along this direction from set point!!! ".

(** The body of the first loop (the density-weighted length [dist] through
    [tgtpdg]).  [inl] is a [break]. *)
Definition gv_dist_body (fuel : nat) (a : ROOTGeomAnalyzer)
    (p : TLorentzVector) (tgtpdg : Z) (l : Locals) (g : G) (dist : Q)
  : outcome ((Locals * G * Q + Locals * G * Q) * list Message) :=
  let l := mkLocals (FlagNotInYet l) true (step l) (r l) in
  let m0 := [MsgPosition (r l) (FlagNotInYet l)] in
  let g := SetCurrentPoint (TVector3_xyz (r l)) g in
  let g := FindNode (TVector3_xyz (r l)) g in
  let vol := GetCurrentVolume g in
  (* LOG(pDEBUG) << "Current volume: " << vol->GetName() *)
  let* _ := deref vol in
  let* (brk, l, g, m1) :=
    if IsOutside g || negb (bool_decide (is_Some vol)) then
      let l := mkLocals (FlagNotInYet l) false (step l) (r l) in
      if negb (FlagNotInYet l =? 0)%Z then Done (true, l, g, [])
      else
        let* (g, s) := next_boundary fuel g in
        let '(r', mr) := advance 1 2 3 s p (r l) in
        Done (false, mkLocals (FlagNotInYet l) (condition l) s r', g, mr)
    else Done (false, l, g, []) in
  if brk : bool then Done (inl (l, g, dist), m0 ++ m1)
  else if condition l then
    let l := if (FlagNotInYet l =? 0)%Z
             then mkLocals 1 (condition l) (step l) (r l) else l in
    let* v := deref vol in
    match GetMedium v with
    | None =>
        Done (inr (mkLocals (FlagNotInYet l) false (step l) (r l), g, dist),
              m0 ++ m1)
    | Some med =>
        match GetMaterial med with
        | None =>
            Done (inr (mkLocals (FlagNotInYet l) false (step l) (r l),
                       g, dist), m0 ++ m1)
        | Some mat =>
            let ion_pdgc := GetTargetPdgCode mat in
            let weight := GetWeight a mat in
            let* (g, s) := next_boundary fuel g in
            let dist := if (ion_pdgc =? tgtpdg)%Z
                        then dist + s * weight else dist in
            let '(r', mr) := advance 1 2 3 s p (r l) in
            Done (inr (mkLocals (FlagNotInYet l) (condition l) s r',
                       g, dist), m0 ++ m1 ++ mr)
        end
    end
  else Done (inr (l, g, dist), m0 ++ m1).

Fixpoint gv_dist_while (inner fuel : nat) (a : ROOTGeomAnalyzer)
    (p : TLorentzVector) (tgtpdg : Z) (l : Locals) (g : G) (dist : Q)
  : outcome (Locals * G * Q * list Message) :=
  if (FlagNotInYet l =? 0)%Z || condition l then
    match fuel with
    | O => OutOfFuel
    | S n =>
        let* (fl, m) := gv_dist_body inner a p tgtpdg l g dist in
        match fl with
        | inl (l, g, dist) => Done (l, g, dist, m)
        | inr (l, g, dist) =>
            let* (l, g, dist, m') :=
              gv_dist_while inner n a p tgtpdg l g dist in
            Done (l, g, dist, m ++ m')
        end
    end
  else Done (l, g, dist, []).

(** The first phase, from the declaration of [dist] to the end of the
    first loop. *)
Definition GenerateVertex_dist (fuel : nat) (a : ROOTGeomAnalyzer) (g : G)
    (x p : TLorentzVector) (tgtpdg : Z)
  : outcome (Locals * G * Q * list Message) :=
  let dist := 0 in
  let l := mkLocals 0 true 0 (mkTVector3 (lvX x) (lvY x) (lvZ x)) in
  let g := SetCurrentDirection (direction_of p) g in
  gv_dist_while fuel fuel a p tgtpdg l g dist.

Definition StepIncrease : Q := 1 # 1000.

(** The body of the second loop (the walk in increments of [StepIncrease]
    up to the drawn length). *)
Definition gv_vtx_body (a : ROOTGeomAnalyzer) (p : TLorentzVector)
    (tgtpdg : Z) (l : Locals) (g : G) (distToVtx : Q)
  : outcome ((Locals * G * Q + Locals * G * Q) * list Message) :=
  let l := mkLocals (FlagNotInYet l) true (step l) (r l) in
  let m0 := [MsgPosition (r l) (FlagNotInYet l)] in
  let '(r', mr) := advance 0 1 2 StepIncrease p (r l) in
  let l := mkLocals (FlagNotInYet l) (condition l) (step l) r' in
  let g := SetCurrentPoint (TVector3_xyz (r l)) g in
  let g := FindNode (TVector3_xyz (r l)) g in
  let vol := GetCurrentVolume g in
  (* LOG(pDEBUG) << "Current volume: " << vol->GetName() *)
  let* _ := deref vol in
  let outside := IsOutside g || negb (bool_decide (is_Some vol)) in
  let l := if outside
           then mkLocals (FlagNotInYet l) false (step l) (r l) else l in
  if outside && negb (FlagNotInYet l =? 0)%Z
  then Done (inl (l, g, distToVtx), m0 ++ mr)
  else if condition l then
    let l := if (FlagNotInYet l =? 0)%Z
             then mkLocals 1 (condition l) (step l) (r l) else l in
    let* v := deref vol in
    match GetMedium v with
    | None =>
        Done (inr (mkLocals (FlagNotInYet l) false (step l) (r l),
                   g, distToVtx), m0 ++ mr)
    | Some med =>
        match GetMaterial med with
        | None =>
            Done (inr (mkLocals (FlagNotInYet l) false (step l) (r l),
                       g, distToVtx), m0 ++ mr)
        | Some mat =>
            let ion_pdgc := GetTargetPdgCode mat in
            let weight := GetWeight a mat in
            let distToVtx := if (ion_pdgc =? tgtpdg)%Z
                             then distToVtx + StepIncrease * weight
                             else distToVtx in
            Done (inr (l, g, distToVtx), m0 ++ mr)
        end
    end
  else Done (inr (l, g, distToVtx), m0 ++ mr).

Fixpoint gv_vtx_while (fuel : nat) (a : ROOTGeomAnalyzer)
    (p : TLorentzVector) (tgtpdg : Z) (distVertex : Q)
    (l : Locals) (g : G) (distToVtx : Q)
  : outcome (Locals * G * Q * list Message) :=
  if ((FlagNotInYet l =? 0)%Z || condition l)
     && Qlt_bool distToVtx distVertex then
    match fuel with
    | O => OutOfFuel
    | S n =>
        let* (fl, m) := gv_vtx_body a p tgtpdg l g distToVtx in
        match fl with
        | inl (l, g, d) => Done (l, g, d, m)
        | inr (l, g, d) =>
            let* (l, g, d, m') :=
              gv_vtx_while n a p tgtpdg distVertex l g d in
            Done (l, g, d, m ++ m')
        end
    end
  else Done (l, g, distToVtx, []).

Context {R : Type} `{!TRandom R}.

Definition GenerateVertex (fuel : nat) (a : ROOTGeomAnalyzer) (rnd : R)
    (x p : TLorentzVector) (tgtpdg : Z)
  : outcome (ROOTGeomAnalyzer * R * list Message) :=
  (* reset current interaction vertex *)
  let* _ := deref (fCurrVertex a) in
  let a := set_fCurrVertex (Some (mkTVector3 0 0 0)) a in
  match fGeometry a with
  | None => Done (a, rnd, [no_geometry_msg])
  | Some g =>
      (* calculate length weighted with density *)
      let* (l, g, dist, m1) := GenerateVertex_dist fuel a g x p tgtpdg in
      let a := set_fGeometry (Some g) a in
      if Qeq_bool dist 0 then Done (a, rnd, m1 ++ [no_material_msg])
      else
        (* generate random number between 0 and dist *)
        let '(u, rnd) := Rndm rnd in
        let distVertex := u * dist in
        (* generate the vertex *)
        let l := mkLocals 0 true (step l)
                   (mkTVector3 (lvX x) (lvY x) (lvZ x)) in
        let distToVtx := 0 in
        let* (l, g, _, m2) :=
          gv_vtx_while fuel a p tgtpdg distVertex l g distToVtx in
        let '(r0, e0) := TVector3_sub_at 0 (StepIncrease * Px p / P p) (r l) in
        let '(r1, e1) := TVector3_sub_at 1 (StepIncrease * Py p / P p) r0 in
        let '(r2, e2) := TVector3_sub_at 2 (StepIncrease * Pz p / P p) r1 in
        let a := set_fCurrVertex (Some (TVector3_xyz r2))
                   (set_fGeometry (Some g) a) in
        Done (a, rnd, m1 ++ m2 ++ e0 ++ e1 ++ e2)
  end.

(** *** ComputeMaxPathLengthPDG *)

(** The locals of the bounded walk: [xx], [yy], [zz] are [float]s. *)
Record ScanLocals := mkScanLocals {
  sFlagNotInYet : Z;
  scondition : bool;
  counterloop : Z;
  xx : Q; yy : Q; zz : Q;
  Length : Q;
  weight : Q
}.

(** [xx+=step*direction[0]; yy+=step*direction[1]; zz+=step*direction[2];] *)
Definition scan_advance (s : Q) (direction : TVector3) (l : ScanLocals)
  : ScanLocals :=
  mkScanLocals (sFlagNotInYet l) (scondition l) (counterloop l)
    (to_float (xx l + s * fX direction))
    (to_float (yy l + s * fY direction))
    (to_float (zz l + s * fZ direction))
    (Length l) (weight l).

Definition scan_set_condition (c : bool) (l : ScanLocals) : ScanLocals :=
  mkScanLocals (sFlagNotInYet l) c (counterloop l)
    (xx l) (yy l) (zz l) (Length l) (weight l).

(** The loop body; [inl] is a [break]. *)
Definition pdg_body (fuel : nat) (a : ROOTGeomAnalyzer)
    (direction : TVector3) (pdgc : Z) (l : ScanLocals) (g : G)
  : outcome (ScanLocals * G + ScanLocals * G) :=
  let l := mkScanLocals (sFlagNotInYet l) true (counterloop l + 1)%Z
             (xx l) (yy l) (zz l) (Length l) (weight l) in
  let xyz := mkTVector3 (xx l) (yy l) (zz l) in
  let g := SetCurrentPoint xyz g in
  let g := FindNode xyz g in
  let vol := GetCurrentVolume g in
  let* (brk, l, g) :=
    if IsOutside g || negb (bool_decide (is_Some vol)) then
      let l := scan_set_condition false l in
      if negb (sFlagNotInYet l =? 0)%Z then Done (true, l, g)
      else
        let* (g, s) := next_boundary fuel g in
        Done (false, scan_advance s direction l, g)
    else Done (false, l, g) in
  if brk : bool then Done (inl (l, g))
  else if scondition l then
    let l := if (sFlagNotInYet l =? 0)%Z
             then mkScanLocals 1 (scondition l) (counterloop l)
                    (xx l) (yy l) (zz l) (Length l) (weight l)
             else l in
    let* v := deref vol in
    match GetMedium v with
    | None => Done (inr (scan_set_condition false l, g))
    | Some med =>
        match GetMaterial med with
        | None => Done (inr (scan_set_condition false l, g))
        | Some mat =>
            let ion_pdgc := GetTargetPdgCode mat in
            let* (g, s) := next_boundary fuel g in
            let l := if (ion_pdgc =? pdgc)%Z
                     then mkScanLocals (sFlagNotInYet l) (scondition l)
                            (counterloop l) (xx l) (yy l) (zz l)
                            (Length l + s) (GetWeight a mat)
                     else l in
            Done (inr (scan_advance s direction l, g))
        end
    end
  else Done (inr (l, g)).

(** [while(((!FlagNotInYet) || condition) && counterloop <100)]; the
    counter bounds the trips, [n] only makes the recursion structural. *)
Fixpoint pdg_while (fuel n : nat) (a : ROOTGeomAnalyzer)
    (direction : TVector3) (pdgc : Z) (l : ScanLocals) (g : G)
  : outcome (ScanLocals * G) :=
  if ((sFlagNotInYet l =? 0)%Z || scondition l)
     && (counterloop l <? 100)%Z then
    match n with
    | O => OutOfFuel
    | S n =>
        let* fl := pdg_body fuel a direction pdgc l g in
        match fl with
        | inl (l, g) => Done (l, g)
        | inr (l, g) => pdg_while fuel n a direction pdgc l g
        end
    end
  else Done (l, g).

Definition ComputeMaxPathLengthPDG (fuel : nat) (a : ROOTGeomAnalyzer)
    (g : G) (XYZ direction : TVector3) (pdgc : Z) : outcome (Q * G) :=
  let l := mkScanLocals 0 true 0
             (to_float (fX XYZ)) (to_float (fY XYZ)) (to_float (fZ XYZ))
             0 0 in
  let g := SetCurrentDirection direction g in
  let* (l, g) := pdg_while fuel 100 a direction pdgc l g in
  Done (Length l * weight l, g).

(** *** ComputeMaxPathLengths *)

Inductive Face := TOP | BOTTOM | LEFT | RIGHT | BACK | FRONT.

Definition faces : list Face := [TOP; BOTTOM; LEFT; RIGHT; BACK; FRONT].

(** The surface point of a face from two draws, in the order the code
    draws them. *)
Definition face_point (box : TGeoBBox) (f : Face) (u v : Q) : TVector3 :=
  let dx := GetDX box in
  let dy := GetDY box in
  let dz := GetDZ box in
  let ox := fX (GetOrigin box) in
  let oy := fY (GetOrigin box) in
  let oz := fZ (GetOrigin box) in
  match f with
  | TOP => mkTVector3 (ox - dx + 2 * dx * u) (oy + dy) (oz - dz + 2 * dz * v)
  | BOTTOM =>
      mkTVector3 (ox - dx + 2 * dx * u) (oy - dy) (oz - dz + 2 * dz * v)
  | LEFT => mkTVector3 (ox - dx) (oy - dy + 2 * dy * u) (oz - dz + 2 * dz * v)
  | RIGHT =>
      mkTVector3 (ox + dx) (oy - dy + 2 * dy * u) (oz - dz + 2 * dz * v)
  | BACK => mkTVector3 (ox - dx + 2 * dx * u) (oy - dy + 2 * dy * v) (oz - dz)
  | FRONT =>
      mkTVector3 (ox - dx + 2 * dx * u) (oy - dy + 2 * dy * v) (oz + dz)
  end.

(** The direction of a ray from three draws, before it is normalised. *)
Definition face_direction (f : Face) (u v w : Q) : TVector3 :=
  let half := 1 # 2 in
  match f with
  | TOP => mkTVector3 (- half + u) (- v) (- half + w)
  | BOTTOM => mkTVector3 (- half + u) v (- half + w)
  | LEFT => mkTVector3 u (- half + v) (- half + w)
  | RIGHT => mkTVector3 (- u) (- half + v) (- half + w)
  | BACK => mkTVector3 (- half + u) (- half + v) w
  | FRONT => mkTVector3 (- half + u) (- half + v) (- w)
  end.

Definition normalise (d : TVector3) : TVector3 :=
  let dirTot := fsqrt (fX d * fX d + fY d * fY d + fZ d * fZ d) in
  mkTVector3 (fX d / dirTot) (fY d / dirTot) (fZ d / dirTot).

(** [Rgen=0; while(Rgen<maxRays) { Rgen++; ... }], run [n] more times. *)
Fixpoint scan_rays (n fuel : nat) (a : ROOTGeomAnalyzer) (f : Face)
    (xyz : TVector3) (pdgc : Z) (g : G) (rnd : R) (MaxPath : Q)
  : outcome (G * R * Q) :=
  match n with
  | O => Done (g, rnd, MaxPath)
  | S n =>
      let '(u, rnd) := Rndm rnd in
      let '(v, rnd) := Rndm rnd in
      let '(w, rnd) := Rndm rnd in
      let direction := normalise (face_direction f u v w) in
      let* (len, g) := ComputeMaxPathLengthPDG fuel a g xyz direction pdgc in
      let MaxPath := if Qgt_bool len MaxPath then len else MaxPath in
      scan_rays n fuel a f xyz pdgc g rnd MaxPath
  end.

(** [igen=0; while(igen<maxPoints) { igen++; ... }], run [n] more times. *)
Fixpoint scan_points (n fuel : nat) (a : ROOTGeomAnalyzer) (box : TGeoBBox)
    (f : Face) (pdgc : Z) (g : G) (rnd : R) (MaxPath : Q)
  : outcome (G * R * Q) :=
  match n with
  | O => Done (g, rnd, MaxPath)
  | S n =>
      let '(u, rnd) := Rndm rnd in
      let '(v, rnd) := Rndm rnd in
      let xyz := face_point box f u v in
      let maxRays := fNRays a in
      let* (g, rnd, MaxPath) :=
        scan_rays (Z.to_nat maxRays) fuel a f xyz pdgc g rnd MaxPath in
      scan_points n fuel a box f pdgc g rnd MaxPath
  end.

(** The six surface scans of one material, in the order of the code. *)
Fixpoint scan_faces (fs : list Face) (fuel : nat) (a : ROOTGeomAnalyzer)
    (box : TGeoBBox) (pdgc : Z) (g : G) (rnd : R) (MaxPath : Q)
  : outcome (G * R * Q) :=
  match fs with
  | [] => Done (g, rnd, MaxPath)
  | f :: fs =>
      let maxPoints := fNPoints a in
      let* (g, rnd, MaxPath) :=
        scan_points (Z.to_nat maxPoints) fuel a box f pdgc g rnd MaxPath in
      scan_faces fs fuel a box pdgc g rnd MaxPath
  end.

(** The loop on materials. *)
Fixpoint scan_materials (codes : list Z) (fuel : nat)
    (a : ROOTGeomAnalyzer) (box : TGeoBBox) (g : G) (rnd : R)
    (pl : gmap Z Q) : outcome (G * R * gmap Z Q) :=
  match codes with
  | [] => Done (g, rnd, pl)
  | pdgc :: codes =>
      let MaxPath := 0 in
      let* (g, rnd, MaxPath) :=
        scan_faces faces fuel a box pdgc g rnd MaxPath in
      let pl := PathLengthList.AddPathLength pdgc MaxPath pl in
      scan_materials codes fuel a box g rnd pl
  end.

Definition ComputeMaxPathLengths (fuel : nat) (a : ROOTGeomAnalyzer)
    (rnd : R) : outcome (ROOTGeomAnalyzer * R * list Message) :=
  match fGeometry a with
  | None => Done (a, rnd, [no_geometry_msg])
  | Some g =>
      (* initialize max path lengths *)
      let* pl := deref (fCurrMaxPathLengthList a) in
      let pl := PathLengthList.SetAllToZero pl in
      (* get a bounding box *)
      let* top := deref (fTopVolume a) in
      let box := GetShape top in
      (* loop on materials *)
      let* codes := deref (fCurrPDGCodeList a) in
      let* (g, rnd, pl) := scan_materials codes fuel a box g rnd pl in
      let pl := ScalePathLengths a pl in
      Done (set_fCurrMaxPathLengthList (Some pl) (set_fGeometry (Some g) a),
            rnd, [])
  end.

(** *** Initialize *)

(** The members [Initialize] sets; it leaves [fGeometry] and
    [fCurrVertex] as they are. *)
Definition Initialize (a : ROOTGeomAnalyzer) : ROOTGeomAnalyzer :=
  mkROOTGeomAnalyzer (fGeometry a) None None None None (fCurrVertex a)
    1 200 200 true.

End Analyzer.

Arguments ROOTGeomAnalyzer : clear implicits.
Arguments Flow : clear implicits.
Arguments LoopExit : clear implicits.

(* ------------------------------------------------------------------ *)
(** ** Loading a geometry, units, the top volume *)

(** [units::meter] (Conventions/Units.h, not among the sources). *)
Class Units := { meter : Q }.

(** The [TObjArray] of volumes as the loader reads it: [GetEntries()] and
    [dynamic_cast <TGeoVolume *>(At(i))], which is null for an empty slot
    and for an object that is no volume. *)
Record TObjArray := mkTObjArray {
  GetEntries : Z;
  At : Z -> option TGeoVolume
}.

(** What the loader and [SetTopVolName] ask of [TGeoManager]. *)
Class TGeoCatalog (G : Type) := {
  GetVolume : string -> G -> option TGeoVolume;
  GetTopVolume : G -> option TGeoVolume;
  GetListOfVolumes : G -> option TObjArray
}.

(** [gSystem->AccessPathName], which answers false for a path that can be
    accessed, and [TGeoManager::Import]. *)
Class TSystem (G : Type) := {
  AccessPathName : string -> bool;
  TGeoManager_Import : string -> option G
}.

Module PDGCodeList.

(** Modelled from the spec: [PDGCodeList] (PDG/PDGCodeList.h is not among
    the sources).  "Collecting the set (duplicates allowed in intermediate
    collection [...])": a code is appended, duplicate or not. *)
Definition push_back (pdgc : Z) (codes : list Z) : list Z := codes ++ [pdgc].

End PDGCodeList.

Section Loading.

Context {G : Type} `{!TGeoManager G} `{!TGeoCatalog G} `{!TSystem G}
        `{!FloatOps} `{!PDGUtils} `{!Units}.

Definition set_fTopVolume (v : option TGeoVolume) (a : ROOTGeomAnalyzer G) :=
  mkROOTGeomAnalyzer (fGeometry a) v (fCurrPathLengthList a)
    (fCurrMaxPathLengthList a) (fCurrPDGCodeList a) (fCurrVertex a)
    (fScale a) (fNPoints a) (fNRays a) (fDensWeight a).

Definition set_fCurrPDGCodeList (codes : option (list Z))
    (a : ROOTGeomAnalyzer G) :=
  mkROOTGeomAnalyzer (fGeometry a) (fTopVolume a) (fCurrPathLengthList a)
    (fCurrMaxPathLengthList a) codes (fCurrVertex a)
    (fScale a) (fNPoints a) (fNRays a) (fDensWeight a).

(** [fScale = u/units::meter;] *)
Definition SetUnits (u : Q) (a : ROOTGeomAnalyzer G) : ROOTGeomAnalyzer G :=
  mkROOTGeomAnalyzer (fGeometry a) (fTopVolume a) (fCurrPathLengthList a)
    (fCurrMaxPathLengthList a) (fCurrPDGCodeList a) (fCurrVertex a)
    (u / meter) (fNPoints a) (fNRays a) (fDensWeight a).

(** [return *fCurrPDGCodeList;] *)
Definition ListOfTargetNuclei (a : ROOTGeomAnalyzer G) : outcome (list Z) :=
  deref (fCurrPDGCodeList a).

(** *** BuildListOfTargetNuclei *)

Definition null_volume_msg : Message :=
  MsgText pWARN "Got a null geometry volume!! Skiping current list element".

Definition null_volume_list_msg : Message :=
  MsgText pERROR
    "Null list of geometry volumes. Can not find build target list!".

(** The [for] loop over the elements of a mixture. *)
Definition push_elements (codes : list Z) (eles : list TGeoElement)
  : list Z :=
  foldl (fun acc ele =>
           PDGCodeList.push_back (GetTargetPdgCode_element ele) acc)
        codes eles.

(** The body of the loop over the volumes, past the null check:
    [volume->GetMedium()->GetMaterial()] is not checked. *)
Definition push_volume (volume : TGeoVolume) (codes : list Z)
  : outcome (list Z) :=
  let* med := deref (GetMedium volume) in
  let* mat := deref (GetMaterial med) in
  if IsMixture mat then Done (push_elements codes (GetElements mat))
  else Done (PDGCodeList.push_back (GetTargetPdgCode mat) codes).

(** [for(int ivol = 0; ivol < numVol; ivol++)], with [n] trips left. *)
Fixpoint build_volumes (n : nat) (ivol : Z) (volume_list : TObjArray)
    (codes : list Z) : outcome (list Z * list Message) :=
  match n with
  | O => Done (codes, [])
  | S n =>
      match At volume_list ivol with
      | None =>
          let* (codes, m) :=
            build_volumes n (ivol + 1) volume_list codes in
          Done (codes, null_volume_msg :: m)
      | Some volume =>
          let* codes := push_volume volume codes in
          build_volumes n (ivol + 1) volume_list codes
      end
  end.

Definition BuildListOfTargetNuclei (a : ROOTGeomAnalyzer G)
  : outcome (ROOTGeomAnalyzer G * list Message) :=
  let a := set_fCurrPDGCodeList (Some []) a in
  match fGeometry a with
  | None => Done (a, [no_geometry_msg])
  | Some g =>
      match GetListOfVolumes g with
      | None => Done (a, [null_volume_list_msg])
      | Some volume_list =>
          let numVol := GetEntries volume_list in
          let* (codes, m) :=
            build_volumes (Z.to_nat numVol) 0 volume_list [] in
          Done (set_fCurrPDGCodeList (Some codes) a, m)
      end
  end.

(** *** Load *)

Definition no_top_volume_msg : Message :=
  MsgText pFATAL "Could not get top volume!!!".

(** [Load(TGeoManager * gm)].  [assert(p)] on a null [p] aborts the
    process: it is a [Crash] like a null dereference. *)
Definition Load_gm (gm : option G) (a : ROOTGeomAnalyzer G)
  : outcome (ROOTGeomAnalyzer G * list Message) :=
  let a := set_fGeometry gm a in
  (* assert(fGeometry) *)
  let* _ := deref (fGeometry a) in
  let* (a, m) := BuildListOfTargetNuclei a in
  let* pdglist := ListOfTargetNuclei a in
  let a := set_fCurrPathLengthList
             (Some (PathLengthList.create pdglist)) a in
  let a := set_fCurrMaxPathLengthList
             (Some (PathLengthList.create pdglist)) a in
  let a := set_fCurrVertex (Some (mkTVector3 0 0 0)) a in
  (* ask geometry manager for its top volume *)
  let* g := deref (fGeometry a) in
  let a := set_fTopVolume (GetTopVolume g) a in
  (* the pFATAL line is not guarded *)
  let m := m ++ [no_top_volume_msg] in
  (* assert(fTopVolume) *)
  let* _ := deref (fTopVolume a) in
  Done (a, m).

Definition no_file_msg : Message :=
  MsgText pERROR "The ROOT geometry doesn't exist! Initialization failed!".

(** [Load(string filename)] *)
Definition Load_file (filename : string) (a : ROOTGeomAnalyzer G)
  : outcome (ROOTGeomAnalyzer G * list Message) :=
  let is_accessible := negb (AccessPathName filename) in
  if negb is_accessible then Done (a, [no_file_msg])
  else Load_gm (TGeoManager_Import filename) a.

(** The two constructors, on the memory [raw] they are given. *)
Definition ROOTGeomAnalyzer_of_file (geometry_filename : string)
    (raw : ROOTGeomAnalyzer G)
  : outcome (ROOTGeomAnalyzer G * list Message) :=
  Load_file geometry_filename (Initialize raw).

Definition ROOTGeomAnalyzer_of_manager (gm : option G)
    (raw : ROOTGeomAnalyzer G)
  : outcome (ROOTGeomAnalyzer G * list Message) :=
  Load_gm gm (Initialize raw).

(** *** SetTopVolName *)

(** The analyzer together with its member [fTopVolumeName]. *)
Record Named := mkNamed {
  base : ROOTGeomAnalyzer G;
  fTopVolumeName : string
}.

Definition no_such_volume_msgs : list Message :=
  [MsgText pWARN "Could not find volume: ";
   MsgText pWARN "Will not change the current top volume"].

Definition SetTopVolName (name : string) (a : Named)
  : outcome (Named * list Message) :=
  let a := mkNamed (base a) name in
  let* g := deref (fGeometry (base a)) in
  match GetVolume (fTopVolumeName a) g with
  | None => Done (mkNamed (base a) EmptyString, no_such_volume_msgs)
  | Some gvol => Done (mkNamed (set_fTopVolume (Some gvol) (base a))
                         (fTopVolumeName a), [])
  end.

End Loading.

Arguments Named : clear implicits.

(* ------------------------------------------------------------------ *)
(** ** Reading a walk off its messages *)

(** The positions a walk reports at the head of its loop. *)
Definition positions (ms : list Message) : list TVector3 :=
  ms ≫= fun m => match m with MsgPosition r _ => [r] | _ => [] end.

(** The attributions (code, step) a walk reports. *)
Definition segments (ms : list Message) : list (Z * Q) :=
  ms ≫= fun m => match m with MsgSegment k s => [(k, s)] | _ => [] end.

(** The bad indices ROOT reports. *)
Definition bad_indices (ms : list Message) : list Z :=
  ms ≫= fun m => match m with MsgBadIndex i => [i] | _ => [] end.

Section Reference.

Context {G : Type} `{!TGeoManager G} `{!FloatOps} `{!PDGUtils}.

(** That the navigator is positioned afresh by [SetCurrentDirection],
    [SetCurrentPoint] and [FindNode]: what it answers afterwards does not
    depend on where an earlier walk left it. *)
Definition positioned_afresh : Prop :=
  forall (g g' : G) (d r0 : TVector3),
    FindNode r0 (SetCurrentPoint r0 (SetCurrentDirection d g))
    = FindNode r0 (SetCurrentPoint r0 (SetCurrentDirection d g')).







(** The segment the bounded walk traverses in the trip that starts from
    [l] and [g], if that trip is inside a material: code, step, weight. *)
Definition pdg_segment (fuel : nat) (a : ROOTGeomAnalyzer G)
    (l : ScanLocals) (g : G) : option (Z * Q * Q) :=
  let xyz := mkTVector3 (xx l) (yy l) (zz l) in
  let g := FindNode xyz (SetCurrentPoint xyz g) in
  if IsOutside g then None
  else
    v ← GetCurrentVolume g;
    med ← GetMedium v;
    mat ← GetMaterial med;
    match next_boundary fuel g with
    | Done (_, s) => Some (GetTargetPdgCode mat, s, GetWeight a mat)
    | _ => None
    end.

(** What one trip does to [Length] and [weight]. *)
Definition trip_effect (pdgc : Z) (seg : option (Z * Q * Q))
    (l l' : ScanLocals) : Prop :=
  match seg with
  | Some (k, s, w) =>
      if (k =? pdgc)%Z
      then Length l' = Length l + s /\ weight l' = w
      else Length l' = Length l /\ weight l' = weight l
  | None => Length l' = Length l /\ weight l' = weight l
  end.

(** The segments of a bounded walk, trip by trip. *)
Fixpoint pdg_trace (fuel n : nat) (a : ROOTGeomAnalyzer G)
    (direction : TVector3) (pdgc : Z) (l : ScanLocals) (g : G)
  : list (Z * Q * Q) :=
  if ((sFlagNotInYet l =? 0)%Z || scondition l)
     && (counterloop l <? 100)%Z then
    match n with
    | O => []
    | S n =>
        match pdg_body fuel a direction pdgc l g with
        | Done (inr (l', g')) =>
            option_list (pdg_segment fuel a l g)
            ++ pdg_trace fuel n a direction pdgc l' g'
        | _ => []
        end
    end
  else [].

Definition ComputeMaxPathLengthPDG_trace (fuel : nat)
    (a : ROOTGeomAnalyzer G) (g : G) (XYZ direction : TVector3) (pdgc : Z)
  : list (Z * Q * Q) :=
  let l := mkScanLocals 0 true 0
             (to_float (fX XYZ)) (to_float (fY XYZ)) (to_float (fZ XYZ))
             0 0 in
  pdg_trace fuel 100 a direction pdgc l (SetCurrentDirection direction g).

(** "The sum over traversed segments whose nuclide matches the target of
    (segment length x that segment's material density weight)". *)
Fixpoint density_weighted_length (pdgc : Z) (segs : list (Z * Q * Q)) : Q :=
  match segs with
  | [] => 0
  | (k, s, w) :: segs =>
      if (k =? pdgc)%Z then s * w + density_weighted_length pdgc segs
      else density_weighted_length pdgc segs
  end.

(** The summed raw length of the matching segments. *)
Fixpoint matching_length (pdgc : Z) (segs : list (Z * Q * Q)) : Q :=
  match segs with
  | [] => 0
  | (k, s, w) :: segs =>
      if (k =? pdgc)%Z then s + matching_length pdgc segs
      else matching_length pdgc segs
  end.

(** The weight of the last matching segment, [w0] if there is none. *)
Fixpoint last_matching_weight (pdgc : Z) (w0 : Q)
    (segs : list (Z * Q * Q)) : Q :=
  match segs with
  | [] => w0
  | (k, s, w) :: segs =>
      last_matching_weight pdgc (if (k =? pdgc)%Z then w else w0) segs
  end.

End Reference.

(* ------------------------------------------------------------------ *)
(** ** More reference notions *)

(** The random source after [n] draws. *)
Definition after_draws {R : Type} `{!TRandom R} (n : nat) (rnd : R) : R :=
  Nat.iter n (fun r => snd (Rndm r)) rnd.

(** Every matching segment has the weight [w]. *)
Definition uniform_weight (pdgc : Z) (w : Q) (segs : list (Z * Q * Q))
  : Prop :=
  forall k s w', (k, s, w') ∈ segs -> k = pdgc -> w' = w.

(** No segment is of the nuclide [pdgc]. *)
Definition no_matching_segment (pdgc : Z) (segs : list (Z * Q * Q)) : Prop :=
  forall k s w, (k, s, w) ∈ segs -> k <> pdgc.

(** The members a successful load allocates. *)
Definition allocated {G : Type} (a : ROOTGeomAnalyzer G) : Prop :=
  is_Some (fGeometry a) /\ is_Some (fTopVolume a)
  /\ is_Some (fCurrPathLengthList a) /\ is_Some (fCurrMaxPathLengthList a)
  /\ is_Some (fCurrPDGCodeList a) /\ is_Some (fCurrVertex a).

(** The point [v] lies at the parameter [t] of the ray from [x] along
    [p]. *)
Definition on_ray `{!FloatOps} (x p : TLorentzVector) (t : Q)
    (v : TVector3) : Prop :=
  fX v == lvX x + t * (Px p / P p)
  /\ fY v == lvY x + t * (Py p / P p)
  /\ fZ v == lvZ x + t * (Pz p / P p).

(** The codes a volume stands for: those of the elements of a mixture, or
    the one of its material; none when the medium or the material is
    missing. *)
Definition volume_codes `{!PDGUtils} (v : TGeoVolume) : option (list Z) :=
  med ← GetMedium v;
  mat ← GetMaterial med;
  Some (if IsMixture mat
        then GetTargetPdgCode_element <$> GetElements mat
        else [GetTargetPdgCode mat]).

(** The entries [At(ivol)], [At(ivol+1)], ... of a volume list. *)
Fixpoint entries_from (n : nat) (ivol : Z) (volume_list : TObjArray)
  : list (option TGeoVolume) :=
  match n with
  | O => []
  | S n => At volume_list ivol :: entries_from n (ivol + 1) volume_list
  end.

(** The entries of a volume list below [GetEntries()], in order. *)
Definition listed (volume_list : TObjArray) : list (option TGeoVolume) :=
  entries_from (Z.to_nat (GetEntries volume_list)) 0 volume_list.

(** The codes an entry of the volume list adds, and the warning it
    costs. *)
Definition entry_codes `{!PDGUtils} (o : option TGeoVolume) : list Z :=
  default [] (o ≫= volume_codes).

Definition entry_warning (o : option TGeoVolume) : list Message :=
  match o with Some _ => [] | None => [null_volume_msg] end.

(** The pERROR lines of a run. *)
Definition error_lines (ms : list Message) : list string :=
  ms ≫= fun m => match m with MsgText pERROR t => [t] | _ => [] end.

(** [v'] is [v] moved by [t] along [p]. *)
Definition shifted `{!FloatOps} (p : TLorentzVector) (t : Q)
    (v v' : TVector3) : Prop :=
  fX v' == fX v + t * (Px p / P p)
  /\ fY v' == fY v + t * (Py p / P p)
  /\ fZ v' == fZ v + t * (Pz p / P p).

Definition Qsum (qs : list Q) : Q := foldr Qplus 0 qs.

(** The steps of a list of segments (code, step, density). *)
Definition segment_steps (segs : list (Z * Q * Q)) : list Q :=
  (fun seg => snd (fst seg)) <$> segs.

(** The length a list of segments (code, step, density) gives the code
    [k]: each step times the density of its material, or times 1. *)
Fixpoint weighted_length (weighted : bool) (k : Z)
    (segs : list (Z * Q * Q)) : Q :=
  match segs with
  | [] => 0
  | (k', s, rho) :: segs =>
      if (k' =? k)%Z
      then s * (if weighted then rho else 1) + weighted_length weighted k segs
      else weighted_length weighted k segs
  end.

(** [pl'] holds the keys of [pl], each grown by the length the segments
    give its code. *)
Definition accumulates (weighted : bool) (pl pl' : gmap Z Q)
    (segs : list (Z * Q * Q)) : Prop :=
  forall k,
    match pl !! k, pl' !! k with
    | Some v, Some v' => v' == v + weighted_length weighted k segs
    | None, None => True
    | _, _ => False
    end.

Section WalkReference.

Context {G : Type} `{!TGeoManager G} `{!FloatOps} `{!PDGUtils}.

(** The steps of [n] boundary searches in a row, each from where the one
    before left the navigator. *)
Fixpoint boundary_steps (fuel n : nat) (g : G) : outcome (G * list Q) :=
  match n with
  | O => Done (g, [])
  | S n =>
      let* (g, s) := next_boundary fuel g in
      let* (g, ss) := boundary_steps fuel n g in
      Done (g, s :: ss)
  end.

(** The navigator placed at the point of [l]. *)
Definition positioned (l : Locals) (g : G) : G :=
  FindNode (TVector3_xyz (r l)) (SetCurrentPoint (TVector3_xyz (r l)) g).

(** The material of the current node, if volume, medium and material are
    there. *)
Definition material_here (g : G) : option TGeoMaterial :=
  v ← GetCurrentVolume g; med ← GetMedium v; GetMaterial med.

Definition material_codes (mat : TGeoMaterial) : list Z :=
  if IsMixture mat then GetTargetPdgCode_element <$> GetElements mat
  else [GetTargetPdgCode mat].

(** The segments a ray traverses in the trip that starts from [l] and [g],
    read off the navigator: code, step, density of the material.  There
    are none where the navigator is outside or has no material; in a
    material there is one for each code, its step the answer of one more
    boundary search. *)
Definition material_segments (fuel : nat) (g : G) (mat : TGeoMaterial)
  : list (Z * Q * Q) :=
  match boundary_steps fuel (length (material_codes mat)) g with
  | Done (_, ss) =>
      zip_with (fun k s => (k, s, GetDensity mat)) (material_codes mat) ss
  | _ => []
  end.

Definition cpl_segments (fuel : nat) (l : Locals) (g : G)
  : list (Z * Q * Q) :=
  let g := positioned l g in
  if IsOutside g then []
  else match material_here g with
       | None => []
       | Some mat => material_segments fuel g mat
       end.

(** The steps by which that trip moves on: outside, the step at which the
    navigator is entering; inside, the steps of the segments. *)
Definition cpl_trip_steps (fuel : nat) (l : Locals) (g : G) : list Q :=
  if IsOutside (positioned l g) then
    match next_boundary fuel (positioned l g) with
    | Done (_, s) => [s]
    | _ => []
    end
  else segment_steps (cpl_segments fuel l g).

(** The state of the loop of [ComputePathLengths] after [j] full trips. *)
Fixpoint cpl_state_after (inner j : nat) (a : ROOTGeomAnalyzer G)
    (p : TLorentzVector) (l : Locals) (g : G) (pl : gmap Z Q)
  : option (Locals * G * gmap Z Q) :=
  match j with
  | O => Some (l, g, pl)
  | S j =>
      if (FlagNotInYet l =? 0)%Z || condition l then
        match cpl_body inner a p l g pl with
        | Done (Continue l' g' pl', _) =>
            cpl_state_after inner j a p l' g' pl'
        | _ => None
        end
      else None
  end.

(** The segments of a walk of [ComputePathLengths], trip by trip. *)
Fixpoint cpl_trace (inner n : nat) (a : ROOTGeomAnalyzer G)
    (p : TLorentzVector) (l : Locals) (g : G) (pl : gmap Z Q)
  : list (Z * Q * Q) :=
  if (FlagNotInYet l =? 0)%Z || condition l then
    match n with
    | O => []
    | S n =>
        match cpl_body inner a p l g pl with
        | Done (Continue l' g' pl', _) =>
            cpl_segments inner l g ++ cpl_trace inner n a p l' g' pl'
        | _ => []
        end
    end
  else [].

(** The parameters along the ray of the points the walk probes: 0 for the
    first, and for each next one the steps of the trip more. *)
Fixpoint cpl_parameters (inner n : nat) (a : ROOTGeomAnalyzer G)
    (p : TLorentzVector) (t : Q) (l : Locals) (g : G) (pl : gmap Z Q)
  : list Q :=
  if (FlagNotInYet l =? 0)%Z || condition l then
    match n with
    | O => []
    | S n =>
        t :: match cpl_body inner a p l g pl with
             | Done (Continue l' g' pl', _) =>
                 cpl_parameters inner n a p
                   (t + Qsum (cpl_trip_steps inner l g)) l' g' pl'
             | _ => []
             end
    end
  else [].

(** The locals and the navigator with which the loop starts. *)
Definition cpl_start (x : TLorentzVector) : Locals :=
  mkLocals 0 true 0 (mkTVector3 (lvX x) (lvY x) (lvZ x)).

Definition ComputePathLengths_trace (fuel : nat) (a : ROOTGeomAnalyzer G)
    (g : G) (x p : TLorentzVector) (pl0 : gmap Z Q) : list (Z * Q * Q) :=
  cpl_trace fuel fuel a p (cpl_start x)
    (SetCurrentDirection (direction_of p) g)
    (PathLengthList.SetAllToZero pl0).

Definition ComputePathLengths_parameters (fuel : nat)
    (a : ROOTGeomAnalyzer G) (g : G) (x p : TLorentzVector)
    (pl0 : gmap Z Q) : list Q :=
  cpl_parameters fuel fuel a p 0 (cpl_start x)
    (SetCurrentDirection (direction_of p) g)
    (PathLengthList.SetAllToZero pl0).

End WalkReference.

(* ------------------------------------------------------------------ *)
(** ** A navigator over axis-aligned boxes

    An instance of the navigation interface, exact over the rationals, on
    which the analyzer can be run: the world is a list of boxes, the first
    box that holds a point is its node, and a point on a face belongs to the
    side the ray is about to traverse. *)

Module BoxWorld.

Record Box := mkBox { lo : TVector3; hi : TVector3; volume : TGeoVolume }.

Record Cursor := mkCursor {
  point : TVector3;
  dir : TVector3;
  node : option nat;
  cstep : Q;
  entering : bool
}.

(** [TGeoShape::Big()]: the [double] of [1.E30]. *)
Definition Big : Q := inject_Z 1000000000000000019884624838656.

Definition Qpos_bool (q : Q) : bool := Qlt_bool 0 q.
Definition Qneg_bool (q : Q) : bool := Qlt_bool q 0.

Definition within (l h x d : Q) : bool :=
  if Qpos_bool d then Qle_bool l x && Qlt_bool x h
  else if Qneg_bool d then Qlt_bool l x && Qle_bool x h
  else Qle_bool l x && Qle_bool x h.

Definition contains (b : Box) (p d : TVector3) : bool :=
  within (fX (lo b)) (fX (hi b)) (fX p) (fX d)
  && within (fY (lo b)) (fY (hi b)) (fY p) (fY d)
  && within (fZ (lo b)) (fZ (hi b)) (fZ p) (fZ d).

Fixpoint locate_from (i : nat) (world : list Box) (p d : TVector3)
  : option nat :=
  match world with
  | [] => None
  | b :: bs => if contains b p d then Some i
               else locate_from (S i) bs p d
  end.

Definition locate := locate_from 0.

Definition move (p d : TVector3) (t : Q) : TVector3 :=
  mkTVector3 (Qred (fX p + t * fX d)) (Qred (fY p + t * fY d))
             (Qred (fZ p + t * fZ d)).

(** The parameters at which the ray meets the planes of a box. *)
Definition crossings1 (l h x d : Q) : list Q :=
  if Qeq_bool d 0 then []
  else filter (fun t => Qpos_bool t = true)
              [Qred ((l - x) / d); Qred ((h - x) / d)].

Definition crossings (b : Box) (p d : TVector3) : list Q :=
  crossings1 (fX (lo b)) (fX (hi b)) (fX p) (fX d)
  ++ crossings1 (fY (lo b)) (fY (hi b)) (fY p) (fY d)
  ++ crossings1 (fZ (lo b)) (fZ (hi b)) (fZ p) (fZ d).

Definition option_nat_eqb (a b : option nat) : bool :=
  bool_decide (a = b).

(** The nearest crossing at which the node changes. *)
Definition boundary (world : list Box) (p d : TVector3) : option Q :=
  let here := locate world p d in
  foldr (fun t best =>
           if option_nat_eqb (locate world (move p d t) d) here then best
           else match best with
                | Some t' => if Qlt_bool t t' then Some t else best
                | None => Some t
                end)
        None (world ≫= fun b => crossings b p d).

(** The navigator of a world; [top] is the volume it reports outside every
    box. *)
Definition navigator (world : list Box) (top : TGeoVolume)
  : TGeoManager Cursor := {|
  SetCurrentDirection d c :=
    mkCursor (point c) d (node c) (cstep c) (entering c);
  SetCurrentPoint r c :=
    mkCursor r (dir c) (node c) (cstep c) (entering c);
  FindNode r c := mkCursor r (dir c) (locate world r (dir c)) 0 false;
  GetCurrentVolume c :=
    match node c with
    | Some i => volume <$> (world !! i)
    | None => Some top
    end;
  IsOutside c := negb (bool_decide (is_Some (node c)));
  FindNextBoundary c :=
    match boundary world (point c) (dir c) with
    | Some t => mkCursor (point c) (dir c) (node c) t true
    | None => mkCursor (point c) (dir c) (node c) Big false
    end;
  GetStep c := cstep c;
  IsEntering c := entering c;
  Step c :=
    let q := move (point c) (dir c) (cstep c) in
    mkCursor q (dir c) (locate world q (dir c)) (cstep c) (entering c)
|}.

(** Square roots, exact on the squares of rationals. *)
Definition Qsqrt (q : Q) : Q :=
  let q := Qred q in Z.sqrt (Qnum q) # Pos.sqrt (Qden q).

#[export] Instance float_ops : FloatOps :=
  {| fsqrt := Qsqrt; to_float := fun q => q |}.

(** 10LZZZAAAI *)
#[export] Instance pdg_utils : PDGUtils :=
  {| IonPdgCode A Z := (1000000000 + Z * 10000 + A * 10)%Z |}.

(** A random source that replays a list of draws, then yields 1/2. *)
#[export] Instance replay : TRandom (list Q) :=
  {| Rndm us := match us with
                | [] => (1 # 2, [])
                | u :: us => (u, us)
                end |}.

Definition start : Cursor :=
  mkCursor (mkTVector3 0 0 0) (mkTVector3 0 0 1) None 0 false.

(** Materials. *)
Definition solid (A Z rho : Q) : TGeoVolume :=
  mkTGeoVolume
    (Some (mkTGeoMedium (Some (mkTGeoMaterial A Z rho false []))))
    (mkTGeoBBox 0 0 0 (mkTVector3 0 0 0)).

Definition mixed (A Z rho : Q) (eles : list TGeoElement) : TGeoVolume :=
  mkTGeoVolume
    (Some (mkTGeoMedium (Some (mkTGeoMaterial A Z rho true eles))))
    (mkTGeoBBox 0 0 0 (mkTVector3 0 0 0)).

Definition iron : TGeoVolume := solid 56 26 8.
Definition thin_iron : TGeoVolume := solid 56 26 2.
Definition water : TGeoVolume :=
  mixed 18 10 1 [mkTGeoElement 1 1; mkTGeoElement 16 8].

Definition pdg_Fe : Z := 1000260560.
Definition pdg_H : Z := 1000010010.
Definition pdg_O : Z := 1000080160.

Definition hall (half : Q) : TGeoVolume :=
  mkTGeoVolume None (mkTGeoBBox half half half (mkTVector3 0 0 0)).

Definition slab (x0 x1 : Q) (v : TGeoVolume) : Box :=
  mkBox (mkTVector3 x0 (-100) (-100)) (mkTVector3 x1 100 100) v.

Definition analyzer (codes : list Z) (weighted : bool)
  : ROOTGeomAnalyzer Cursor :=
  mkROOTGeomAnalyzer (Some start) (Some (hall 100))
    (Some (PathLengthList.create codes))
    (Some (PathLengthList.create codes))
    (Some codes) (Some (mkTVector3 0 0 0)) 1 1 1 weighted.

Definition along_x : TLorentzVector := mkTLorentzVector 1 0 0 1.
Definition along_z : TLorentzVector := mkTLorentzVector 0 0 1 1.
Definition at_ (x y z : Q) : TLorentzVector := mkTLorentzVector x y z 0.

End BoxWorld.

(** ** The runs the statements below are checked on *)

Module Scenarios.

Import BoxWorld.

Definition cube (h : Q) (v : TGeoVolume) : Box :=
  mkBox (mkTVector3 (- h) (- h) (- h)) (mkTVector3 h h h) v.

Definition air : TGeoVolume := solid 14 7 (1 # 1000).

(** A slab of water (a mixture of two elements) in front of a slab of
    iron. *)
Definition water_then_iron : list Box :=
  [slab 0 10 water; slab 10 30 iron].

(** A cube of iron of half side 10 around the origin. *)
Definition iron_cube : list Box := [cube 10 iron].

(** Two slabs of the same nuclide with densities 8 and 2. *)
Definition two_irons : list Box :=
  [slab 0 10 iron; slab 10 20 thin_iron].

(** The distance of the far slab: 2^89 above the threshold 9.99E29 and
    below [Big]. *)
Definition far : Z := 999618970019642710283664752640.

(** A slab of iron, 2^89 thick, whose near face lies [far] away from the
    origin: faces, steps and lengths are integers a [double] holds. *)
Definition far_slab : list Box :=
  [slab (inject_Z far) (inject_Z (far + 2 ^ 89)) iron].

(** Iron, then a volume without medium, then iron again. *)
Definition iron_bare_iron : list Box :=
  [slab 0 10 iron; slab 10 20 (hall 1); slab 20 30 iron].

Definition oxygen : TGeoVolume := solid 16 8 (3 # 2).

(** A box of air around the origin, 1/256 to its faces along x, and in it
    a block of oxygen that the rays along x from the origin do not meet:
    it lies at 1/512 <= y <= 5/512. *)
Definition oxygen_off_the_ray : list Box :=
  [mkBox (mkTVector3 (- (1 # 256)) (1 # 512) (- (1 # 256)))
         (mkTVector3 (1 # 256) (5 # 512) (1 # 256)) oxygen;
   mkBox (mkTVector3 (- (1 # 256)) (- (7 # 512)) (- (1 # 256)))
         (mkTVector3 (1 # 256) (7 # 512) (1 # 256)) air].

(** An iron bar inside a hall of air of half side 10. *)
Definition bar_in_air : list Box :=
  [mkBox (mkTVector3 5 (-10) (-5)) (mkTVector3 7 10 5) iron; cube 10 air].

Definition nav (world : list Box) : TGeoManager Cursor :=
  navigator world (hall 100).

Definition run_ComputePathLengths (world : list Box) :=
  @ComputePathLengths Cursor (nav world) float_ops pdg_utils.

Definition run_GenerateVertex (world : list Box) :=
  @GenerateVertex Cursor (nav world) float_ops pdg_utils (list Q) replay.

Definition run_GenerateVertex_dist (world : list Box) :=
  @GenerateVertex_dist Cursor (nav world) float_ops pdg_utils.

Definition run_ComputeMaxPathLengthPDG (world : list Box) :=
  @ComputeMaxPathLengthPDG Cursor (nav world) float_ops pdg_utils.

Definition run_ComputeMaxPathLengthPDG_trace (world : list Box) :=
  @ComputeMaxPathLengthPDG_trace Cursor (nav world) float_ops pdg_utils.

Definition run_ComputeMaxPathLengths (world : list Box) :=
  @ComputeMaxPathLengths Cursor (nav world) float_ops pdg_utils
    (list Q) replay.

(** The analyzer as the constructor leaves it when [Load] returns early:
    nothing is allocated. *)
Definition unloaded : ROOTGeomAnalyzer Cursor :=
  Initialize (mkROOTGeomAnalyzer None None None None None None 0 0 0 false).

(** An analyzer that holds the vertex (1,2,3) of an earlier call. *)
Definition with_old_vertex : ROOTGeomAnalyzer Cursor :=
  set_fCurrVertex (Some (mkTVector3 1 2 3)) (analyzer [pdg_Fe] true).

(** The scanner of the hall of half side 10, with one surface point per
    face and [nrays] rays per point. *)
Definition scanner (nrays : Z) : ROOTGeomAnalyzer Cursor :=
  mkROOTGeomAnalyzer (Some start) (Some (hall 10))
    (Some (PathLengthList.create [pdg_Fe]))
    (Some (PathLengthList.create [pdg_Fe]))
    (Some [pdg_Fe]) (Some (mkTVector3 0 0 0)) 1 1 nrays true.

(** The first draws of the random sequence; all later draws are 1/2. *)
Definition draws : list Q := [1#2; 1#2; 1#2; 1#2; 1#2; 4#5; 2#5].

Definition record_of (o : outcome (ROOTGeomAnalyzer Cursor * ReturnSite
                                   * list Message)) (k : Z) : option Q :=
  match o with
  | Done (a, _, _) => pl ← fCurrPathLengthList a; pl !! k
  | _ => None
  end.

Definition max_record_of (o : outcome (ROOTGeomAnalyzer Cursor * list Q
                                       * list Message)) (k : Z)
  : option Q :=
  match o with
  | Done (a, _, _) => pl ← fCurrMaxPathLengthList a; pl !! k
  | _ => None
  end.

Definition vertex_of (o : outcome (ROOTGeomAnalyzer Cursor * list Q
                                   * list Message)) : option TVector3 :=
  match o with
  | Done (a, _, _) => fCurrVertex a
  | _ => None
  end.

Definition messages_of {A} (o : outcome (A * list Message))
  : list Message :=
  match o with Done (_, m) => m | _ => [] end.

End Scenarios.

(** ** More instances to run on *)

Module Sites.

Import BoxWorld Scenarios.

(** An endless block of iron in which every boundary search answers a
    step of 1: the cursor is the current point. *)
Definition endless : TGeoManager TVector3 := {|
  SetCurrentDirection d c := c;
  SetCurrentPoint r c := r;
  FindNode r c := r;
  GetCurrentVolume c := Some iron;
  IsOutside c := false;
  FindNextBoundary c := c;
  GetStep c := 1;
  IsEntering c := true;
  Step c := c
|}.

Definition endless_analyzer : ROOTGeomAnalyzer TVector3 :=
  mkROOTGeomAnalyzer (Some (mkTVector3 0 0 0)) (Some (hall 10))
    (Some (PathLengthList.create [pdg_Fe]))
    (Some (PathLengthList.create [pdg_Fe]))
    (Some [pdg_Fe]) (Some (mkTVector3 0 0 0)) 1 1 1 true.

(** The volume list of a world. *)
Definition array_of (vols : list (option TGeoVolume)) : TObjArray :=
  mkTObjArray (Z.of_nat (length vols))
    (fun i => if (i <? 0)%Z then None else mjoin (vols !! Z.to_nat i)).

(** A catalogue over the cursors of the box world. *)
Definition catalog (vols : list (option TGeoVolume))
    (names : list (string * TGeoVolume)) (top : option TGeoVolume)
  : TGeoCatalog Cursor := {|
  GetVolume name c :=
    snd <$> List.find (fun nv => String.eqb (fst nv) name) names;
  GetTopVolume c := top;
  GetListOfVolumes c := Some (array_of vols)
|}.

(** A hall filled with air: a top volume with a medium. *)
Definition air_hall : TGeoVolume :=
  mkTGeoVolume
    (Some (mkTGeoMedium (Some (mkTGeoMaterial 14 7 (1 # 1000) false []))))
    (mkTGeoBBox 100 100 100 (mkTVector3 0 0 0)).

Definition pdg_N : Z := 1000070140.

(** The water and iron slabs inside the hall of air, and their
    catalogue. *)
Definition site_nav : TGeoManager Cursor :=
  navigator water_then_iron air_hall.

Definition site_vols : list (option TGeoVolume) :=
  [Some air_hall; Some water; None; Some iron].

Definition site_catalog : TGeoCatalog Cursor :=
  catalog site_vols [("hall", air_hall); ("iron", iron)]%string
    (Some air_hall).

(** A world whose list holds a volume without medium. *)
Definition bare_catalog : TGeoCatalog Cursor :=
  catalog [Some iron; Some (hall 100)] [] (Some (hall 100)).

(** A file system with one geometry file. *)
Definition one_file : TSystem Cursor := {|
  AccessPathName name := negb (String.eqb name "detector.root");
  TGeoManager_Import name := Some start
|}.

(** A navigator that never has a current volume. *)
Definition nowhere : TGeoManager TVector3 := {|
  SetCurrentDirection d c := c;
  SetCurrentPoint r c := r;
  FindNode r c := r;
  GetCurrentVolume c := None;
  IsOutside c := true;
  FindNextBoundary c := c;
  GetStep c := 1;
  IsEntering c := true;
  Step c := c
|}.

(** The catalogue of the endless block of iron. *)
Definition endless_catalog : TGeoCatalog TVector3 := {|
  GetVolume name c := None;
  GetTopVolume c := Some (hall 10);
  GetListOfVolumes c := Some (array_of [Some iron])
|}.

(** A navigator that is outside everywhere: at x < 5 a boundary search
    reports that it is entering at x = 5, a face the ray only touches; from
    there on it reports [Big] and is not entering. *)
Definition touched_face : TGeoManager Cursor := {|
  SetCurrentDirection d c :=
    mkCursor (point c) d (node c) (cstep c) (entering c);
  SetCurrentPoint r c :=
    mkCursor r (dir c) (node c) (cstep c) (entering c);
  FindNode r c := mkCursor r (dir c) None 0 false;
  GetCurrentVolume c := Some (hall 100);
  IsOutside c := true;
  FindNextBoundary c :=
    if Qlt_bool (fX (point c)) 5
    then mkCursor (point c) (dir c) None (5 - fX (point c)) true
    else mkCursor (point c) (dir c) None Big false;
  GetStep c := cstep c;
  IsEntering c := entering c;
  Step c := c
|}.

(** A value of [units::meter] for the runs. *)
#[export] Instance units : Units := {| meter := 5 |}.

(** Memory before a constructor runs. *)
Definition raw : ROOTGeomAnalyzer Cursor :=
  mkROOTGeomAnalyzer None None None None None None 0 0 0 false.

End Sites.

(* ------------------------------------------------------------------ *)
(** * Facts *)

Lemma obind_Done {A B} (m : outcome A) (f : A -> outcome B) (b : B) :
  obind m f = Done b -> exists a, m = Done a /\ f a = Done b.
Proof. destruct m; simpl; intros; [eauto | discriminate | discriminate]. Qed.

Ltac done_inv H :=
  apply obind_Done in H; destruct H as (? & ? & H).

Lemma TVector3_xyz_id (v : TVector3) : TVector3_xyz v = v.
Proof. destruct v. reflexivity. Qed.

Lemma Qgt_bool_spec (a b : Q) : Qgt_bool a b = true <-> b < a.
Proof.
  unfold Qgt_bool. rewrite negb_true_iff.
  split.
  - intros E. apply Qnot_le_lt. intros L.
    apply Qle_bool_iff in L. congruence.
  - intros L. destruct (Qle_bool a b) eqn:E; [|reflexivity].
    apply Qle_bool_iff in E. exfalso. eapply Qlt_not_le; eauto.
Qed.

(** ** The record *)

Module PathLengthListFacts.

Import PathLengthList.

Lemma lookup_SetAllToZero (pl : gmap Z Q) (k : Z) :
  SetAllToZero pl !! k = (fun _ => 0) <$> pl !! k.
Proof. unfold SetAllToZero. apply lookup_fmap. Qed.

Lemma dom_SetAllToZero (pl : gmap Z Q) :
  dom (SetAllToZero pl) = dom pl.
Proof. unfold SetAllToZero. apply dom_fmap_L. Qed.

Lemma SetAllToZero_dom_eq (pl pl' : gmap Z Q) :
  dom pl = dom pl' -> SetAllToZero pl = SetAllToZero pl'.
Proof.
  intros Hd. apply map_eq. intros k. rewrite !lookup_SetAllToZero.
  destruct (pl !! k) as [v|] eqn:E1, (pl' !! k) as [v'|] eqn:E2;
    simpl; try reflexivity.
  - apply not_elem_of_dom in E2. rewrite <- Hd in E2.
    exfalso. apply E2. apply elem_of_dom. eauto.
  - apply not_elem_of_dom in E1. rewrite Hd in E1.
    exfalso. apply E1. apply elem_of_dom. eauto.
Qed.

Lemma AllZero_SetAllToZero (pl : gmap Z Q) : AllZero (SetAllToZero pl).
Proof.
  intros k v. rewrite lookup_SetAllToZero.
  destruct (pl !! k); simpl; intros E; inversion E. reflexivity.
Qed.

Lemma lookup_AddPathLength (k' k : Z) (d : Q) (pl : gmap Z Q) :
  AddPathLength k' d pl !! k
  = if decide (k' = k) then (fun v => v + d) <$> pl !! k else pl !! k.
Proof.
  unfold AddPathLength. destruct (decide (k' = k)) as [->|Hne].
  - apply lookup_alter_eq.
  - by apply lookup_alter_ne.
Qed.

Lemma dom_AddPathLength (k : Z) (d : Q) (pl : gmap Z Q) :
  dom (AddPathLength k d pl) = dom pl.
Proof. unfold AddPathLength. apply dom_alter_L. Qed.

Lemma foldl_alter_lookup (f : Q -> Q) (ks : list Z) :
  forall (m : gmap Z Q) (k : Z),
    NoDup ks ->
    foldl (fun acc i => alter f i acc) m ks !! k
    = if decide (k ∈ ks) then f <$> m !! k else m !! k.
Proof.
  induction ks as [|i ks IH]; intros m k Hnd; simpl.
  - destruct (decide (k ∈ [])) as [Hin|]; [|reflexivity].
    by apply elem_of_nil in Hin.
  - apply NoDup_cons in Hnd as [Hni Hnd].
    rewrite IH by assumption.
    destruct (decide (k = i)) as [->|Hne].
    + destruct (decide (i ∈ ks)); [contradiction|].
      rewrite lookup_alter_eq.
      destruct (decide (i ∈ i :: ks)) as [|Hn]; [reflexivity|].
      exfalso. apply Hn. left.
    + rewrite lookup_alter_ne by congruence.
      destruct (decide (k ∈ ks)), (decide (k ∈ i :: ks)) as [Hin|Hn];
        try reflexivity.
      * exfalso. apply Hn. by right.
      * apply elem_of_cons in Hin as [?|?]; contradiction.
Qed.

End PathLengthListFacts.

(** ** ComputePathLengths: the record and the flag *)

Section PathLengthFacts.

Context {G : Type} {TG : TGeoManager G} {FO : FloatOps} {PU : PDGUtils}.

Import PathLengthList PathLengthListFacts.

Lemma lookup_ScalePathLengths (a : ROOTGeomAnalyzer G) (pl : gmap Z Q)
    (k : Z) :
  ScalePathLengths a pl !! k = (fun v => v * fScale a) <$> pl !! k.
Proof.
  unfold ScalePathLengths, ScalePathLength.
  rewrite foldl_alter_lookup by apply NoDup_fst_map_to_list.
  destruct (decide (k ∈ (map_to_list pl).*1)) as [|Hn]; [reflexivity|].
  destruct (pl !! k) as [v|] eqn:E; [|reflexivity].
  exfalso. apply Hn. apply list_elem_of_fmap.
  exists (k, v). split; [reflexivity|]. by apply elem_of_map_to_list.
Qed.

Lemma dom_ScalePathLengths (a : ROOTGeomAnalyzer G) (pl : gmap Z Q) :
  dom (ScalePathLengths a pl) = dom pl.
Proof.
  apply set_eq. intros k. rewrite !elem_of_dom, lookup_ScalePathLengths.
  destruct (pl !! k); simpl; split; intros [? E]; eauto; discriminate.
Qed.

Lemma cpl_elements_flag fuel (a : ROOTGeomAnalyzer G) p mat eles :
  forall l g pl l' g' pl' m,
    cpl_elements fuel a p mat eles l g pl = Done (l', g', pl', m) ->
    FlagNotInYet l' = FlagNotInYet l /\ condition l' = condition l.
Proof.
  induction eles as [|ele eles IH]; intros l g pl l' g' pl' m H; simpl in H.
  - inversion H; subst. auto.
  - done_inv H. destruct x as [g1 s].
    destruct (advance 0 1 2 s p (r l)) as [r' mr].
    done_inv H. destruct x as [[[l2 g2] pl2] m2].
    inversion H; subst. apply IH in H1. simpl in H1. exact H1.
Qed.

Lemma cpl_elements_dom fuel (a : ROOTGeomAnalyzer G) p mat eles :
  forall l g pl l' g' pl' m,
    cpl_elements fuel a p mat eles l g pl = Done (l', g', pl', m) ->
    dom pl' = dom pl.
Proof.
  induction eles as [|ele eles IH]; intros l g pl l' g' pl' m H; simpl in H.
  - inversion H; subst. auto.
  - done_inv H. destruct x as [g1 s].
    destruct (advance 0 1 2 s p (r l)) as [r' mr].
    done_inv H. destruct x as [[[l2 g2] pl2] m2].
    inversion H; subst. apply IH in H1. rewrite H1.
    apply dom_AddPathLength.
Qed.

(** What [cpl_inside] does to the flag and to the record. *)
Lemma cpl_inside_cases fuel (a : ROOTGeomAnalyzer G) p vol l g pl
    l' g' pl' m :
  cpl_inside fuel a p vol l g pl = Done (l', g', pl', m) ->
  dom pl' = dom pl
  /\ ((condition l = false /\ l' = l /\ g' = g /\ pl' = pl /\ m = [])
      \/ (condition l = true /\ FlagNotInYet l' <> 0%Z)).
Proof.
  unfold cpl_inside. intros H.
  set (l1 := if (FlagNotInYet l =? 0)%Z
             then mkLocals 1 (condition l) (step l) (r l) else l) in *.
  assert (Hl1 : FlagNotInYet l1 <> 0%Z).
  { subst l1. destruct (FlagNotInYet l =? 0)%Z eqn:E; simpl; [lia|].
    by apply Z.eqb_neq in E. }
  clearbody l1.
  destruct (condition l) eqn:Hc.
  2:{ inversion H; subst. split; [reflexivity|]. left. auto. }
  done_inv H. destruct (GetMedium x) as [med|].
  2:{ inversion H; subst. split; [reflexivity|]. right. simpl. auto. }
  destruct (GetMaterial med) as [mat|].
  2:{ inversion H; subst. split; [reflexivity|]. right. simpl. auto. }
  destruct (IsMixture mat).
  - split.
    + eapply cpl_elements_dom; eauto.
    + right. apply cpl_elements_flag in H as [-> _]. auto.
  - done_inv H. destruct x0 as [g1 s].
    destruct (advance 0 1 2 s p (r l1)) as [r' mr].
    inversion H; subst. split; [apply dom_AddPathLength|].
    right. simpl. auto.
Qed.

Lemma cpl_body_dom fuel (a : ROOTGeomAnalyzer G) p l g pl fl m :
  cpl_body fuel a p l g pl = Done (fl, m) ->
  match fl with
  | Continue _ _ pl' | Break _ _ pl' | Return _ pl' => dom pl' = dom pl
  end.
Proof.
  unfold cpl_body. intros H.
  apply obind_Done in H as (v0 & Hvol & H).
  repeat match type of H with
  | context [if ?c then _ else _] => destruct c eqn:?
  end.
  - inversion H; subst. reflexivity.
  - done_inv H. destruct x as [sk ms]. destruct sk as [g1 s|g1].
    + match type of H with
      | context [advance ?a ?b ?c ?d ?e ?f] =>
          destruct (advance a b c d e f) as [r' mr]
      end.
      done_inv H. destruct x as [[[l2 g2] pl2] mi].
      inversion H; subst. eapply cpl_inside_cases; eauto.
    + inversion H; subst. reflexivity.
  - done_inv H. destruct x as [[[l2 g2] pl2] mi].
    inversion H; subst. eapply cpl_inside_cases; eauto.
Qed.

(** A pass that starts before the ray has entered either returns through
    [WillNeverEnter], or goes on with the record untouched and the flag
    still down, or goes on with the flag up. *)
Lemma cpl_body_flag_down fuel (a : ROOTGeomAnalyzer G) p l g pl fl m :
  FlagNotInYet l = 0%Z ->
  cpl_body fuel a p l g pl = Done (fl, m) ->
  (exists g', fl = Return g' pl)
  \/ (exists l' g', fl = Continue l' g' pl /\ FlagNotInYet l' = 0%Z)
  \/ (exists l' g' pl', fl = Continue l' g' pl' /\ FlagNotInYet l' <> 0%Z).
Proof.
  unfold cpl_body. intros Hf H.
  cbn [FlagNotInYet condition step r] in H.
  apply obind_Done in H as (v0 & Hvol & H).
  rewrite Hf in H. cbn [Z.eqb negb] in H.
  match type of H with
  | context [if ?c then _ else _] => destruct c eqn:?
  end.
  - done_inv H. destruct x as [sk ms]. destruct sk as [g1 s|g1].
    + match type of H with
      | context [advance ?a ?b ?c ?d ?e ?f] =>
          destruct (advance a b c d e f) as [r' mr]
      end.
      done_inv H. destruct x as [[[l2 g2] pl2] mi].
      inversion H; subst.
      apply cpl_inside_cases in H1 as [_ [(_ & -> & -> & -> & _)|[Hc _]]].
      * right. left. eauto.
      * simpl in Hc. discriminate.
    + inversion H; subst. left. eauto.
  - done_inv H. destruct x as [[[l2 g2] pl2] mi].
    inversion H; subst.
    apply cpl_inside_cases in H0 as [_ [(Hc & _)|[_ Hn]]].
    + simpl in Hc. discriminate.
    + right. right. eauto.
Qed.

(** A pass that starts after the ray has entered never returns through
    [WillNeverEnter]. *)
Lemma cpl_body_flag_up fuel (a : ROOTGeomAnalyzer G) p l g pl fl m :
  FlagNotInYet l <> 0%Z ->
  cpl_body fuel a p l g pl = Done (fl, m) ->
  (exists l' g' pl', fl = Break l' g' pl')
  \/ (exists l' g' pl', fl = Continue l' g' pl' /\ FlagNotInYet l' <> 0%Z).
Proof.
  unfold cpl_body. intros Hf H.
  cbn [FlagNotInYet condition step r] in H.
  apply obind_Done in H as (v0 & Hvol & H).
  apply Z.eqb_neq in Hf. rewrite Hf in H. cbn [negb] in H.
  match type of H with
  | context [if ?c then _ else _] => destruct c eqn:?
  end.
  - inversion H; subst. left. eauto.
  - done_inv H. destruct x as [[[l2 g2] pl2] mi].
    inversion H; subst.
    apply cpl_inside_cases in H0 as [_ [(Hc & _)|[_ Hn]]].
    + simpl in Hc. discriminate.
    + right. eauto.
Qed.

Lemma cpl_while_flag_up inner fuel (a : ROOTGeomAnalyzer G) p :
  forall l g pl e m,
    FlagNotInYet l <> 0%Z ->
    cpl_while inner fuel a p l g pl = Done (e, m) ->
    exists g' pl', e = LoopEnd g' pl'.
Proof.
  induction fuel as [|n IH]; intros l g pl e m Hf H; simpl in H.
  - destruct ((FlagNotInYet l =? 0)%Z || condition l); [discriminate|].
    inversion H; subst. eauto.
  - destruct ((FlagNotInYet l =? 0)%Z || condition l).
    2:{ inversion H; subst. eauto. }
    done_inv H. destruct x as [fl m1].
    apply cpl_body_flag_up in H0 as [(l' & g' & pl' & ->)
                                    |(l' & g' & pl' & -> & Hn)]; auto.
    + inversion H; subst. eauto.
    + done_inv H. destruct x as [e' m']. inversion H; subst.
      eapply IH; eauto.
Qed.

(** The record a walk returns through [WillNeverEnter] is the record the
    walk started with. *)
Lemma cpl_while_returns_untouched inner fuel (a : ROOTGeomAnalyzer G) p :
  forall l g pl g' pl' m,
    cpl_while inner fuel a p l g pl = Done (LoopReturn g' pl', m) ->
    pl' = pl.
Proof.
  induction fuel as [|n IH]; intros l g pl g' pl' m H; simpl in H.
  - destruct ((FlagNotInYet l =? 0)%Z || condition l); discriminate.
  - destruct ((FlagNotInYet l =? 0)%Z || condition l); [|discriminate].
    done_inv H. destruct x as [fl m1].
    destruct (Z.eq_dec (FlagNotInYet l) 0%Z) as [Hz|Hnz].
    + apply cpl_body_flag_down in H0
        as [(g1 & ->)|[(l1 & g1 & -> & Hz1)|(l1 & g1 & pl1 & -> & Hn1)]];
        auto.
      * inversion H; subst. reflexivity.
      * done_inv H. destruct x as [e' m']. inversion H; subst.
        eapply IH; eauto.
      * done_inv H. destruct x as [e' m']. inversion H; subst.
        apply cpl_while_flag_up in H0 as (? & ? & ?); auto. discriminate.
    + apply cpl_body_flag_up in H0 as [(l' & g1 & pl1 & ->)
                                      |(l' & g1 & pl1 & -> & Hn)]; auto.
      * inversion H.
      * done_inv H. destruct x as [e' m']. inversion H; subst.
        apply cpl_while_flag_up in H0 as (? & ? & ?); auto. discriminate.
Qed.

Lemma cpl_while_dom inner fuel (a : ROOTGeomAnalyzer G) p :
  forall l g pl e m,
    cpl_while inner fuel a p l g pl = Done (e, m) ->
    match e with LoopEnd _ pl' | LoopReturn _ pl' => dom pl' = dom pl end.
Proof.
  induction fuel as [|n IH]; intros l g pl e m H; simpl in H.
  - destruct ((FlagNotInYet l =? 0)%Z || condition l); [discriminate|].
    inversion H; subst. reflexivity.
  - destruct ((FlagNotInYet l =? 0)%Z || condition l).
    2:{ inversion H; subst. reflexivity. }
    done_inv H. destruct x as [fl m1].
    apply cpl_body_dom in H0.
    destruct fl as [l1 g1 pl1|l1 g1 pl1|g1 pl1].
    + done_inv H. destruct x as [e' m']. inversion H; subst.
      apply IH in H1. destruct e; congruence.
    + inversion H; subst. assumption.
    + inversion H; subst. assumption.
Qed.

Lemma WillNeverEnter_spec (s : Q) :
  WillNeverEnter s = true <-> max_step_threshold < s.
Proof. unfold WillNeverEnter. apply Qgt_bool_spec. Qed.

(** The threshold is a [double], and the nearest one to 999 x 10^27: it
    is less than half the spacing 2^47 away. *)
Lemma max_step_threshold_is_the_double :
  max_step_threshold = inject_Z 999000000000000020146215190528
  /\ double_integer 999000000000000020146215190528 = true
  /\ (Z.abs (999000000000000020146215190528 - 999 * 10 ^ 27) < 2 ^ 46)%Z
  /\ (2 ^ 99 <= 999000000000000020146215190528 < 2 ^ 100)%Z.
Proof. vm_compute. repeat split; reflexivity || discriminate. Qed.

Lemma WillNeverEnter_false (s : Q) :
  s <= max_step_threshold -> WillNeverEnter s = false.
Proof.
  intros Hle. destruct (WillNeverEnter s) eqn:E; [|reflexivity].
  apply WillNeverEnter_spec in E. exfalso. eapply Qlt_not_le; eauto.
Qed.

Lemma cpl_seek_entry_S (n : nat) (g : G) (s : Q) :
  cpl_seek_entry (S n) g s
  = if IsEntering g then Done (SeekEntering g s, [])
    else if WillNeverEnter (GetStep (Step g)) then
           Done (SeekNeverEnters (Step g),
                 [MsgStepping (GetStep (Step g));
                  MsgText pINFO
                    "This trajectory isn't entering the detector"])
         else
           let* (sk, m) := cpl_seek_entry n (Step g) (GetStep (Step g)) in
           Done (sk, MsgStepping (GetStep (Step g)) :: m).
Proof. reflexivity. Qed.

(** The stepping loop of the outside branch stops at the first step above
    the threshold. *)
Lemma cpl_seek_entry_sentinel (k : nat) :
  forall (n : nat) (g : G) (s : Q),
    (forall i, (i <= k)%nat -> IsEntering (Nat.iter i Step g) = false) ->
    (forall i, (1 <= i <= k)%nat ->
               GetStep (Nat.iter i Step g) <= max_step_threshold) ->
    max_step_threshold < GetStep (Nat.iter (S k) Step g) ->
    exists m,
      cpl_seek_entry (S k + n) g s
      = Done (SeekNeverEnters (Nat.iter (S k) Step g), m).
Proof.
  induction k as [|k IH]; intros n g s Hent Hle Hgt.
  - pose proof (Hent 0%nat ltac:(lia)) as He0.
    apply WillNeverEnter_spec in Hgt. cbn [Nat.iter Nat.add nat_rect] in *.
    rewrite cpl_seek_entry_S, He0, Hgt. eauto.
  - pose proof (Hent 0%nat ltac:(lia)) as He0.
    pose proof (WillNeverEnter_false _ (Hle 1%nat ltac:(lia))) as Hw.
    cbn [Nat.iter nat_rect] in He0, Hw.
    cbn [Nat.add]. rewrite cpl_seek_entry_S, He0, Hw.
    destruct (IH n (Step g) (GetStep (Step g))) as [m Hm].
    + intros i Hi. rewrite <- Nat.iter_succ_r. apply Hent. lia.
    + intros i Hi. rewrite <- Nat.iter_succ_r. apply Hle. lia.
    + rewrite <- Nat.iter_succ_r. exact Hgt.
    + cbn [Nat.add] in Hm. rewrite Hm. cbn [obind].
      rewrite <- Nat.iter_succ_r. eauto.
Qed.

Lemma deref_Done {A} (ptr : option A) (v : A) :
  deref ptr = Done v -> ptr = Some v.
Proof. destruct ptr; simpl; intros E; inversion E; reflexivity. Qed.

(** Whatever a call returns through [WillNeverEnter] is the zeroed
    record: that exit is only reachable before the ray has entered, and
    nothing is accumulated before. *)
Lemma ComputePathLengths_never_enters_zero fuel (a : ROOTGeomAnalyzer G)
    x p a' m :
  ComputePathLengths fuel a x p = Done (a', ReturnNeverEnters, m) ->
  exists pl0,
    fCurrPathLengthList a = Some pl0
    /\ fCurrPathLengthList a' = Some (SetAllToZero pl0)
    /\ AllZero (SetAllToZero pl0).
Proof.
  unfold ComputePathLengths. intros H.
  done_inv H. apply deref_Done in H0.
  done_inv H. apply deref_Done in H1.
  done_inv H. destruct x2 as [e m'].
  destruct e as [g1 pl1|g1 pl1]; inversion H; subst.
  apply cpl_while_returns_untouched in H2. subst pl1.
  exists x0. repeat split; auto using AllZero_SetAllToZero.
Qed.

(** *** Nothing is attributed before the ray has entered *)

Lemma segments_app (m1 m2 : list Message) :
  segments (m1 ++ m2) = segments m1 ++ segments m2.
Proof. unfold segments. apply bind_app. Qed.

Lemma bad_indices_app (m1 m2 : list Message) :
  bad_indices (m1 ++ m2) = bad_indices m1 ++ bad_indices m2.
Proof. unfold bad_indices. apply bind_app. Qed.

Lemma cpl_seek_entry_messages (fuel : nat) :
  forall (g : G) (s : Q) sk ms,
    cpl_seek_entry fuel g s = Done (sk, ms) ->
    segments ms = [] /\ bad_indices ms = [].
Proof.
  induction fuel as [|n IH]; intros g s sk ms H; simpl in H.
  - destruct (IsEntering g); [|discriminate]. inversion H. auto.
  - destruct (IsEntering g); [inversion H; auto|].
    destruct (WillNeverEnter _); [inversion H; auto|].
    apply obind_Done in H as ([sk' m'] & Hrec & H). inversion H; subst.
    apply IH in Hrec. exact Hrec.
Qed.

Lemma cpl_body_before_entry fuel (a : ROOTGeomAnalyzer G) p l g pl fl m :
  FlagNotInYet l = 0%Z ->
  cpl_body fuel a p l g pl = Done (fl, m) ->
  match fl with
  | Return _ _ => segments m = []
  | Continue l' _ _ => FlagNotInYet l' = 0%Z -> segments m = []
  | Break _ _ _ => True
  end.
Proof.
  unfold cpl_body. intros Hf H.
  cbn [FlagNotInYet condition step r] in H.
  apply obind_Done in H as (v0 & Hvol & H).
  rewrite Hf in H. cbn [Z.eqb negb] in H.
  destruct (IsOutside _ || _).
  - apply obind_Done in H as ([sk ms] & Hseek & H).
    apply cpl_seek_entry_messages in Hseek as [Hseg _].
    destruct sk as [g1 s|g1].
    + cbn in H. inversion H; subst. intros _.
      rewrite app_nil_r. exact Hseg.
    + inversion H; subst. rewrite ?app_nil_r. exact Hseg.
  - apply obind_Done in H as ([[[l2 g2] pl2] mi] & Hin & H).
    inversion H; subst.
    apply cpl_inside_cases in Hin as [_ [(Hc & _)|[_ Hn]]].
    + cbn in Hc. discriminate.
    + intros Hz. contradiction.
Qed.

Lemma cpl_while_never_segments inner fuel (a : ROOTGeomAnalyzer G) p :
  forall l g pl g' pl' m,
    cpl_while inner fuel a p l g pl = Done (LoopReturn g' pl', m) ->
    segments m = [].
Proof.
  induction fuel as [|n IH]; intros l g pl g' pl' m H; simpl in H.
  - destruct ((FlagNotInYet l =? 0)%Z || condition l); discriminate.
  - destruct ((FlagNotInYet l =? 0)%Z || condition l); [|discriminate].
    apply obind_Done in H as ([fl m1] & Hb & H).
    destruct (Z.eq_dec (FlagNotInYet l) 0%Z) as [Hz|Hnz].
    + pose proof (cpl_body_before_entry _ _ _ _ _ _ _ _ Hz Hb) as Hsil.
      apply cpl_body_flag_down in Hb
        as [(g1 & ->)|[(l1 & g1 & -> & Hz1)|(l1 & g1 & pl1 & -> & Hn1)]];
        auto.
      * inversion H; subst. exact Hsil.
      * apply obind_Done in H as ([e' m'] & Hrec & H). inversion H; subst.
        rewrite segments_app, (Hsil Hz1). cbn [app]. eapply IH; eauto.
      * apply obind_Done in H as ([e' m'] & Hrec & H). inversion H; subst.
        apply cpl_while_flag_up in Hrec as (? & ? & ?); auto. discriminate.
    + apply cpl_body_flag_up in Hb as [(l' & g1 & pl1 & ->)
                                      |(l' & g1 & pl1 & -> & Hn)]; auto.
      * inversion H.
      * apply obind_Done in H as ([e' m'] & Hrec & H). inversion H; subst.
        apply cpl_while_flag_up in Hrec as (? & ? & ?); auto. discriminate.
Qed.

(** *** The state after some trips *)

Lemma cpl_while_after inner (a : ROOTGeomAnalyzer G) p :
  forall j l g pl l' g' pl',
    cpl_state_after inner j a p l g pl = Some (l', g', pl') ->
    exists mj,
      forall n,
        cpl_while inner (j + n) a p l g pl
        = let* (e, m') := cpl_while inner n a p l' g' pl' in
          Done (e, mj ++ m').
Proof.
  induction j as [|j IH]; intros l g pl l' g' pl' H;
    cbn [cpl_state_after] in H.
  - inversion H; subst. exists []. intros n. cbn [Nat.add].
    destruct (cpl_while inner n a p l' g' pl') as [[e m']| |]; reflexivity.
  - destruct ((FlagNotInYet l =? 0)%Z || condition l) eqn:Ec;
      [|discriminate].
    destruct (cpl_body inner a p l g pl) as [[fl m1]| |] eqn:Eb;
      try discriminate.
    destruct fl as [l1 g1 pl1|l1 g1 pl1|g1 pl1]; try discriminate.
    apply IH in H as [mj Hmj]. exists (m1 ++ mj). intros n.
    cbn [Nat.add cpl_while]. rewrite Ec, Eb. cbn [obind]. rewrite Hmj.
    destruct (cpl_while inner n a p l' g' pl') as [[e m']| |];
      cbn [obind]; try reflexivity.
    by rewrite app_assoc.
Qed.

(** As long as the ray has not entered, the record is as it was. *)
Lemma cpl_state_after_flag_down inner (a : ROOTGeomAnalyzer G) p :
  forall j l g pl l' g' pl',
    cpl_state_after inner j a p l g pl = Some (l', g', pl') ->
    FlagNotInYet l' = 0%Z ->
    FlagNotInYet l = 0%Z /\ pl' = pl.
Proof.
  induction j as [|j IH]; intros l g pl l' g' pl' H Hz;
    cbn [cpl_state_after] in H.
  - inversion H; subst. auto.
  - destruct ((FlagNotInYet l =? 0)%Z || condition l); [|discriminate].
    destruct (cpl_body inner a p l g pl) as [[fl m1]| |] eqn:Eb;
      try discriminate.
    destruct fl as [l1 g1 pl1|l1 g1 pl1|g1 pl1]; try discriminate.
    destruct (IH _ _ _ _ _ _ H Hz) as [Hz1 ->].
    destruct (Z.eq_dec (FlagNotInYet l) 0%Z) as [Hzl|Hnz].
    + split; [exact Hzl|].
      apply cpl_body_flag_down in Eb
        as [(g2 & E)|[(l2 & g2 & E & _)|(l2 & g2 & pl2 & E & Hn)]];
        auto; inversion E; subst; [reflexivity | contradiction].
    + apply cpl_body_flag_up in Eb
        as [(l2 & g2 & pl2 & E)|(l2 & g2 & pl2 & E & Hn)]; auto;
        inversion E; subst. contradiction.
Qed.

(** On a navigator that is never entering, the stepping loop of the
    outside branch can only end through [WillNeverEnter]. *)
Lemma cpl_seek_entry_never_entering (fuel : nat) :
  forall (g : G) (s : Q) sk ms,
    (forall i, IsEntering (Nat.iter i Step g) = false) ->
    cpl_seek_entry fuel g s = Done (sk, ms) ->
    exists g', sk = SeekNeverEnters g'.
Proof.
  induction fuel as [|n IH]; intros g s sk ms Hent H;
    pose proof (Hent 0%nat) as He0; cbn [Nat.iter nat_rect] in He0.
  - cbn [cpl_seek_entry] in H. rewrite He0 in H. discriminate.
  - rewrite cpl_seek_entry_S, He0 in H.
    destruct (WillNeverEnter _); [inversion H; eauto|].
    apply obind_Done in H as ([sk' m'] & Hrec & H). inversion H; subst.
    eapply IH; [|exact Hrec]. intros i.
    specialize (Hent (S i)). rewrite Nat.iter_succ_r in Hent. exact Hent.
Qed.

(** C6 (as amended).  At whatever trip of the loop, the ray not having
    entered yet and the navigator being outside (and reporting some
    volume there): when, in the stepping loop that seeks entry, the
    navigator is not entering for [k] calls of [Step] whose steps are at
    most the double 9.99E29, and the step after the next [Step] is
    strictly greater, [ComputePathLengths] returns at once through the
    [WillNeverEnter] return, and the record accumulated so far, which it
    hands back, is the zeroed record, not rescaled.  In particular, on a
    ray along which the navigator is outside and never entering, every
    return of [ComputePathLengths] is that return (the record is all zero
    and no segment has been attributed), and, the navigator reporting
    some volume at the start, the call does return as soon as the
    navigator reports such a step. *)
Theorem ComputePathLengths_never_enters (a : ROOTGeomAnalyzer G)
    (x p : TLorentzVector) (g : G) (pl0 : gmap Z Q) :
  fGeometry a = Some g ->
  fCurrPathLengthList a = Some pl0 ->
  let gd := SetCurrentDirection (direction_of p) g in
  (forall (fuel j k : nat) (l : Locals) (gj : G) (plj : gmap Z Q),
      cpl_state_after fuel j a p (cpl_start x) gd (SetAllToZero pl0)
      = Some (l, gj, plj) ->
      FlagNotInYet l = 0%Z ->
      let g1 := FindNextBoundary (positioned l gj) in
      is_Some (GetCurrentVolume (positioned l gj)) ->
      IsOutside (positioned l gj) = true ->
      (forall i, (i <= k)%nat -> IsEntering (Nat.iter i Step g1) = false) ->
      (forall i, (1 <= i <= k)%nat ->
                 GetStep (Nat.iter i Step g1) <= max_step_threshold) ->
      max_step_threshold < GetStep (Nat.iter (S k) Step g1) ->
      (j < fuel)%nat ->
      (S k <= fuel)%nat ->
      exists a' m,
        ComputePathLengths fuel a x p = Done (a', ReturnNeverEnters, m)
        /\ plj = SetAllToZero pl0
        /\ fCurrPathLengthList a' = Some (SetAllToZero pl0)
        /\ AllZero (SetAllToZero pl0)
        /\ fGeometry a' = Some (Nat.iter (S k) Step g1))
  /\ (let g1 := FindNextBoundary (positioned (cpl_start x) gd) in
      IsOutside (positioned (cpl_start x) gd) = true ->
      (forall i, IsEntering (Nat.iter i Step g1) = false) ->
      (forall fuel a' site m,
          ComputePathLengths fuel a x p = Done (a', site, m) ->
          site = ReturnNeverEnters
          /\ fCurrPathLengthList a' = Some (SetAllToZero pl0)
          /\ AllZero (SetAllToZero pl0)
          /\ segments m = [])
      /\ (forall fuel k,
            is_Some (GetCurrentVolume (positioned (cpl_start x) gd)) ->
            (forall i, (1 <= i <= k)%nat ->
                       GetStep (Nat.iter i Step g1) <= max_step_threshold) ->
            max_step_threshold < GetStep (Nat.iter (S k) Step g1) ->
            (S k <= fuel)%nat ->
            exists a' m,
              ComputePathLengths fuel a x p
              = Done (a', ReturnNeverEnters, m)
              /\ fCurrPathLengthList a' = Some (SetAllToZero pl0))).
Proof.
  intros Hg Hpl gd.
  assert (HA : forall (fuel j k : nat) (l : Locals) (gj : G)
                      (plj : gmap Z Q),
             cpl_state_after fuel j a p (cpl_start x) gd (SetAllToZero pl0)
             = Some (l, gj, plj) ->
             FlagNotInYet l = 0%Z ->
             let g1 := FindNextBoundary (positioned l gj) in
             is_Some (GetCurrentVolume (positioned l gj)) ->
             IsOutside (positioned l gj) = true ->
             (forall i, (i <= k)%nat ->
                        IsEntering (Nat.iter i Step g1) = false) ->
             (forall i, (1 <= i <= k)%nat ->
                        GetStep (Nat.iter i Step g1) <= max_step_threshold) ->
             max_step_threshold < GetStep (Nat.iter (S k) Step g1) ->
             (j < fuel)%nat ->
             (S k <= fuel)%nat ->
             exists a' m,
               ComputePathLengths fuel a x p
               = Done (a', ReturnNeverEnters, m)
               /\ plj = SetAllToZero pl0
               /\ fCurrPathLengthList a' = Some (SetAllToZero pl0)
               /\ AllZero (SetAllToZero pl0)
               /\ fGeometry a' = Some (Nat.iter (S k) Step g1)).
  { intros fuel j k l gj plj Hafter Hz g1 [v0 Hvol] Hout Hent Hle Hgt Hj Hk.
    destruct (cpl_state_after_flag_down _ _ _ _ _ _ _ _ _ _ Hafter Hz)
      as [_ ->].
    destruct (cpl_while_after _ _ _ _ _ _ _ _ _ _ Hafter) as [mj Hmj].
    destruct (cpl_seek_entry_sentinel k (fuel - S k) g1 (GetStep g1)
                Hent Hle Hgt) as [ms Hseek].
    replace (S k + (fuel - S k))%nat with fuel in Hseek by lia.
    unfold ComputePathLengths. rewrite Hpl, Hg. cbn [deref obind].
    fold gd. fold (cpl_start x).
    specialize (Hmj (S (fuel - S j))).
    replace (j + S (fuel - S j))%nat with fuel in Hmj by lia.
    rewrite Hmj.
    cbn [cpl_while]. rewrite Hz. cbn [Z.eqb orb].
    unfold cpl_body. cbn [FlagNotInYet condition step r].
    fold (positioned l gj). rewrite Hvol. cbn [deref obind].
    rewrite Hout, Hz. cbn [orb Z.eqb negb].
    fold g1. rewrite Hseek. cbn [obind].
    eexists _, _. split; [reflexivity|].
    repeat split; auto using AllZero_SetAllToZero. }
  split; [exact HA|].
  intros g1 Hout Hent. split.
  - intros fuel a' site m H.
    unfold ComputePathLengths in H. rewrite Hpl, Hg in H.
    cbn [deref obind] in H. fold gd in H. fold (cpl_start x) in H.
    apply obind_Done in H as ([e m'] & Hrun & H).
    assert (Hret : exists g', e = LoopReturn g' (SetAllToZero pl0)).
    { destruct fuel as [|n]; [discriminate|].
      cbn [cpl_while cpl_start FlagNotInYet condition Z.eqb orb] in Hrun.
      apply obind_Done in Hrun as ([fl m1] & Hb & Hrun).
      unfold cpl_body in Hb. cbn [FlagNotInYet condition step r] in Hb.
      fold (cpl_start x) in Hb.
      change (FindNode (TVector3_xyz (r (cpl_start x)))
                (SetCurrentPoint (TVector3_xyz (r (cpl_start x))) gd))
        with (positioned (cpl_start x) gd) in Hb.
      apply obind_Done in Hb as (v0 & _ & Hb).
      rewrite Hout in Hb. cbn [orb Z.eqb negb] in Hb.
      apply obind_Done in Hb as ([sk ms] & Hseek & Hb).
      apply cpl_seek_entry_never_entering in Hseek as [g' ->];
        [|exact Hent].
      inversion Hb; subst. inversion Hrun; subst. eauto. }
    destruct Hret as [g' ->].
    apply cpl_while_never_segments in Hrun.
    inversion H; subst.
    repeat split; auto using AllZero_SetAllToZero.
  - intros fuel k Hvol Hle Hgt Hk.
    destruct (HA fuel 0%nat k (cpl_start x) gd (SetAllToZero pl0)
                eq_refl eq_refl Hvol Hout (fun i _ => Hent i) Hle Hgt
                ltac:(lia) Hk)
      as (a' & m & Hrun & _ & Hrec & _).
    eauto.
Qed.

(** *** A mixture *)

(** On a navigator that answers the same step [s] again when asked again
    (it has not been moved), the loop over the elements of a mixture
    advances the position once per element. *)
Lemma cpl_elements_advances fuel (a : ROOTGeomAnalyzer G) p mat
    (g : G) (s : Q) :
  next_boundary fuel g = Done (g, s) ->
  forall eles l pl,
    exists l' pl' m,
      cpl_elements fuel a p mat eles l g pl = Done (l', g, pl', m)
      /\ r l' = Nat.iter (length eles)
                  (fun v => fst (advance 0 1 2 s p v)) (r l).
Proof.
  intros Hsteady. induction eles as [|ele eles IH]; intros l pl.
  - eexists _, _, _. split; reflexivity.
  - cbn [cpl_elements]. rewrite Hsteady. cbn [obind].
    destruct (advance 0 1 2 s p (r l)) as [r' mr] eqn:Eadv.
    match goal with
    | |- context [cpl_elements fuel a p mat eles ?l1 g ?pl1] =>
        destruct (IH l1 pl1) as (l' & pl' & m & Hrun & Hr)
    end.
    rewrite Hrun. cbn [obind]. eexists _, _, _. split; [reflexivity|].
    rewrite Hr. cbn [r length]. rewrite Nat.iter_succ_r, Eadv. reflexivity.
Qed.

(** *** Two calls in a row *)

(** The walk reads the analyzer only through the weighting mode. *)
Lemma GetWeight_ext (a a' : ROOTGeomAnalyzer G) mat :
  fDensWeight a = fDensWeight a' -> GetWeight a mat = GetWeight a' mat.
Proof. unfold GetWeight, WeightWithDensity. intros ->. reflexivity. Qed.

Lemma cpl_elements_ext fuel (a a' : ROOTGeomAnalyzer G) p mat eles :
  fDensWeight a = fDensWeight a' ->
  forall l g pl,
    cpl_elements fuel a p mat eles l g pl
    = cpl_elements fuel a' p mat eles l g pl.
Proof.
  intros Hw. induction eles as [|ele eles IH]; intros l g pl; simpl.
  - reflexivity.
  - rewrite (GetWeight_ext a a' mat Hw).
    destruct (next_boundary fuel g) as [[g1 s]| |]; simpl; try reflexivity.
    destruct (advance 0 1 2 s p (r l)) as [r' mr].
    rewrite IH. reflexivity.
Qed.

Lemma cpl_inside_ext fuel (a a' : ROOTGeomAnalyzer G) p vol l g pl :
  fDensWeight a = fDensWeight a' ->
  cpl_inside fuel a p vol l g pl = cpl_inside fuel a' p vol l g pl.
Proof.
  intros Hw. unfold cpl_inside.
  destruct (condition l); [|reflexivity].
  destruct (deref vol) as [v| |]; simpl; try reflexivity.
  destruct (GetMedium v) as [med|]; [|reflexivity].
  destruct (GetMaterial med) as [mat|]; [|reflexivity].
  rewrite (GetWeight_ext a a' mat Hw).
  destruct (IsMixture mat); [|reflexivity].
  apply cpl_elements_ext. exact Hw.
Qed.

Lemma cpl_body_ext fuel (a a' : ROOTGeomAnalyzer G) p l g pl :
  fDensWeight a = fDensWeight a' ->
  cpl_body fuel a p l g pl = cpl_body fuel a' p l g pl.
Proof.
  intros Hw. unfold cpl_body. cbn [FlagNotInYet condition step r].
  destruct (deref _) as [v0| |]; cbn [obind]; try reflexivity.
  destruct (IsOutside _ || _).
  - destruct (negb _); [reflexivity|].
    (* past the outside branch [condition] is down: nothing is weighed *)
    destruct (cpl_seek_entry _ _ _) as [[sk ms]| |]; reflexivity.
  - rewrite (cpl_inside_ext fuel a a' p _ _ _ _ Hw). reflexivity.
Qed.

Lemma cpl_while_ext inner fuel (a a' : ROOTGeomAnalyzer G) p :
  fDensWeight a = fDensWeight a' ->
  forall l g pl,
    cpl_while inner fuel a p l g pl = cpl_while inner fuel a' p l g pl.
Proof.
  intros Hw. induction fuel as [|n IH]; intros l g pl; simpl.
  - reflexivity.
  - rewrite (cpl_body_ext inner a a' p l g pl Hw).
    destruct (_ || _); [|reflexivity].
    destruct (cpl_body inner a' p l g pl) as [[fl m]| |]; simpl;
      try reflexivity.
    destruct fl; try reflexivity. rewrite IH. reflexivity.
Qed.

(** A walk puts the navigator where its ray starts before it asks
    anything. *)
Lemma cpl_while_positioned inner fuel (a : ROOTGeomAnalyzer G) p l pl
    (d : TVector3) (g g' : G) :
  positioned_afresh ->
  FlagNotInYet l = 0%Z ->
  cpl_while inner fuel a p l (SetCurrentDirection d g) pl
  = cpl_while inner fuel a p l (SetCurrentDirection d g') pl.
Proof.
  intros Hfresh Hl. destruct fuel as [|n]; simpl; rewrite Hl; cbn [Z.eqb orb];
    [reflexivity|].
  unfold cpl_body. cbn [FlagNotInYet condition step r].
  rewrite (Hfresh g g' d (TVector3_xyz (r l))). reflexivity.
Qed.

Lemma ScalePathLengths_ext (a a' : ROOTGeomAnalyzer G) pl :
  fScale a = fScale a' -> ScalePathLengths a pl = ScalePathLengths a' pl.
Proof. unfold ScalePathLengths. intros ->. reflexivity. Qed.

(** C8.  On a navigator that is positioned afresh at the start of a walk
    (the geometry is unchanged), a second call of [ComputePathLengths]
    with the same start point and direction, made in the state the first
    call left, returns the same record (and leaves the same state): the
    call resets the record to zero before it walks. *)
Theorem ComputePathLengths_twice (fuel : nat) (a a1 : ROOTGeomAnalyzer G)
    (x p : TLorentzVector) (site : ReturnSite) (m : list Message) :
  positioned_afresh ->
  ComputePathLengths fuel a x p = Done (a1, site, m) ->
  ComputePathLengths fuel a1 x p = Done (a1, site, m)
  /\ (forall pl0 pl1,
        fCurrPathLengthList a = Some pl0 ->
        fCurrPathLengthList a1 = Some pl1 ->
        SetAllToZero pl1 = SetAllToZero pl0).
Proof.
  intros Hfresh H. pose proof H as Hcall.
  unfold ComputePathLengths in H.
  done_inv H. apply deref_Done in H0. rename x0 into pl0.
  done_inv H. apply deref_Done in H1. rename x0 into g.
  done_inv H. destruct x0 as [e m'].
  pose proof (cpl_while_dom _ _ _ _ _ _ _ _ _ H2) as Hdom.
  assert (Hrec : exists g1 pl1,
             a1 = set_fCurrPathLengthList (Some pl1)
                    (set_fGeometry (Some g1) a)
             /\ dom pl1 = dom pl0
             /\ ComputePathLengths fuel
                  (set_fCurrPathLengthList (Some pl1)
                     (set_fGeometry (Some g1) a)) x p
                = Done (a1, site, m)).
  { assert (Hz : forall pl1, dom pl1 = dom pl0 ->
              SetAllToZero pl1 = SetAllToZero pl0)
      by (intros; by apply SetAllToZero_dom_eq).
    rewrite dom_SetAllToZero in Hdom.
    destruct e as [g1 pl1|g1 pl1]; inversion H; subst.
    - exists g1, (ScalePathLengths a pl1).
      rewrite dom_ScalePathLengths. repeat split; auto.
      unfold ComputePathLengths. cbn [fCurrPathLengthList fGeometry
        set_fCurrPathLengthList set_fGeometry deref obind].
      rewrite Hz by (by rewrite dom_ScalePathLengths).
      rewrite (cpl_while_positioned _ _ _ _ _ _ _ _ g Hfresh) by reflexivity.
      rewrite <- (cpl_while_ext fuel fuel a _ p) by reflexivity.
      rewrite H2. cbn [obind]. reflexivity.
    - exists g1, pl1. repeat split; auto.
      unfold ComputePathLengths. cbn [fCurrPathLengthList fGeometry
        set_fCurrPathLengthList set_fGeometry deref obind].
      rewrite Hz by assumption.
      rewrite (cpl_while_positioned _ _ _ _ _ _ _ _ g Hfresh) by reflexivity.
      rewrite <- (cpl_while_ext fuel fuel a _ p) by reflexivity.
      rewrite H2. cbn [obind]. reflexivity. }
  destruct Hrec as (g1 & pl1 & Ha1 & Hd & Hrun).
  split.
  - rewrite Ha1 at 1. exact Hrun.
  - intros pl0' pl1' E0 E1. rewrite H0 in E0. inversion E0; subst pl0'.
    rewrite Ha1 in E1. cbn in E1. inversion E1; subst pl1'.
    by apply SetAllToZero_dom_eq.
Qed.

(** *** The record against the attributions, weighting disabled *)

Lemma weighted_length_app (b : bool) (k : Z) (s1 s2 : list (Z * Q * Q)) :
  weighted_length b k (s1 ++ s2)
  == weighted_length b k s1 + weighted_length b k s2.
Proof.
  induction s1 as [|[[k' s] rho] s1 IH]; cbn [app weighted_length].
  - ring.
  - destruct (k' =? k)%Z; rewrite IH; ring.
Qed.

Lemma accumulates_refl (b : bool) (pl : gmap Z Q) : accumulates b pl pl [].
Proof. intros k. destruct (pl !! k); cbn; [ring | exact I]. Qed.

Lemma accumulates_trans (b : bool) (pl pl1 pl2 : gmap Z Q)
    (s1 s2 : list (Z * Q * Q)) :
  accumulates b pl pl1 s1 -> accumulates b pl1 pl2 s2 ->
  accumulates b pl pl2 (s1 ++ s2).
Proof.
  intros H1 H2 k. specialize (H1 k). specialize (H2 k).
  destruct (pl !! k), (pl1 !! k), (pl2 !! k); try tauto.
  rewrite weighted_length_app, H2, H1. ring.
Qed.

Lemma accumulates_AddPathLength (a : ROOTGeomAnalyzer G) (pl : gmap Z Q)
    (k : Z) (s : Q) (mat : TGeoMaterial) :
  accumulates (fDensWeight a) pl
    (AddPathLength k (s * GetWeight a mat) pl) [(k, s, GetDensity mat)].
Proof.
  intros k'. rewrite lookup_AddPathLength. cbn [weighted_length].
  unfold GetWeight, WeightWithDensity.
  destruct (decide (k = k')) as [->|Hne].
  - rewrite Z.eqb_refl.
    destruct (pl !! k'); cbn; [destruct (fDensWeight a); ring | exact I].
  - apply Z.eqb_neq in Hne. rewrite Hne.
    destruct (pl !! k'); cbn; [ring | exact I].
Qed.

(** *** Positions *)

Lemma shifted_zero (p : TLorentzVector) (v : TVector3) : shifted p 0 v v.
Proof. unfold shifted. repeat split; ring. Qed.

Lemma shifted_trans (p : TLorentzVector) (t1 t2 : Q) (v1 v2 v3 : TVector3) :
  shifted p t1 v1 v2 -> shifted p t2 v2 v3 -> shifted p (t1 + t2) v1 v3.
Proof.
  unfold shifted. intros (Hx & Hy & Hz) (Hx' & Hy' & Hz').
  rewrite Hx', Hy', Hz', Hx, Hy, Hz. repeat split; ring.
Qed.

Lemma advance_shifted (p : TLorentzVector) (s : Q) (v : TVector3) :
  shifted p s v (fst (advance 0 1 2 s p v)).
Proof.
  unfold shifted. cbn [advance TVector3_add_at fst fX fY fZ].
  unfold Qdiv. repeat split; ring.
Qed.

Lemma shifted_on_ray (x p : TLorentzVector) (t s : Q) (v v' : TVector3) :
  on_ray x p t v -> shifted p s v v' -> on_ray x p (t + s) v'.
Proof.
  unfold on_ray, shifted. intros (Hx & Hy & Hz) (Hx' & Hy' & Hz').
  rewrite Hx', Hy', Hz', Hx, Hy, Hz. repeat split; ring.
Qed.

Lemma advance_in_range (d : Q) (p : TLorentzVector) (v : TVector3) :
  snd (advance 0 1 2 d p v) = [].
Proof. reflexivity. Qed.

Lemma positions_app (m1 m2 : list Message) :
  positions (m1 ++ m2) = positions m1 ++ positions m2.
Proof. unfold positions. apply bind_app. Qed.

(** *** A trip against the navigator *)

Lemma boundary_steps_length (fuel : nat) :
  forall n (g g' : G) ss,
    boundary_steps fuel n g = Done (g', ss) -> length ss = n.
Proof.
  induction n as [|n IH]; intros g g' ss H; cbn [boundary_steps] in H.
  - inversion H. reflexivity.
  - apply obind_Done in H as ([g1 s] & _ & H).
    apply obind_Done in H as ([g2 ss'] & Hrec & H).
    inversion H; subst. cbn. f_equal. eapply IH; eauto.
Qed.

Lemma segment_steps_zip (rho : Q) :
  forall (ks : list Z) (ss : list Q),
    length ss = length ks ->
    segment_steps (zip_with (fun k s => (k, s, rho)) ks ss) = ss.
Proof.
  unfold segment_steps.
  induction ks as [|k ks IH]; intros [|s ss] Hlen; cbn in *;
    try discriminate; try reflexivity.
  f_equal. apply IH. lia.
Qed.

Lemma cpl_seek_entry_entering (fuel : nat) :
  forall (g : G) (s : Q) g' s' m,
    cpl_seek_entry fuel g s = Done (SeekEntering g' s', m) ->
    step_while_not_entering fuel g s = Done (g', s')
    /\ positions m = [].
Proof.
  induction fuel as [|n IH]; intros g s g' s' m H; simpl in *.
  - destruct (IsEntering g); [inversion H; auto | discriminate].
  - destruct (IsEntering g); [inversion H; auto|].
    destruct (WillNeverEnter _); [discriminate|].
    apply obind_Done in H as ([sk m'] & Hrec & H). inversion H; subst.
    apply IH in Hrec. exact Hrec.
Qed.

Lemma cpl_seek_entry_positions (fuel : nat) :
  forall (g : G) (s : Q) sk ms,
    cpl_seek_entry fuel g s = Done (sk, ms) -> positions ms = [].
Proof.
  induction fuel as [|n IH]; intros g s sk ms H; simpl in H.
  - destruct (IsEntering g); [|discriminate]. inversion H. auto.
  - destruct (IsEntering g); [inversion H; auto|].
    destruct (WillNeverEnter _); [inversion H; auto|].
    apply obind_Done in H as ([sk' m'] & Hrec & H). inversion H; subst.
    apply IH in Hrec. exact Hrec.
Qed.

(** The loop over the elements of a mixture asks the navigator for one
    boundary search per element, attributes each answer to its element
    with the weight of the material, and moves on by each. *)
Lemma cpl_elements_spec fuel (a : ROOTGeomAnalyzer G) p mat :
  forall eles l g pl l' g' pl' m,
    cpl_elements fuel a p mat eles l g pl = Done (l', g', pl', m) ->
    exists ss,
      boundary_steps fuel (length eles) g = Done (g', ss)
      /\ accumulates (fDensWeight a) pl pl'
           (zip_with (fun k s => (k, s, GetDensity mat))
                     (GetTargetPdgCode_element <$> eles) ss)
      /\ shifted p (Qsum ss) (r l) (r l')
      /\ positions m = [].
Proof.
  induction eles as [|ele eles IH]; intros l g pl l' g' pl' m H;
    cbn [cpl_elements] in H.
  - inversion H; subst. exists []. cbn [length boundary_steps].
    split; [reflexivity|]. split; [apply accumulates_refl|].
    split; [apply shifted_zero | reflexivity].
  - apply obind_Done in H as ([g1 s] & Hnb & H).
    pose proof (advance_shifted p s (r l)) as Hsh.
    pose proof (advance_in_range s p (r l)) as Hmr.
    destruct (advance 0 1 2 s p (r l)) as [r' mr]. cbn [fst snd] in *.
    subst mr.
    apply obind_Done in H as ([[[l2 g2] pl2] m2] & Hrec & H).
    inversion H; subst.
    apply IH in Hrec as (ss & Hss & Hacc & Hsh2 & Hpos).
    exists (s :: ss). cbn [length boundary_steps].
    rewrite Hnb. cbn [obind]. rewrite Hss. cbn [obind].
    split; [reflexivity|]. split; [|split].
    + change (zip_with (fun k s0 => (k, s0, GetDensity mat))
                (GetTargetPdgCode_element <$> ele :: eles) (s :: ss))
        with ([(GetTargetPdgCode_element ele, s, GetDensity mat)]
              ++ zip_with (fun k s0 => (k, s0, GetDensity mat))
                   (GetTargetPdgCode_element <$> eles) ss).
      eapply accumulates_trans; [apply accumulates_AddPathLength|].
      exact Hacc.
    + cbn [r] in Hsh2. exact (shifted_trans _ _ _ _ _ _ Hsh Hsh2).
    + exact Hpos.
Qed.

(** The three [if(condition)] blocks, in a volume: what they attribute are
    the segments of the material there, read off the navigator. *)
Lemma cpl_inside_spec fuel (a : ROOTGeomAnalyzer G) p v l g pl
    l' g' pl' m :
  condition l = true ->
  cpl_inside fuel a p (Some v) l g pl = Done (l', g', pl', m) ->
  let segs := match GetMedium v ≫= GetMaterial with
              | Some mat => material_segments fuel g mat
              | None => []
              end in
  accumulates (fDensWeight a) pl pl' segs
  /\ shifted p (Qsum (segment_steps segs)) (r l) (r l')
  /\ positions m = [].
Proof.
  unfold cpl_inside. intros Hc. rewrite Hc. cbn [deref obind].
  set (l1 := if (FlagNotInYet l =? 0)%Z
             then mkLocals 1 true (step l) (r l) else l).
  assert (Hr1 : r l1 = r l) by (subst l1; destruct (_ =? _)%Z; reflexivity).
  destruct (GetMedium v) as [med|]; cbn [mbind option_bind].
  2:{ intros H. inversion H; subst. cbn [r]. rewrite Hr1.
      split; [apply accumulates_refl|].
      split; [apply shifted_zero | reflexivity]. }
  destruct (GetMaterial med) as [mat|].
  2:{ intros H. inversion H; subst. cbn [r]. rewrite Hr1.
      split; [apply accumulates_refl|].
      split; [apply shifted_zero | reflexivity]. }
  unfold material_segments, material_codes.
  destruct (IsMixture mat).
  - intros H. apply cpl_elements_spec in H as (ss & Hss & Hacc & Hsh & Hpos).
    rewrite length_fmap, Hss.
    rewrite segment_steps_zip
      by (rewrite length_fmap; eapply boundary_steps_length; eauto).
    rewrite Hr1 in Hsh. auto.
  - intros H. apply obind_Done in H as ([g1 s] & Hnb & H).
    cbn [length boundary_steps]. rewrite Hnb. cbn [obind zip_with].
    pose proof (advance_shifted p s (r l1)) as Hsh.
    pose proof (advance_in_range s p (r l1)) as Hmr.
    destruct (advance 0 1 2 s p (r l1)) as [r' mr]. cbn [fst snd] in *.
    subst mr. inversion H; subst. cbn [r].
    split; [apply accumulates_AddPathLength|].
    split; [|reflexivity].
    rewrite Hr1 in Hsh. unfold shifted in *. cbn.
    destruct Hsh as (Hx & Hy & Hz). rewrite Hx, Hy, Hz.
    repeat split; ring.
Qed.

(** One trip of the loop: the point it probes, what it attributes and by
    how much it moves on, against the navigator. *)
Lemma cpl_body_spec fuel (a : ROOTGeomAnalyzer G) p l g pl fl m :
  cpl_body fuel a p l g pl = Done (fl, m) ->
  positions m = [r l]
  /\ match fl with
     | Continue l' g' pl' =>
         accumulates (fDensWeight a) pl pl' (cpl_segments fuel l g)
         /\ shifted p (Qsum (cpl_trip_steps fuel l g)) (r l) (r l')
     | Break _ _ pl' | Return _ pl' => pl' = pl
     end.
Proof.
  unfold cpl_body, cpl_trip_steps, cpl_segments, material_here.
  cbn [FlagNotInYet condition step r].
  fold (positioned l g). intros H.
  apply obind_Done in H as (v0 & Hvol & H). apply deref_Done in Hvol.
  rewrite Hvol in *.
  rewrite bool_decide_eq_true_2 in H by eauto.
  cbn [negb] in H. rewrite orb_false_r in H.
  destruct (IsOutside (positioned l g)) eqn:Hout.
  - destruct (negb (FlagNotInYet l =? 0)%Z).
    { inversion H; subst. auto. }
    apply obind_Done in H as ([sk ms] & Hseek & H).
    destruct sk as [g1 s|g1].
    + apply cpl_seek_entry_entering in Hseek as [Hstep Hms].
      unfold next_boundary. rewrite Hstep.
      pose proof (advance_shifted p s (r l)) as Hsh.
      pose proof (advance_in_range s p (r l)) as Hmr.
      destruct (advance 0 1 2 s p (r l)) as [r' mr]. cbn [fst snd] in *.
      subst mr. cbn in H. inversion H; subst. cbn [r].
      split.
      * change (positions ([MsgPosition (r l) (FlagNotInYet l)]
                           ++ ms ++ []) = [r l]).
        rewrite !positions_app, Hms. reflexivity.
      * split; [apply accumulates_refl|].
        unfold shifted in *. cbn.
        destruct Hsh as (Hx & Hy & Hz). rewrite Hx, Hy, Hz.
        repeat split; ring.
    + apply cpl_seek_entry_positions in Hseek.
      inversion H; subst. split; [|reflexivity].
      change (positions ([MsgPosition (r l) (FlagNotInYet l)] ++ ms)
              = [r l]).
      rewrite positions_app, Hseek. reflexivity.
  - apply obind_Done in H as ([[[l2 g2] pl2] mi] & Hin & H).
    apply cpl_inside_spec in Hin as (Hacc & Hsh & Hmi); [|reflexivity].
    cbn [mbind option_bind]. cbn [r] in Hsh.
    inversion H; subst. split; [|split; assumption].
    change (positions ([MsgPosition (r l) (FlagNotInYet l)] ++ mi) = [r l]).
    rewrite positions_app, Hmi. reflexivity.
Qed.


(** *** The walk does not depend on the weighting mode *)








End PathLengthFacts.

(** ** GenerateVertex and the scan *)

Section VertexAndScanFacts.

Context {G : Type} {TG : TGeoManager G} {FO : FloatOps} {PU : PDGUtils}
        {R : Type} {TR : TRandom R}.

Lemma ComputeMaxPathLengths_no_geometry (fuel : nat)
    (a : ROOTGeomAnalyzer G) (rnd : R) :
  fGeometry a = None ->
  ComputeMaxPathLengths fuel a rnd = Done (a, rnd, [no_geometry_msg]).
Proof. unfold ComputeMaxPathLengths. intros ->. reflexivity. Qed.

Lemma GenerateVertex_no_geometry (fuel : nat) (a : ROOTGeomAnalyzer G)
    (rnd : R) (x p : TLorentzVector) (tgtpdg : Z) (v : TVector3) :
  fGeometry a = None ->
  fCurrVertex a = Some v ->
  GenerateVertex fuel a rnd x p tgtpdg
  = Done (set_fCurrVertex (Some (mkTVector3 0 0 0)) a, rnd,
          [no_geometry_msg]).
Proof.
  unfold GenerateVertex. intros Hg ->. cbn [deref obind].
  cbn [fGeometry set_fCurrVertex]. rewrite Hg. reflexivity.
Qed.

Lemma ComputePathLengths_no_geometry (fuel : nat) (a : ROOTGeomAnalyzer G)
    (x p : TLorentzVector) :
  fGeometry a = None -> ComputePathLengths fuel a x p = Crash.
Proof.
  unfold ComputePathLengths. intros ->.
  destruct (fCurrPathLengthList a); reflexivity.
Qed.

(** *** What the two loops of GenerateVertex log *)

Lemma error_lines_app (m1 m2 : list Message) :
  error_lines (m1 ++ m2) = error_lines m1 ++ error_lines m2.
Proof. unfold error_lines. apply bind_app. Qed.

Lemma advance_123_error_lines (d : Q) (p : TLorentzVector) (v : TVector3) :
  error_lines (snd (advance 1 2 3 d p v)) = [].
Proof. reflexivity. Qed.

Lemma advance_012_error_lines (d : Q) (p : TLorentzVector) (v : TVector3) :
  error_lines (snd (advance 0 1 2 d p v)) = [].
Proof. reflexivity. Qed.

Lemma gv_dist_body_error_lines fuel (a : ROOTGeomAnalyzer G) p tgtpdg
    l g dist fl m :
  gv_dist_body fuel a p tgtpdg l g dist = Done (fl, m) ->
  error_lines m = [].
Proof.
  unfold gv_dist_body. cbn [FlagNotInYet condition step r]. intros H.
  apply obind_Done in H as (v0 & Hv & H). apply deref_Done in Hv.
  rewrite Hv in H.
  apply obind_Done in H as ([[[brk l1] g1] m1] & Hout & H).
  assert (Hm1 : error_lines m1 = []).
  { destruct (IsOutside _ || _); [|inversion Hout; auto].
    destruct (negb _); [inversion Hout; auto|].
    apply obind_Done in Hout as ([g2 s] & _ & Hout).
    cbn [FlagNotInYet condition step r] in Hout.
    pose proof (advance_123_error_lines s p (r l)) as Hadv.
    destruct (advance 1 2 3 s p (r l)) as [r' mr]. cbn [snd] in Hadv.
    inversion Hout; subst. exact Hadv. }
  assert (H0 : forall rest,
             error_lines rest = [] ->
             error_lines ([MsgPosition (r l) (FlagNotInYet l)] ++ rest)
             = []).
  { intros rest E. rewrite error_lines_app, E. reflexivity. }
  destruct brk; [inversion H; subst; auto|].
  destruct (condition l1); [|inversion H; subst; auto].
  cbn [deref obind] in H.
  destruct (GetMedium v0) as [med|]; [|inversion H; subst; auto].
  destruct (GetMaterial med) as [mat|]; [|inversion H; subst; auto].
  apply obind_Done in H as ([g2 s] & _ & H).
  match type of H with
  | context [advance 1 2 3 s p ?v] =>
      pose proof (advance_123_error_lines s p v) as Hadv;
      destruct (advance 1 2 3 s p v) as [r' mr]
  end.
  cbn [snd] in Hadv. inversion H; subst.
  apply H0. rewrite error_lines_app, Hm1, Hadv. reflexivity.
Qed.

Lemma gv_dist_while_error_lines inner fuel (a : ROOTGeomAnalyzer G) p
    tgtpdg :
  forall l g dist l' g' dist' m,
    gv_dist_while inner fuel a p tgtpdg l g dist = Done (l', g', dist', m) ->
    error_lines m = [].
Proof.
  induction fuel as [|n IH]; intros l g dist l' g' dist' m H; simpl in H;
    destruct ((FlagNotInYet l =? 0)%Z || condition l);
    try discriminate; try (inversion H; subst; reflexivity).
  apply obind_Done in H as ([fl m1] & Hb & H).
  apply gv_dist_body_error_lines in Hb.
  destruct fl as [[[l1 g1] d1]|[[l1 g1] d1]].
  - inversion H; subst. exact Hb.
  - apply obind_Done in H as ([[[l2 g2] d2] m2] & Hrec & H).
    inversion H; subst. apply IH in Hrec.
    rewrite error_lines_app, Hb, Hrec. reflexivity.
Qed.

Lemma gv_vtx_body_error_lines (a : ROOTGeomAnalyzer G) p tgtpdg l g d
    fl m :
  gv_vtx_body a p tgtpdg l g d = Done (fl, m) -> error_lines m = [].
Proof.
  unfold gv_vtx_body. cbn [FlagNotInYet condition step r].
  pose proof (advance_012_error_lines StepIncrease p (r l)) as Hadv.
  destruct (advance 0 1 2 StepIncrease p (r l)) as [r' mr].
  cbn [snd] in Hadv. cbn [FlagNotInYet condition step r].
  assert (H0 : error_lines ([MsgPosition (r l) (FlagNotInYet l)] ++ mr)
               = []).
  { rewrite error_lines_app, Hadv. reflexivity. }
  intros H. apply obind_Done in H as (v0 & Hv & H).
  apply deref_Done in Hv. rewrite Hv in H.
  destruct (IsOutside _ || _); cbn [FlagNotInYet condition step r andb] in H.
  - destruct (negb (FlagNotInYet l =? 0)%Z);
      cbn [FlagNotInYet condition step r] in H;
      inversion H; exact H0.
  - cbn [deref obind] in H.
    destruct (FlagNotInYet l =? 0)%Z;
      cbn [FlagNotInYet condition step r] in H;
      destruct (GetMedium v0) as [med|]; try (inversion H; exact H0);
      destruct (GetMaterial med) as [mat|]; inversion H; exact H0.
Qed.

Lemma gv_vtx_while_error_lines (a : ROOTGeomAnalyzer G) p tgtpdg dv :
  forall fuel l g d l' g' d' m,
    gv_vtx_while fuel a p tgtpdg dv l g d = Done (l', g', d', m) ->
    error_lines m = [].
Proof.
  induction fuel as [|k IH]; intros l g d l' g' d' m H; simpl in H;
    destruct (_ && _); try discriminate;
    try (inversion H; subst; reflexivity).
  apply obind_Done in H as ([fl m1] & Hb & H).
  apply gv_vtx_body_error_lines in Hb.
  destruct fl as [[[l1 g1] d1]|[[l1 g1] d1]].
  - inversion H; subst. exact Hb.
  - apply obind_Done in H as ([[[l2 g2] d2] m2] & Hrec & H).
    inversion H; subst. apply IH in Hrec.
    rewrite error_lines_app, Hb, Hrec. reflexivity.
Qed.

(** C5 (as amended).  When the total that the first loop of
    [GenerateVertex] computes (its local [dist]) is exactly zero, the call
    returns normally, the pERROR line is the last line it logs and the only
    error, the random source is not drawn from, and the stored vertex is
    the origin (0,0,0), to which the call resets it on entry, whatever
    vertex was stored before.  When that total is not zero, a call that
    returns has drawn one random number and has logged no error. *)
Theorem GenerateVertex_no_material (fuel : nat) (a : ROOTGeomAnalyzer G)
    (rnd : R) (x p : TLorentzVector) (tgtpdg : Z) (g g' : G)
    (v : TVector3) (l : Locals) (dist : Q) (m1 : list Message) :
  fGeometry a = Some g ->
  fCurrVertex a = Some v ->
  GenerateVertex_dist fuel (set_fCurrVertex (Some (mkTVector3 0 0 0)) a)
    g x p tgtpdg = Done (l, g', dist, m1) ->
  (dist == 0 ->
   exists a',
     GenerateVertex fuel a rnd x p tgtpdg
     = Done (a', rnd, m1 ++ [no_material_msg])
     /\ fCurrVertex a' = Some (mkTVector3 0 0 0)
     /\ error_lines (m1 ++ [no_material_msg])
        = ["No material selected along this direction from set point!!! "
          ]%string)
  /\ (~ dist == 0 ->
      forall a' rnd' m,
        GenerateVertex fuel a rnd x p tgtpdg = Done (a', rnd', m) ->
        rnd' = snd (Rndm rnd) /\ error_lines m = []).
Proof.
  intros Hg Hv Hdist.
  pose proof Hdist as Hm1. unfold GenerateVertex_dist in Hm1.
  apply gv_dist_while_error_lines in Hm1.
  split.
  - intros Hz.
    unfold GenerateVertex. rewrite Hv. cbn [deref obind].
    cbn [fGeometry set_fCurrVertex]. rewrite Hg.
    rewrite Hdist. cbn [obind].
    apply Qeq_bool_iff in Hz. rewrite Hz.
    eexists. split; [reflexivity|]. split; [reflexivity|].
    rewrite error_lines_app, Hm1. reflexivity.
  - intros Hnz a' rnd' m H.
    unfold GenerateVertex in H. rewrite Hv in H. cbn [deref obind] in H.
    cbn [fGeometry set_fCurrVertex] in H. rewrite Hg in H.
    rewrite Hdist in H. cbn [obind] in H.
    destruct (Qeq_bool dist 0) eqn:Ez.
    { exfalso. apply Hnz. by apply Qeq_bool_iff. }
    destruct (Rndm rnd) as [u rnd1].
    apply obind_Done in H as ([[[l2 g2] d2] m2] & Hrun & H).
    apply gv_vtx_while_error_lines in Hrun.
    cbn [TVector3_sub_at] in H. inversion H; subst.
    split; [reflexivity|].
    rewrite !error_lines_app, Hm1, Hrun. reflexivity.
Qed.

(** *** The running maximum *)

Lemma running_max_le (len M : Q) :
  M <= (if Qgt_bool len M then len else M).
Proof.
  destruct (Qgt_bool len M) eqn:E.
  - apply Qgt_bool_spec in E. apply Qlt_le_weak. exact E.
  - apply Qle_refl.
Qed.

Lemma scan_rays_mono (n fuel : nat) (a : ROOTGeomAnalyzer G) f xyz pdgc :
  forall g (rnd : R) M g' rnd' M',
    scan_rays n fuel a f xyz pdgc g rnd M = Done (g', rnd', M') ->
    M <= M'.
Proof.
  induction n as [|n IH]; intros g rnd M g' rnd' M' H; simpl in H.
  - inversion H; subst. apply Qle_refl.
  - destruct (Rndm rnd) as [u rnd1]. destruct (Rndm rnd1) as [v rnd2].
    destruct (Rndm rnd2) as [w rnd3].
    done_inv H. destruct x as [len g1].
    apply IH in H. eapply Qle_trans; [apply running_max_le | exact H].
Qed.

Lemma scan_rays_split (n k fuel : nat) (a : ROOTGeomAnalyzer G) f xyz
    pdgc :
  forall g (rnd : R) M,
    scan_rays (n + k) fuel a f xyz pdgc g rnd M
    = let* (g1, rnd1, M1) := scan_rays n fuel a f xyz pdgc g rnd M in
      scan_rays k fuel a f xyz pdgc g1 rnd1 M1.
Proof.
  induction n as [|n IH]; intros g rnd M; simpl.
  - reflexivity.
  - destruct (Rndm rnd) as [u rnd1]. destruct (Rndm rnd1) as [v rnd2].
    destruct (Rndm rnd2) as [w rnd3].
    destruct (ComputeMaxPathLengthPDG _ _ _ _ _ _) as [[len g1]| |];
      simpl; try reflexivity.
    apply IH.
Qed.

Lemma scan_points_mono (n fuel : nat) (a : ROOTGeomAnalyzer G) box f pdgc :
  forall g (rnd : R) M g' rnd' M',
    scan_points n fuel a box f pdgc g rnd M = Done (g', rnd', M') ->
    M <= M'.
Proof.
  induction n as [|n IH]; intros g rnd M g' rnd' M' H; simpl in H.
  - inversion H; subst. apply Qle_refl.
  - destruct (Rndm rnd) as [u rnd1]. destruct (Rndm rnd1) as [v rnd2].
    done_inv H. destruct x as [[g1 rnd3] M1].
    apply scan_rays_mono in H0. apply IH in H.
    eapply Qle_trans; eauto.
Qed.

Lemma scan_faces_mono (fs : list Face) (fuel : nat)
    (a : ROOTGeomAnalyzer G) box pdgc :
  forall g (rnd : R) M g' rnd' M',
    scan_faces fs fuel a box pdgc g rnd M = Done (g', rnd', M') ->
    M <= M'.
Proof.
  induction fs as [|f fs IH]; intros g rnd M g' rnd' M' H; simpl in H.
  - inversion H; subst. apply Qle_refl.
  - done_inv H. destruct x as [[g1 rnd1] M1].
    apply scan_points_mono in H0. apply IH in H.
    eapply Qle_trans; eauto.
Qed.

Lemma scan_points_split (n k fuel : nat) (a : ROOTGeomAnalyzer G) box f
    pdgc :
  forall g (rnd : R) M,
    scan_points (n + k) fuel a box f pdgc g rnd M
    = let* (g1, rnd1, M1) := scan_points n fuel a box f pdgc g rnd M in
      scan_points k fuel a box f pdgc g1 rnd1 M1.
Proof.
  induction n as [|n IH]; intros g rnd M; simpl.
  - reflexivity.
  - destruct (Rndm rnd) as [u rnd1]. destruct (Rndm rnd1) as [v rnd2].
    destruct (scan_rays _ _ _ _ _ _ _ _ _) as [[[g1 rnd3] M1]| |];
      simpl; try reflexivity.
    apply IH.
Qed.

(** C10 (as amended).  From one state of the navigator and of the random
    source, shooting [k] more rays from a surface point, or taking [k] more
    points on a face, never makes the running maximum [MaxPath] of that
    loop smaller: the longer loop first does what the shorter one does, and
    [MaxPath] only grows from sample to sample. *)
Theorem more_samples_in_one_loop :
  (forall (n k fuel : nat) (a : ROOTGeomAnalyzer G) (f : Face)
          (xyz : TVector3) (pdgc : Z) (g g2 : G) (rnd rnd2 : R) (M M2 : Q),
      scan_rays (n + k) fuel a f xyz pdgc g rnd M = Done (g2, rnd2, M2) ->
      exists g1 rnd1 M1,
        scan_rays n fuel a f xyz pdgc g rnd M = Done (g1, rnd1, M1)
        /\ M <= M1 /\ M1 <= M2)
  /\ (forall (n k fuel : nat) (a : ROOTGeomAnalyzer G) (box : TGeoBBox)
             (f : Face) (pdgc : Z) (g g2 : G) (rnd rnd2 : R) (M M2 : Q),
         scan_points (n + k) fuel a box f pdgc g rnd M = Done (g2, rnd2, M2) ->
         exists g1 rnd1 M1,
           scan_points n fuel a box f pdgc g rnd M = Done (g1, rnd1, M1)
           /\ M <= M1 /\ M1 <= M2).
Proof.
  split.
  - intros n k fuel a f xyz pdgc g g2 rnd rnd2 M M2.
    rewrite scan_rays_split. intros H.
    done_inv H. destruct x as [[g1 rnd1] M1].
    exists g1, rnd1, M1. split; [assumption|].
    split; eapply scan_rays_mono; eauto.
  - intros n k fuel a box f pdgc g g2 rnd rnd2 M M2.
    rewrite scan_points_split. intros H.
    done_inv H. destruct x as [[g1 rnd1] M1].
    exists g1, rnd1, M1. split; [assumption|].
    split; eapply scan_points_mono; eauto.
Qed.

End VertexAndScanFacts.

(** ** ComputeMaxPathLengthPDG against its segments *)

Section BoundedWalkFacts.

Context {G : Type} {TG : TGeoManager G} {FO : FloatOps} {PU : PDGUtils}.

Lemma pdg_segment_outside fuel (a : ROOTGeomAnalyzer G) l g :
  let xyz := mkTVector3 (xx l) (yy l) (zz l) in
  let g0 := FindNode xyz (SetCurrentPoint xyz g) in
  IsOutside g0 || negb (bool_decide (is_Some (GetCurrentVolume g0))) = true ->
  pdg_segment fuel a l g = None.
Proof.
  intros xyz g0 Hc. unfold pdg_segment. fold xyz. fold g0.
  destruct (IsOutside g0); [reflexivity|]. cbn [orb] in Hc.
  destruct (GetCurrentVolume g0) as [v|]; [|reflexivity].
  rewrite bool_decide_eq_true_2 in Hc by eauto. discriminate.
Qed.

Lemma pdg_body_effect fuel (a : ROOTGeomAnalyzer G) direction pdgc l g fl :
  pdg_body fuel a direction pdgc l g = Done fl ->
  match fl with
  | inl (l', _) => Length l' = Length l /\ weight l' = weight l
  | inr (l', _) => trip_effect pdgc (pdg_segment fuel a l g) l l'
  end.
Proof.
  unfold pdg_body.
  cbn [sFlagNotInYet scondition counterloop xx yy zz Length weight].
  set (xyz := mkTVector3 (xx l) (yy l) (zz l)).
  set (g0 := FindNode xyz (SetCurrentPoint xyz g)).
  intros H. done_inv H. destruct x as [[brk l1] g1].
  destruct (IsOutside g0
            || negb (bool_decide (is_Some (GetCurrentVolume g0)))) eqn:Hc.
  - (* outside, or a null volume *)
    rewrite (pdg_segment_outside fuel a l g Hc).
    unfold scan_set_condition in H0.
    cbn [sFlagNotInYet scondition counterloop xx yy zz Length weight] in H0.
    destruct (negb (sFlagNotInYet l =? 0)%Z).
    + inversion H0; subst. inversion H; subst. cbn. auto.
    + done_inv H0. destruct x as [g2 s]. inversion H0; subst.
      cbn in H. inversion H; subst. cbn. auto.
  - (* inside a volume *)
    inversion H0; subst. clear H0.
    cbn [scondition sFlagNotInYet counterloop xx yy zz Length weight] in H.
    set (l1 := if (sFlagNotInYet l =? 0)%Z then _ else _) in H.
    assert (Hl1 : Length l1 = Length l /\ weight l1 = weight l).
    { subst l1. destruct (sFlagNotInYet l =? 0)%Z; cbn; auto. }
    clearbody l1. destruct Hl1 as [HL HW].
    apply orb_false_iff in Hc as [Hout Hvol].
    unfold pdg_segment. fold xyz. fold g0. rewrite Hout.
    done_inv H. apply deref_Done in H0. rewrite H0.
    cbn [mbind option_bind].
    destruct (GetMedium x) as [med|]; cbn [mbind option_bind].
    2:{ inversion H; subst. cbn. auto. }
    destruct (GetMaterial med) as [mat|]; cbn [mbind option_bind].
    2:{ inversion H; subst. cbn. auto. }
    done_inv H. destruct x0 as [g2 s]. rewrite H1.
    inversion H; subst. unfold trip_effect.
    destruct (GetTargetPdgCode mat =? pdgc)%Z; cbn; auto.
    rewrite HL. auto.
Qed.

Lemma pdg_while_trace (fuel n : nat) (a : ROOTGeomAnalyzer G) direction
    pdgc :
  forall l g l' g',
    pdg_while fuel n a direction pdgc l g = Done (l', g') ->
    Length l'
    == Length l
       + matching_length pdgc (pdg_trace fuel n a direction pdgc l g)
    /\ weight l'
       = last_matching_weight pdgc (weight l)
           (pdg_trace fuel n a direction pdgc l g).
Proof.
  induction n as [|n IH]; intros l g l' g' H; simpl in *.
  - destruct (_ && _); [discriminate|]. inversion H; subst.
    split; [simpl; ring | reflexivity].
  - destruct (_ && _).
    2:{ inversion H; subst. split; [simpl; ring | reflexivity]. }
    done_inv H. rewrite H0.
    apply pdg_body_effect in H0.
    destruct x as [[l1 g1]|[l1 g1]].
    + inversion H; subst. destruct H0 as [-> ->].
      split; [simpl; ring | reflexivity].
    + apply IH in H. destruct H as [HL HW].
      unfold trip_effect in H0.
      destruct (pdg_segment fuel a l g) as [[[k s] w]|]; simpl.
      * destruct (k =? pdgc)%Z; destruct H0 as [E1 E2];
          rewrite E1 in HL; rewrite E2 in HW; (split; [|exact HW]).
        -- eapply Qeq_trans; [exact HL | ring].
        -- exact HL.
      * destruct H0 as [E1 E2]. rewrite E1 in HL. rewrite E2 in HW. auto.
Qed.

(** What [ComputeMaxPathLengthPDG] returns: the summed raw length of the
    segments of the target nuclide, times the weight of the last of
    them. *)
Lemma ComputeMaxPathLengthPDG_value (fuel : nat) (a : ROOTGeomAnalyzer G)
    (g g' : G) (XYZ direction : TVector3) (pdgc : Z) (len : Q) :
  ComputeMaxPathLengthPDG fuel a g XYZ direction pdgc = Done (len, g') ->
  let segs := ComputeMaxPathLengthPDG_trace fuel a g XYZ direction pdgc in
  len == matching_length pdgc segs * last_matching_weight pdgc 0 segs.
Proof.
  unfold ComputeMaxPathLengthPDG, ComputeMaxPathLengthPDG_trace.
  intros H. done_inv H. destruct x as [l' g1]. inversion H; subst.
  apply pdg_while_trace in H0. destruct H0 as [HL HW].
  cbn [Length weight] in HL, HW. cbv zeta. rewrite HL, HW. ring.
Qed.

End BoundedWalkFacts.

(** ** The runs *)

Section Runs.

Import BoxWorld Scenarios Sites.

Lemma nav_positioned_afresh (world : list Box) :
  @positioned_afresh Cursor (nav world).
Proof. intros g g' d r0. reflexivity. Qed.

(** C1.  A ray along x from (1,0,0) through 9 units of water (a mixture
    of two elements) and then iron up to x = 30: the step is asked for
    once per element and the position is advanced once per element, so
    the walk jumps from x = 1 to x = 19 and attributes 11 units of iron
    where the ray crosses 20. *)
Theorem mixture_advances_once_per_element :
  let run := run_ComputePathLengths water_then_iron 10
               (analyzer [pdg_H; pdg_O; pdg_Fe] true) (at_ 1 0 0) along_x in
  positions (messages_of run)
  = [mkTVector3 1 0 0; mkTVector3 19 0 0; mkTVector3 30 0 0]
  /\ segments (messages_of run) = [(pdg_H, 9); (pdg_O, 9); (pdg_Fe, 11)]
  /\ record_of run pdg_Fe = Some (11 * 8).
Proof. vm_compute. repeat split; reflexivity. Qed.

(** C2.  With no geometry loaded [ComputePathLengths] has no guard: it
    dereferences the null record (and the null navigator) and crashes,
    whatever the ray. *)
Theorem ComputePathLengths_unloaded_crashes :
  forall (fuel : nat) (x p : TLorentzVector),
    run_ComputePathLengths iron_cube fuel unloaded x p = Crash.
Proof. intros fuel x p. reflexivity. Qed.

(** C3.  From (1,0,0) along x inside an iron cube of half side 10:
    [ComputePathLengths] walks (1,0,0), (10,0,0) and accumulates 9 x 8 for
    iron; the first loop of [GenerateVertex] adds the step along x to the y
    component, walks (1,0,0), (1,9,0), (1,18,0) and totals 18 x 8. *)
Theorem GenerateVertex_walk_differs :
  let cpl := run_ComputePathLengths iron_cube 10
               (analyzer [pdg_Fe] true) (at_ 1 0 0) along_x in
  let gv := run_GenerateVertex_dist iron_cube 10
              (analyzer [pdg_Fe] true) start (at_ 1 0 0) along_x pdg_Fe in
  positions (messages_of cpl) = [mkTVector3 1 0 0; mkTVector3 10 0 0]
  /\ segments (messages_of cpl) = [(pdg_Fe, 9)]
  /\ positions (messages_of gv)
     = [mkTVector3 1 0 0; mkTVector3 1 9 0; mkTVector3 1 18 0]
  /\ record_of cpl pdg_Fe = Some (9 * 8)
  /\ (exists l g m, gv = Done (l, g, 18 * 8, m)).
Proof.
  vm_compute. repeat split; try reflexivity. eexists _, _, _. reflexivity.
Qed.

(** C4.  A ray along x through 10 units of iron of density 8 and 10 units
    of iron of density 2: the density-weighted length is 100, and
    [ComputeMaxPathLengthPDG] returns 20 x 2 = 40. *)
Theorem ComputeMaxPathLengthPDG_uses_last_weight :
  let a := analyzer [pdg_Fe] true in
  let XYZ := mkTVector3 0 0 0 in
  let direction := mkTVector3 1 0 0 in
  run_ComputeMaxPathLengthPDG_trace two_irons 10 a start XYZ direction pdg_Fe
  = [(pdg_Fe, 10, 8); (pdg_Fe, 10, 2)]
  /\ density_weighted_length pdg_Fe
       (run_ComputeMaxPathLengthPDG_trace two_irons 10 a start XYZ
          direction pdg_Fe) = 100
  /\ (exists g,
        run_ComputeMaxPathLengthPDG two_irons 10 a start XYZ direction
          pdg_Fe = Done (40, g)).
Proof. vm_compute. repeat split; try reflexivity. eexists. reflexivity. Qed.

(** C7.  The first loop of [GenerateVertex] advances the position through
    the indices 1, 2, 3: index 3 is out of range (ROOT reports it), and the
    step along x goes to the y component, so a step of 9 along x moves
    (1,0,0) to (1,9,0) and x is not advanced. *)
Theorem GenerateVertex_advances_with_index_3 :
  let gv := run_GenerateVertex_dist iron_cube 10
              (analyzer [pdg_Fe] true) start (at_ 1 0 0) along_x pdg_Fe in
  TVector3_index_ok 3 = false
  /\ advance 1 2 3 9 along_x (mkTVector3 1 0 0)
     = (mkTVector3 1 9 0, [MsgBadIndex 3])
  /\ advance 0 1 2 9 along_x (mkTVector3 1 0 0) = (mkTVector3 10 0 0, [])
  /\ bad_indices (messages_of gv) = [3%Z; 3%Z]
  /\ positions (messages_of gv)
     = [mkTVector3 1 0 0; mkTVector3 1 9 0; mkTVector3 1 18 0].
Proof. vm_compute. repeat split; reflexivity. Qed.

(** C5, counterexample.  An analyzer that holds the vertex (1,2,3) is
    asked for a vertex in oxygen along a ray that only crosses iron: the
    total is zero, the call returns, and the stored vertex is (0,0,0), not
    the vertex held before. *)
Lemma GenerateVertex_resets_vertex :
  let run := run_GenerateVertex iron_cube 10 with_old_vertex []
               (at_ 1 0 0) along_x pdg_O in
  fCurrVertex with_old_vertex = Some (mkTVector3 1 2 3)
  /\ (exists l g m,
        run_GenerateVertex_dist iron_cube 10
          (set_fCurrVertex (Some (mkTVector3 0 0 0)) with_old_vertex)
          start (at_ 1 0 0) along_x pdg_O = Done (l, g, 0, m))
  /\ vertex_of run = Some (mkTVector3 0 0 0)
  /\ vertex_of run <> fCurrVertex with_old_vertex.
Proof.
  vm_compute. repeat split; try reflexivity.
  - eexists _, _, _. reflexivity.
  - discriminate.
Qed.

(** The total of the first loop is not the total along the ray.  In a box
    of air with a block of oxygen beside the ray, the ray along x from the
    origin crosses no oxygen (its only segment is air, and
    [ComputePathLengths] attributes oxygen nothing), but the first loop of
    [GenerateVertex], stepping sideways through y = 2/512, 4/512, 6/512,
    totals 2 x 1/256 x 3/2 for oxygen: the call draws a number, logs no
    error, and stores a vertex 3 increments along the ray. *)
Lemma GenerateVertex_total_off_the_ray :
  let a := analyzer [pdg_N; pdg_O] true in
  let x := at_ 0 0 0 in
  (@ComputePathLengths_trace Cursor (nav oxygen_off_the_ray) float_ops
     pdg_utils 10 a start x along_x (PathLengthList.create [pdg_N; pdg_O])
   = [(pdg_N, 1 # 256, 1 # 1000)])
  /\ record_of (run_ComputePathLengths oxygen_off_the_ray 10 a x along_x)
       pdg_O = Some 0
  /\ (exists l g' dist m1,
        run_GenerateVertex_dist oxygen_off_the_ray 10 a start x along_x
          pdg_O = Done (l, g', dist, m1)
        /\ dist == 3 # 256)
  /\ (exists a' m v,
        run_GenerateVertex oxygen_off_the_ray 10 a [1 # 2] x along_x pdg_O
        = Done (a', [], m)
        /\ error_lines m = []
        /\ fCurrVertex a' = Some v
        /\ 2 # 1000 < fX v /\ fX v < 4 # 1000 /\ fY v == 0 /\ fZ v == 0).
Proof.
  vm_compute. repeat split; try reflexivity.
  - eexists _, _, _, _. split; reflexivity.
  - eexists _, _, _. repeat split; reflexivity.
Qed.

Lemma GenerateVertex_no_material_witness :
  (exists a' m1,
      @GenerateVertex Cursor (nav iron_cube) float_ops pdg_utils (list Q)
        replay 10 with_old_vertex [] (at_ 1 0 0) along_x pdg_O
      = Done (a', [], m1 ++ [no_material_msg])
      /\ fCurrVertex a' = Some (mkTVector3 0 0 0))
  /\ (exists a' m,
        @GenerateVertex Cursor (nav oxygen_off_the_ray) float_ops pdg_utils
          (list Q) replay 10 (analyzer [pdg_N; pdg_O] true) [1 # 2]
          (at_ 0 0 0) along_x pdg_O = Done (a', [], m)
        /\ error_lines m = []).
Proof.
  split.
  - destruct (@GenerateVertex_dist Cursor (nav iron_cube) float_ops
                pdg_utils 10
                (set_fCurrVertex (Some (mkTVector3 0 0 0)) with_old_vertex)
                start (at_ 1 0 0) along_x pdg_O)
      as [[[[l g'] dist] m1]| |] eqn:E.
    2,3: vm_compute in E; discriminate.
    assert (Hd : dist == 0).
    { pose proof E as E'. vm_compute in E'. inversion E'. reflexivity. }
    destruct (@GenerateVertex_no_material Cursor (nav iron_cube) float_ops
                pdg_utils (list Q) replay 10 with_old_vertex []
                (at_ 1 0 0) along_x pdg_O start g' (mkTVector3 1 2 3) l
                dist m1 eq_refl eq_refl E) as [Hzero _].
    destruct (Hzero Hd) as (a' & Hrun & Hv & _).
    exists a', m1. split; assumption.
  - destruct (@GenerateVertex_dist Cursor (nav oxygen_off_the_ray)
                float_ops pdg_utils 10
                (set_fCurrVertex (Some (mkTVector3 0 0 0))
                   (analyzer [pdg_N; pdg_O] true))
                start (at_ 0 0 0) along_x pdg_O)
      as [[[[l g'] dist] m1]| |] eqn:E.
    2,3: vm_compute in E; discriminate.
    assert (Hd : ~ dist == 0).
    { pose proof E as E'. vm_compute in E'. inversion E'.
      intros H. vm_compute in H. discriminate. }
    destruct (@GenerateVertex_no_material Cursor (nav oxygen_off_the_ray)
                float_ops pdg_utils (list Q) replay 10
                (analyzer [pdg_N; pdg_O] true) [1 # 2]
                (at_ 0 0 0) along_x pdg_O start g' (mkTVector3 0 0 0) l
                dist m1 eq_refl eq_refl E) as [_ Hdraw].
    destruct (@GenerateVertex Cursor (nav oxygen_off_the_ray) float_ops
                pdg_utils (list Q) replay 10 (analyzer [pdg_N; pdg_O] true)
                [1 # 2] (at_ 0 0 0) along_x pdg_O)
      as [[[a' rnd'] m]| |] eqn:E2.
    2,3: vm_compute in E2; discriminate.
    destruct (Hdraw Hd a' rnd' m eq_refl) as [Hr He].
    cbn in Hr. subst rnd'. exists a', m. split; [reflexivity | exact He].
Defined.

(** C6, counterexample.  A slab of iron whose near face lies [far] from
    the origin, beyond the threshold and short of [Big]; faces, steps and
    lengths are integers a [double] holds.  While seeking entry the
    navigator reports the step [far], strictly above the threshold
    9.99E29, and is entering: the step is not put to [WillNeverEnter], and
    [ComputePathLengths] walks on and returns 2^89 x 8 for iron through
    its last [return].  And a step equal to the threshold is not taken for
    the sentinel. *)
Lemma ComputePathLengths_walks_past_threshold :
  let run := run_ComputePathLengths far_slab 10 (analyzer [pdg_Fe] true)
               (at_ 0 0 0) along_x in
  let g0 := @FindNextBoundary Cursor (nav far_slab)
              (mkCursor (mkTVector3 0 0 0) (mkTVector3 1 0 0) None 0 false)
  in
  double_integer 999000000000000020146215190528 = true
  /\ double_integer (999 * 10 ^ 27) = false
  /\ double_integer far = true
  /\ double_integer (far + 2 ^ 89) = true
  /\ double_integer (2 ^ 89 * 8) = true
  /\ cstep g0 = inject_Z far
  /\ entering g0 = true
  /\ max_step_threshold < cstep g0
  /\ cstep g0 < Big
  /\ WillNeverEnter max_step_threshold = false
  /\ (exists a' m, run = Done (a', ReturnEnd, m))
  /\ record_of run pdg_Fe = Some (inject_Z (2 ^ 89 * 8)).
Proof.
  vm_compute. repeat split; try reflexivity.
  eexists _, _. reflexivity.
Qed.

Lemma box_never_entering (world : list Box) (top : TGeoVolume) (c : Cursor) :
  entering c = false ->
  forall i,
    @IsEntering Cursor (navigator world top)
      (Nat.iter i (@Step Cursor (navigator world top)) c) = false.
Proof.
  intros Hc. induction i as [|i IH]; [exact Hc|].
  rewrite Nat.iter_succ. exact IH.
Qed.

Lemma ComputePathLengths_never_enters_witness :
  let a := analyzer [pdg_Fe] true in
  (exists a' m,
      @ComputePathLengths Cursor touched_face float_ops pdg_utils 10 a
        (at_ 0 0 0) along_x = Done (a', ReturnNeverEnters, m)
      /\ fCurrPathLengthList a'
         = Some (PathLengthList.SetAllToZero
                   (PathLengthList.create [pdg_Fe])))
  /\ (exists a' site m,
        @ComputePathLengths Cursor (nav iron_cube) float_ops pdg_utils 10 a
          (at_ 0 0 20) along_z = Done (a', site, m)
        /\ site = ReturnNeverEnters
        /\ fCurrPathLengthList a'
           = Some (PathLengthList.SetAllToZero
                     (PathLengthList.create [pdg_Fe]))
        /\ segments m = []).
Proof.
  intros a. split.
  - destruct (@cpl_state_after Cursor touched_face float_ops pdg_utils
                10 1 a along_x (cpl_start (at_ 0 0 0))
                (@SetCurrentDirection Cursor touched_face
                   (direction_of along_x) start)
                (PathLengthList.SetAllToZero
                   (PathLengthList.create [pdg_Fe])))
      as [[[l gj] plj]|] eqn:E.
    2: vm_compute in E; discriminate.
    assert (El : exists rl sl,
               l = mkLocals 0 false sl rl
               /\ @positioned Cursor touched_face l gj
                  = mkCursor rl (mkTVector3 1 0 0) None 0 false
               /\ Qlt_bool (fX rl) 5 = false).
    { pose proof E as E'. vm_compute in E'. inversion E'; subst.
      eexists _, _. split; [reflexivity|]. split; reflexivity. }
    destruct El as (rl & sl & -> & Hpos & Hx).
    destruct (proj1 (@ComputePathLengths_never_enters Cursor touched_face
                       float_ops pdg_utils a (at_ 0 0 0) along_x start
                       (PathLengthList.create [pdg_Fe]) eq_refl eq_refl)
                10%nat 1%nat 0%nat _ gj plj E)
      as (a' & m & Hrun & _ & Hpl & _).
    + reflexivity.
    + eexists. reflexivity.
    + reflexivity.
    + intros i Hi. assert (i = 0%nat) as -> by lia.
      cbn [Nat.iter nat_rect]. rewrite Hpos.
      cbn [FindNextBoundary touched_face point IsEntering]. rewrite Hx.
      reflexivity.
    + intros i Hi. lia.
    + cbn [Nat.iter nat_rect]. rewrite Hpos.
      cbn [FindNextBoundary touched_face point Step GetStep]. rewrite Hx.
      vm_compute. reflexivity.
    + lia.
    + lia.
    + exists a', m. split; assumption.
  - pose proof (proj2 (@ComputePathLengths_never_enters Cursor
                         (nav iron_cube) float_ops pdg_utils a (at_ 0 0 20)
                         along_z start (PathLengthList.create [pdg_Fe])
                         eq_refl eq_refl)) as W.
    cbv zeta in W.
    assert (Hent : forall i,
               @IsEntering Cursor (nav iron_cube)
                 (Nat.iter i (@Step Cursor (nav iron_cube))
                    (@FindNextBoundary Cursor (nav iron_cube)
                       (@positioned Cursor (nav iron_cube)
                          (cpl_start (at_ 0 0 20))
                          (@SetCurrentDirection Cursor (nav iron_cube)
                             (direction_of along_z) start)))) = false).
    { apply box_never_entering. reflexivity. }
    destruct (W eq_refl Hent) as [Hevery Hreturns].
    destruct (Hreturns 10%nat 0%nat) as (a' & m & Hrun & Hrec).
    + eexists. reflexivity.
    + intros i Hi. lia.
    + vm_compute. reflexivity.
    + lia.
    + destruct (Hevery 10%nat a' ReturnNeverEnters m Hrun)
        as (_ & _ & _ & Hseg).
      exists a', ReturnNeverEnters, m. auto.
Defined.

Lemma ComputePathLengths_twice_witness :
  exists a1 site m,
    run_ComputePathLengths water_then_iron 10
      (analyzer [pdg_H; pdg_O; pdg_Fe] true) (at_ 1 0 0) along_x
    = Done (a1, site, m)
    /\ run_ComputePathLengths water_then_iron 10 a1 (at_ 1 0 0) along_x
       = Done (a1, site, m)
    /\ record_of (Done (a1, site, m)) pdg_Fe = Some (11 * 8).
Proof.
  destruct (run_ComputePathLengths water_then_iron 10
              (analyzer [pdg_H; pdg_O; pdg_Fe] true) (at_ 1 0 0) along_x)
    as [[[a1 site] m]| |] eqn:E.
  - exists a1, site, m. split; [reflexivity|].
    split.
    + apply (@ComputePathLengths_twice Cursor (nav water_then_iron)
               float_ops pdg_utils 10 _ a1 (at_ 1 0 0) along_x site m
               (nav_positioned_afresh water_then_iron) E).
    + vm_compute in E. inversion E. vm_compute. reflexivity.
  - vm_compute in E. discriminate.
  - vm_compute in E. discriminate.
Defined.


(** C10, counterexample.  The same hall, bar and random sequence, one
    surface point per face: with one ray per point the scan records 160
    for iron, with two rays per point it records 80/3.  The second rays
    use up the draws that gave the first scan its longest ray. *)
Lemma more_rays_smaller_maximum :
  let one := run_ComputeMaxPathLengths bar_in_air 10 (scanner 1) draws in
  let two := run_ComputeMaxPathLengths bar_in_air 10 (scanner 2) draws in
  (fNRays (scanner 1) < fNRays (scanner 2))%Z
  /\ max_record_of one pdg_Fe = Some 160
  /\ max_record_of two pdg_Fe = Some (80 # 3)
  /\ 80 # 3 < 160.
Proof. vm_compute. repeat split; reflexivity. Qed.

Lemma more_samples_in_one_loop_witness :
  let xyz := mkTVector3 6 (-10) (-2) in
  exists g1 rnd1 M1 g2 rnd2 M2,
    @scan_rays Cursor (nav bar_in_air) float_ops pdg_utils (list Q) replay
      (1 + 1) 10 (scanner 2) BOTTOM xyz pdg_Fe start [] 0
    = Done (g2, rnd2, M2)
    /\ @scan_rays Cursor (nav bar_in_air) float_ops pdg_utils (list Q)
         replay 1 10 (scanner 2) BOTTOM xyz pdg_Fe start [] 0
       = Done (g1, rnd1, M1)
    /\ 0 <= M1 /\ M1 <= M2.
Proof.
  intros xyz.
  destruct (@scan_rays Cursor (nav bar_in_air) float_ops pdg_utils (list Q)
              replay (1 + 1) 10 (scanner 2) BOTTOM xyz pdg_Fe start [] 0)
    as [[[g2 rnd2] M2]| |] eqn:E.
  2,3: vm_compute in E; discriminate.
  destruct (proj1 (@more_samples_in_one_loop Cursor (nav bar_in_air)
                     float_ops pdg_utils (list Q) replay)
              1%nat 1%nat 10%nat (scanner 2) BOTTOM xyz
              pdg_Fe start g2 [] rnd2 0 M2 E)
    as (g1 & rnd1 & M1 & H1 & Hle1 & Hle2).
  exists g1, rnd1, M1, g2, rnd2, M2. auto.
Defined.

End Runs.

(* ------------------------------------------------------------------ *)
(** * Further properties *)

(** ** The bounded walk *)

Section BoundedWalkMore.

Context {G : Type} {TG : TGeoManager G} {FO : FloatOps} {PU : PDGUtils}.

Lemma elem_of_cons_seg (x y : Z * Q * Q) (l : list (Z * Q * Q)) :
  x ∈ y :: l <-> x = y \/ x ∈ l.
Proof. apply elem_of_cons. Qed.

Lemma uniform_weight_tail pdgc w x segs :
  uniform_weight pdgc w (x :: segs) -> uniform_weight pdgc w segs.
Proof. intros H k s w' Hin. apply (H k s w'). by right. Qed.

Lemma last_matching_weight_uniform pdgc w segs :
  uniform_weight pdgc w segs -> last_matching_weight pdgc w segs = w.
Proof.
  induction segs as [|[[k s] w'] segs IH]; intros Hu; simpl; [reflexivity|].
  destruct (k =? pdgc)%Z eqn:E.
  - apply Z.eqb_eq in E. rewrite (Hu k s w') by (left || auto).
    apply IH. eapply uniform_weight_tail; eauto.
  - apply IH. eapply uniform_weight_tail; eauto.
Qed.

Lemma density_weighted_uniform pdgc w segs :
  uniform_weight pdgc w segs ->
  density_weighted_length pdgc segs == matching_length pdgc segs * w.
Proof.
  induction segs as [|[[k s] w'] segs IH]; intros Hu; simpl; [ring|].
  pose proof (IH (uniform_weight_tail _ _ _ _ Hu)) as IH'.
  destruct (k =? pdgc)%Z eqn:E.
  - apply Z.eqb_eq in E. rewrite (Hu k s w') by (left || auto).
    rewrite IH'. ring.
  - exact IH'.
Qed.

Lemma value_uniform pdgc w segs :
  uniform_weight pdgc w segs ->
  forall w0,
    matching_length pdgc segs * last_matching_weight pdgc w0 segs
    == matching_length pdgc segs * w.
Proof.
  induction segs as [|[[k s] w'] segs IH]; intros Hu w0; simpl; [ring|].
  pose proof (uniform_weight_tail _ _ _ _ Hu) as Ht.
  destruct (k =? pdgc)%Z eqn:E.
  - apply Z.eqb_eq in E. rewrite (Hu k s w') by (left || auto).
    rewrite (last_matching_weight_uniform _ _ _ Ht). reflexivity.
  - apply IH. exact Ht.
Qed.

Lemma matching_length_none pdgc segs :
  no_matching_segment pdgc segs -> matching_length pdgc segs = 0.
Proof.
  induction segs as [|[[k s] w'] segs IH]; intros Hn; simpl; [reflexivity|].
  destruct (k =? pdgc)%Z eqn:E.
  - apply Z.eqb_eq in E. exfalso. apply (Hn k s w'); [left|exact E].
  - apply IH. intros k' s' w'' Hin. apply (Hn k' s' w''). by right.
Qed.

(** X1.  What [ComputeMaxPathLengthPDG] returns is the summed raw length of
    the traversed segments of the target nuclide times the weight of the
    last of them; it is 0 when no traversed segment is of that nuclide. *)
Theorem bounded_walk_value (fuel : nat) (a : ROOTGeomAnalyzer G)
    (g g' : G) (XYZ direction : TVector3) (pdgc : Z) (len : Q) :
  ComputeMaxPathLengthPDG fuel a g XYZ direction pdgc = Done (len, g') ->
  let segs := ComputeMaxPathLengthPDG_trace fuel a g XYZ direction pdgc in
  len == matching_length pdgc segs * last_matching_weight pdgc 0 segs
  /\ (no_matching_segment pdgc segs -> len == 0).
Proof.
  unfold ComputeMaxPathLengthPDG, ComputeMaxPathLengthPDG_trace.
  intros H. done_inv H. destruct x as [l' g1]. inversion H; subst.
  apply pdg_while_trace in H0. destruct H0 as [HL HW].
  cbn [Length weight] in HL, HW. cbv zeta.
  assert (E : Length l' * weight l'
              == matching_length pdgc
                   (pdg_trace fuel 100 a direction pdgc
                      (mkScanLocals 0 true 0 (to_float (fX XYZ))
                         (to_float (fY XYZ)) (to_float (fZ XYZ)) 0 0)
                      (SetCurrentDirection direction g))
                 * last_matching_weight pdgc 0
                     (pdg_trace fuel 100 a direction pdgc
                        (mkScanLocals 0 true 0 (to_float (fX XYZ))
                           (to_float (fY XYZ)) (to_float (fZ XYZ)) 0 0)
                        (SetCurrentDirection direction g)))
    by (rewrite HL, HW; ring).
  split; [exact E|].
  intros Hn. rewrite E, (matching_length_none _ _ Hn). ring.
Qed.

(** X2.  When all traversed segments of the target nuclide have one and
    the same weight, [ComputeMaxPathLengthPDG] returns the density-weighted
    length: the sum of step times weight over those segments. *)
Theorem bounded_walk_uniform_weight (fuel : nat) (a : ROOTGeomAnalyzer G)
    (g g' : G) (XYZ direction : TVector3) (pdgc : Z) (len w : Q) :
  uniform_weight pdgc w
    (ComputeMaxPathLengthPDG_trace fuel a g XYZ direction pdgc) ->
  ComputeMaxPathLengthPDG fuel a g XYZ direction pdgc = Done (len, g') ->
  len == density_weighted_length pdgc
           (ComputeMaxPathLengthPDG_trace fuel a g XYZ direction pdgc).
Proof.
  unfold ComputeMaxPathLengthPDG, ComputeMaxPathLengthPDG_trace.
  intros Hu H. done_inv H. destruct x as [l' g1]. inversion H; subst.
  apply pdg_while_trace in H0. destruct H0 as [HL HW].
  cbn [Length weight] in HL, HW.
  rewrite (density_weighted_uniform _ _ _ Hu), HW.
  eapply Qeq_trans; [|apply (value_uniform _ _ _ Hu 0)].
  rewrite HL. ring.
Qed.

Lemma pdg_segment_weight fuel (a : ROOTGeomAnalyzer G) l g k s w :
  pdg_segment fuel a l g = Some (k, s, w) ->
  exists mat, w = GetWeight a mat /\ k = GetTargetPdgCode mat.
Proof.
  unfold pdg_segment. intros H.
  destruct (IsOutside _); [discriminate|].
  destruct (GetCurrentVolume _) as [v|]; cbn in H; [|discriminate].
  destruct (GetMedium v) as [med|]; cbn in H; [|discriminate].
  destruct (GetMaterial med) as [mat|]; cbn in H; [|discriminate].
  destruct (next_boundary _ _) as [[g1 s1]| |]; inversion H; subst. eauto.
Qed.

Lemma pdg_trace_weights fuel (a : ROOTGeomAnalyzer G) direction pdgc n :
  forall l g k s w,
    (k, s, w) ∈ pdg_trace fuel n a direction pdgc l g ->
    exists mat, w = GetWeight a mat /\ k = GetTargetPdgCode mat.
Proof.
  induction n as [|n IH]; intros l g k s w Hin; simpl in Hin.
  - destruct (_ && _); by apply elem_of_nil in Hin.
  - destruct (_ && _); [|by apply elem_of_nil in Hin].
    destruct (pdg_body fuel a direction pdgc l g) as [[[l1 g1]|[l1 g1]]| |];
      try (by apply elem_of_nil in Hin).
    apply elem_of_app in Hin as [Hin|Hin].
    + destruct (pdg_segment fuel a l g) as [[[k1 s1] w1]|] eqn:E;
        simpl in Hin; [|by apply elem_of_nil in Hin].
      apply list_elem_of_singleton in Hin. inversion Hin; subst.
      eapply pdg_segment_weight; eauto.
    + eapply IH; eauto.
Qed.

(** X3.  With density weighting disabled [ComputeMaxPathLengthPDG] returns
    the summed raw length of the traversed segments of the target
    nuclide. *)
Theorem bounded_walk_unweighted (fuel : nat) (a : ROOTGeomAnalyzer G)
    (g g' : G) (XYZ direction : TVector3) (pdgc : Z) (len : Q) :
  fDensWeight a = false ->
  ComputeMaxPathLengthPDG fuel a g XYZ direction pdgc = Done (len, g') ->
  len == matching_length pdgc
           (ComputeMaxPathLengthPDG_trace fuel a g XYZ direction pdgc).
Proof.
  intros Hw H.
  assert (Hu : uniform_weight pdgc 1
                 (ComputeMaxPathLengthPDG_trace fuel a g XYZ direction pdgc)).
  { intros k s w Hin _. unfold ComputeMaxPathLengthPDG_trace in Hin.
    apply pdg_trace_weights in Hin as (mat & -> & _).
    unfold GetWeight, WeightWithDensity. rewrite Hw. reflexivity. }
  unfold ComputeMaxPathLengthPDG in H. done_inv H. destruct x as [l' g1].
  inversion H; subst. apply pdg_while_trace in H0. destruct H0 as [HL HW].
  cbn [Length weight] in HL, HW. unfold ComputeMaxPathLengthPDG_trace in *.
  rewrite HW.
  eapply Qeq_trans; [|eapply Qeq_trans; [apply (value_uniform _ _ _ Hu 0)|]].
  - rewrite HL. ring.
  - ring.
Qed.

(** *** The cap of 100 trips *)

Lemma pdg_body_counter fuel (a : ROOTGeomAnalyzer G) direction pdgc l g fl :
  pdg_body fuel a direction pdgc l g = Done fl ->
  match fl with
  | inl (l', _) | inr (l', _) => counterloop l' = (counterloop l + 1)%Z
  end.
Proof.
  unfold pdg_body.
  cbn [sFlagNotInYet scondition counterloop xx yy zz Length weight].
  intros H. done_inv H. destruct x as [[brk l1] g1].
  assert (Hc : counterloop l1 = (counterloop l + 1)%Z).
  { destruct (IsOutside _ || _).
    - unfold scan_set_condition in H0.
      cbn [sFlagNotInYet scondition counterloop xx yy zz Length weight] in H0.
      destruct (negb _).
      + inversion H0; subst. reflexivity.
      + done_inv H0. destruct x as [g2 s]. inversion H0; subst. reflexivity.
    - inversion H0; subst. reflexivity. }
  destruct brk.
  - inversion H; subst. exact Hc.
  - destruct (scondition l1).
    2:{ inversion H; subst. exact Hc. }
    set (l2 := if (sFlagNotInYet l1 =? 0)%Z then _ else _) in H.
    assert (Hc2 : counterloop l2 = (counterloop l + 1)%Z).
    { subst l2. destruct (sFlagNotInYet l1 =? 0)%Z; cbn; exact Hc. }
    clearbody l2.
    done_inv H. destruct (GetMedium x) as [med|].
    2:{ inversion H; subst. exact Hc2. }
    destruct (GetMaterial med) as [mat|].
    2:{ inversion H; subst. exact Hc2. }
    done_inv H. destruct x0 as [g2 s]. inversion H; subst.
    destruct (GetTargetPdgCode mat =? pdgc)%Z; cbn; exact Hc2.
Qed.

(** The body never dereferences a null pointer. *)
Lemma pdg_body_returns fuel (a : ROOTGeomAnalyzer G) direction pdgc l g :
  (forall g0 : G, exists gs, next_boundary fuel g0 = Done gs) ->
  exists fl, pdg_body fuel a direction pdgc l g = Done fl.
Proof.
  intros Hnb. unfold pdg_body.
  cbn [sFlagNotInYet scondition counterloop xx yy zz Length weight].
  set (xyz := mkTVector3 (xx l) (yy l) (zz l)).
  set (g0 := FindNode xyz (SetCurrentPoint xyz g)).
  destruct (IsOutside g0) eqn:Hout; cbn [orb].
  - unfold scan_set_condition.
    cbn [sFlagNotInYet scondition counterloop xx yy zz Length weight].
    destruct (negb _); cbn [obind]; [eauto|].
    destruct (Hnb g0) as [[g1 s] ->]. cbn. eauto.
  - destruct (GetCurrentVolume g0) as [v|] eqn:Hvol.
    + rewrite bool_decide_eq_true_2 by eauto. cbn [negb obind deref].
      cbn [sFlagNotInYet scondition counterloop xx yy zz Length weight].
      destruct (GetMedium v) as [med|]; [|eauto].
      destruct (GetMaterial med) as [mat|]; [|eauto].
      destruct (Hnb g0) as [[g1 s] ->]. cbn [obind]. eauto.
    + rewrite bool_decide_eq_false_2 by (intros [? ?]; discriminate).
      cbn [negb]. unfold scan_set_condition.
      cbn [sFlagNotInYet scondition counterloop xx yy zz Length weight].
      destruct (negb _); cbn [obind]; [eauto|].
      destruct (Hnb g0) as [[g1 s] ->]. cbn. eauto.
Qed.

Lemma pdg_while_returns fuel (a : ROOTGeomAnalyzer G) direction pdgc :
  (forall g0 : G, exists gs, next_boundary fuel g0 = Done gs) ->
  forall n l g,
    (100 - counterloop l <= Z.of_nat n)%Z ->
    exists r, pdg_while fuel n a direction pdgc l g = Done r.
Proof.
  intros Hnb. induction n as [|n IH]; intros l g Hn; simpl.
  - destruct (counterloop l <? 100)%Z eqn:E.
    + apply Z.ltb_lt in E. lia.
    + rewrite andb_false_r. eauto.
  - destruct (_ && _) eqn:Hc; [|eauto].
    destruct (pdg_body_returns fuel a direction pdgc l g Hnb) as [fl Hfl].
    rewrite Hfl. cbn [obind].
    apply pdg_body_counter in Hfl.
    destruct fl as [[l1 g1]|[l1 g1]]; [eauto|].
    apply IH. lia.
Qed.

Lemma pdg_trace_length fuel (a : ROOTGeomAnalyzer G) direction pdgc n :
  forall l g,
    (Z.of_nat (length (pdg_trace fuel n a direction pdgc l g))
     <= Z.max 0 (100 - counterloop l))%Z.
Proof.
  induction n as [|n IH]; intros l g; simpl.
  - destruct (_ && _); simpl; lia.
  - destruct (_ && _) eqn:Hc; [|simpl; lia].
    apply andb_true_iff in Hc as [_ Hc]. apply Z.ltb_lt in Hc.
    destruct (pdg_body fuel a direction pdgc l g) as [[[l1 g1]|[l1 g1]]| |]
      eqn:Hb; try (simpl; lia).
    apply pdg_body_counter in Hb.
    rewrite length_app. specialize (IH l1 g1).
    destruct (pdg_segment fuel a l g); simpl in *; lia.
Qed.

Lemma bounded_walk_done (fuel : nat) (a : ROOTGeomAnalyzer G) (g : G)
    (XYZ direction : TVector3) (pdgc : Z) :
  (forall g0 : G, exists gs, next_boundary fuel g0 = Done gs) ->
  exists len g',
    ComputeMaxPathLengthPDG fuel a g XYZ direction pdgc = Done (len, g').
Proof.
  intros Hnb. unfold ComputeMaxPathLengthPDG.
  match goal with
  | |- context [pdg_while fuel 100 a direction pdgc ?l ?g0] =>
      destruct (pdg_while_returns fuel a direction pdgc Hnb 100 l g0)
        as [[l' g'] ->]; [cbn; lia|]
  end.
  cbn [obind]. eauto.
Qed.

(** X4.  On a navigator whose boundary searches all return,
    [ComputeMaxPathLengthPDG] returns, after at most 100 trips of its loop
    (so with at most 100 segments), however far the material extends: the
    counter caps the walk. *)
Theorem bounded_walk_returns (fuel : nat) (a : ROOTGeomAnalyzer G) (g : G)
    (XYZ direction : TVector3) (pdgc : Z) :
  (forall g0 : G, exists gs, next_boundary fuel g0 = Done gs) ->
  (exists len g',
      ComputeMaxPathLengthPDG fuel a g XYZ direction pdgc = Done (len, g'))
  /\ (length (ComputeMaxPathLengthPDG_trace fuel a g XYZ direction pdgc)
      <= 100)%nat.
Proof.
  intros Hnb. split.
  - by apply bounded_walk_done.
  - unfold ComputeMaxPathLengthPDG_trace.
    match goal with
    | |- (length (pdg_trace fuel 100 a direction pdgc ?l ?g0) <= _)%nat =>
        pose proof (pdg_trace_length fuel a direction pdgc 100 l g0) as Hlen
    end.
    cbn [counterloop] in Hlen. lia.
Qed.

End BoundedWalkMore.

(** ** The scan of the maximum path lengths *)

Section ScanMore.

Context {G : Type} {TG : TGeoManager G} {FO : FloatOps} {PU : PDGUtils}
        {R : Type} {TR : TRandom R}.

Import PathLengthList PathLengthListFacts.

(** *** It returns *)

Lemma scan_rays_returns (fuel : nat) (a : ROOTGeomAnalyzer G) f xyz pdgc :
  (forall g0 : G, exists gs, next_boundary fuel g0 = Done gs) ->
  forall n g (rnd : R) M,
    exists r, scan_rays n fuel a f xyz pdgc g rnd M = Done r.
Proof.
  intros Hnb. induction n as [|n IH]; intros g rnd M; simpl; [eauto|].
  destruct (Rndm rnd) as [u rnd1]. destruct (Rndm rnd1) as [v rnd2].
  destruct (Rndm rnd2) as [w rnd3].
  match goal with
  | |- context [ComputeMaxPathLengthPDG fuel a g xyz ?d pdgc] =>
      destruct (bounded_walk_done fuel a g xyz d pdgc Hnb)
        as (len & g' & ->)
  end.
  cbn [obind]. apply IH.
Qed.

Lemma scan_points_returns (fuel : nat) (a : ROOTGeomAnalyzer G) box f pdgc :
  (forall g0 : G, exists gs, next_boundary fuel g0 = Done gs) ->
  forall n g (rnd : R) M,
    exists r, scan_points n fuel a box f pdgc g rnd M = Done r.
Proof.
  intros Hnb. induction n as [|n IH]; intros g rnd M; simpl; [eauto|].
  destruct (Rndm rnd) as [u rnd1]. destruct (Rndm rnd1) as [v rnd2].
  match goal with
  | |- context [scan_rays ?k fuel a f ?xyz pdgc g rnd2 M] =>
      destruct (scan_rays_returns fuel a f xyz pdgc Hnb k g rnd2 M)
        as [[[g' rnd'] M'] ->]
  end.
  cbn [obind]. apply IH.
Qed.

Lemma scan_faces_returns (fuel : nat) (a : ROOTGeomAnalyzer G) box pdgc :
  (forall g0 : G, exists gs, next_boundary fuel g0 = Done gs) ->
  forall fs g (rnd : R) M,
    exists r, scan_faces fs fuel a box pdgc g rnd M = Done r.
Proof.
  intros Hnb. induction fs as [|f fs IH]; intros g rnd M; simpl; [eauto|].
  destruct (scan_points_returns fuel a box f pdgc Hnb
              (Z.to_nat (fNPoints a)) g rnd M) as [[[g' rnd'] M'] ->].
  cbn [obind]. apply IH.
Qed.

Lemma scan_materials_returns (fuel : nat) (a : ROOTGeomAnalyzer G) box :
  (forall g0 : G, exists gs, next_boundary fuel g0 = Done gs) ->
  forall codes g (rnd : R) pl,
    exists r, scan_materials codes fuel a box g rnd pl = Done r.
Proof.
  intros Hnb. induction codes as [|k codes IH]; intros g rnd pl;
    cbn [scan_materials]; [eauto|].
  destruct (scan_faces_returns fuel a box k Hnb faces g rnd 0)
    as [[[g' rnd'] M'] ->].
  cbn [obind]. apply IH.
Qed.

(** X5.  On an analyzer whose members are allocated and a navigator whose
    boundary searches all return, [ComputeMaxPathLengths] returns (it
    neither crashes nor runs on), whatever the geometry, the sample counts
    and the random sequence, and it emits no message. *)
Theorem ComputeMaxPathLengths_returns (fuel : nat) (a : ROOTGeomAnalyzer G)
    (rnd : R) :
  allocated a ->
  (forall g0 : G, exists gs, next_boundary fuel g0 = Done gs) ->
  exists a' rnd', ComputeMaxPathLengths fuel a rnd = Done (a', rnd', []).
Proof.
  intros ([g Hg] & [top Htop] & _ & [plm Hplm] & [codes Hcodes] & _) Hnb.
  unfold ComputeMaxPathLengths. rewrite Hg, Hplm, Htop, Hcodes.
  cbn [deref obind].
  destruct (scan_materials_returns fuel a (GetShape top) Hnb codes g rnd
              (SetAllToZero plm)) as [[[g' rnd'] pl'] ->].
  cbn [obind]. eauto.
Qed.

(** *** The draws it makes *)

Lemma after_draws_add (n k : nat) (rnd : R) :
  after_draws k (after_draws n rnd) = after_draws (n + k) rnd.
Proof.
  unfold after_draws. rewrite (Nat.add_comm n k). symmetry.
  apply Nat.iter_add.
Qed.

Lemma after_draws_S (n : nat) (rnd : R) :
  after_draws (S n) rnd = after_draws n (snd (Rndm rnd)).
Proof. unfold after_draws. rewrite Nat.iter_succ_r. reflexivity. Qed.

Lemma scan_rays_draws (fuel : nat) (a : ROOTGeomAnalyzer G) f xyz pdgc :
  forall n g (rnd : R) M g' rnd' M',
    scan_rays n fuel a f xyz pdgc g rnd M = Done (g', rnd', M') ->
    rnd' = after_draws (3 * n) rnd.
Proof.
  induction n as [|n IH]; intros g rnd M g' rnd' M' H; simpl in H.
  - inversion H; subst. reflexivity.
  - replace (3 * S n)%nat with (S (S (S (3 * n)))) by lia.
    rewrite !after_draws_S.
    destruct (Rndm rnd) as [u rnd1]. cbn [snd].
    destruct (Rndm rnd1) as [v rnd2]. cbn [snd].
    destruct (Rndm rnd2) as [w rnd3]. cbn [snd].
    done_inv H. destruct x as [len g1]. eapply IH; eauto.
Qed.

Lemma scan_points_draws (fuel : nat) (a : ROOTGeomAnalyzer G) box f pdgc :
  forall n g (rnd : R) M g' rnd' M',
    scan_points n fuel a box f pdgc g rnd M = Done (g', rnd', M') ->
    rnd' = after_draws (n * (2 + 3 * Z.to_nat (fNRays a))) rnd.
Proof.
  induction n as [|n IH]; intros g rnd M g' rnd' M' H; simpl in H.
  - inversion H; subst. reflexivity.
  - replace (S n * (2 + 3 * Z.to_nat (fNRays a)))%nat
      with (S (S (3 * Z.to_nat (fNRays a)
                  + n * (2 + 3 * Z.to_nat (fNRays a))))) by lia.
    rewrite !after_draws_S.
    destruct (Rndm rnd) as [u rnd1]. cbn [snd].
    destruct (Rndm rnd1) as [v rnd2]. cbn [snd].
    done_inv H. destruct x as [[g1 rnd3] M1].
    apply scan_rays_draws in H0. apply IH in H. subst.
    apply after_draws_add.
Qed.

Lemma scan_faces_draws (fuel : nat) (a : ROOTGeomAnalyzer G) box pdgc :
  forall fs g (rnd : R) M g' rnd' M',
    scan_faces fs fuel a box pdgc g rnd M = Done (g', rnd', M') ->
    rnd' = after_draws
             (length fs
              * (Z.to_nat (fNPoints a) * (2 + 3 * Z.to_nat (fNRays a))))
             rnd.
Proof.
  induction fs as [|f fs IH]; intros g rnd M g' rnd' M' H; simpl in H.
  - inversion H; subst. reflexivity.
  - done_inv H. destruct x as [[g1 rnd1] M1].
    apply scan_points_draws in H0. apply IH in H. subst.
    rewrite after_draws_add. reflexivity.
Qed.

Lemma scan_materials_draws (fuel : nat) (a : ROOTGeomAnalyzer G) box :
  forall codes g (rnd : R) pl g' rnd' pl',
    scan_materials codes fuel a box g rnd pl = Done (g', rnd', pl') ->
    rnd' = after_draws
             (length codes
              * (6 * (Z.to_nat (fNPoints a)
                      * (2 + 3 * Z.to_nat (fNRays a)))))
             rnd.
Proof.
  induction codes as [|k codes IH]; intros g rnd pl g' rnd' pl' H;
    cbn [scan_materials] in H.
  - inversion H; subst. reflexivity.
  - done_inv H. destruct x as [[g1 rnd1] M1].
    apply scan_faces_draws in H0. apply IH in H. subst.
    rewrite after_draws_add. reflexivity.
Qed.

(** X6.  A scan that returns has drawn from the random source exactly
    (number of listed codes) x 6 x points x (2 + 3 x rays) times, where
    negative sample counts count as 0: the geometry has no say in it. *)
Theorem ComputeMaxPathLengths_draws (fuel : nat) (a a' : ROOTGeomAnalyzer G)
    (rnd rnd' : R) (m : list Message) (g : G) (codes : list Z) :
  fGeometry a = Some g ->
  fCurrPDGCodeList a = Some codes ->
  ComputeMaxPathLengths fuel a rnd = Done (a', rnd', m) ->
  rnd' = after_draws
           (length codes
            * (6 * (Z.to_nat (fNPoints a) * (2 + 3 * Z.to_nat (fNRays a)))))
           rnd.
Proof.
  intros Hg Hcodes H. unfold ComputeMaxPathLengths in H. rewrite Hg in H.
  apply obind_Done in H as (pl & _ & H).
  apply obind_Done in H as (top & _ & H).
  apply obind_Done in H as (codes' & Hc & H).
  rewrite Hcodes in Hc. inversion Hc; subst codes'.
  apply obind_Done in H as ([[g1 rnd1] pl1] & Hscan & H).
  inversion H; subst.
  eapply scan_materials_draws; eauto.
Qed.

(** *** The record it leaves *)

Lemma scan_materials_record (fuel : nat) (a : ROOTGeomAnalyzer G) box :
  forall codes g (rnd : R) pl g' rnd' pl',
    scan_materials codes fuel a box g rnd pl = Done (g', rnd', pl') ->
    dom pl' = dom pl
    /\ (forall k, k ∉ codes -> pl' !! k = pl !! k)
    /\ ((forall k v, pl !! k = Some v -> 0 <= v) ->
        forall k v, pl' !! k = Some v -> 0 <= v).
Proof.
  induction codes as [|c codes IH]; intros g rnd pl g' rnd' pl' H;
    cbn [scan_materials] in H.
  - inversion H; subst. auto.
  - apply obind_Done in H as ([[g1 rnd1] M1] & Hf & H).
    apply scan_faces_mono in Hf.
    apply IH in H as (Hd & Hout & Hpos).
    split; [|split].
    + rewrite Hd. apply dom_AddPathLength.
    + intros k Hk. apply not_elem_of_cons in Hk as [Hne Hk].
      rewrite (Hout k Hk), lookup_AddPathLength.
      destruct (decide (c = k)); [congruence | reflexivity].
    + intros Hp. apply Hpos. intros k v. rewrite lookup_AddPathLength.
      destruct (decide (c = k)) as [->|_]; [|apply Hp].
      destruct (pl !! k) as [v0|] eqn:E; cbn; intros Hv; inversion Hv; subst.
      specialize (Hp k v0 E).
      replace 0 with (0 + 0) by reflexivity. by apply Qplus_le_compat.
Qed.

(** X7.  [ComputeMaxPathLengths] keeps the keys of the maximum record as
    they are, and an entry whose code is not in the list of target nuclei
    is left at zero. *)
Theorem ComputeMaxPathLengths_keys (fuel : nat) (a a' : ROOTGeomAnalyzer G)
    (rnd rnd' : R) (m : list Message) (g : G) (codes : list Z)
    (pl0 : gmap Z Q) :
  fGeometry a = Some g ->
  fCurrPDGCodeList a = Some codes ->
  fCurrMaxPathLengthList a = Some pl0 ->
  ComputeMaxPathLengths fuel a rnd = Done (a', rnd', m) ->
  exists pl',
    fCurrMaxPathLengthList a' = Some pl'
    /\ dom pl' = dom pl0
    /\ forall k v, k ∉ codes -> pl' !! k = Some v -> v == 0.
Proof.
  intros Hg Hcodes Hpl H. unfold ComputeMaxPathLengths in H.
  rewrite Hg, Hpl, Hcodes in H. cbn [deref obind] in H.
  apply obind_Done in H as (top & _ & H).
  apply obind_Done in H as ([[g1 rnd1] pl1] & Hscan & H).
  inversion H; subst. clear H.
  apply scan_materials_record in Hscan as (Hd & Hout & _).
  eexists. split; [reflexivity|]. split.
  - rewrite dom_ScalePathLengths, Hd. apply dom_SetAllToZero.
  - intros k v Hk. rewrite lookup_ScalePathLengths, (Hout k Hk).
    rewrite lookup_SetAllToZero.
    destruct (pl0 !! k); cbn; intros Hv; inversion Hv. ring.
Qed.

(** X8.  With a scale factor that is not negative, no entry of the record
    [ComputeMaxPathLengths] returns is negative: each scan starts its
    running maximum at zero. *)
Theorem ComputeMaxPathLengths_not_negative (fuel : nat)
    (a a' : ROOTGeomAnalyzer G) (rnd rnd' : R) (m : list Message) (g : G)
    (pl' : gmap Z Q) (k : Z) (v : Q) :
  0 <= fScale a ->
  fGeometry a = Some g ->
  ComputeMaxPathLengths fuel a rnd = Done (a', rnd', m) ->
  fCurrMaxPathLengthList a' = Some pl' ->
  pl' !! k = Some v ->
  0 <= v.
Proof.
  intros Hs Hg H Hpl' Hk. unfold ComputeMaxPathLengths in H.
  rewrite Hg in H.
  apply obind_Done in H as (pl0 & _ & H).
  apply obind_Done in H as (top & _ & H).
  apply obind_Done in H as (codes & _ & H).
  apply obind_Done in H as ([[g1 rnd1] pl1] & Hscan & H).
  inversion H; subst. clear H. cbn in Hpl'. inversion Hpl'; subst pl'.
  apply scan_materials_record in Hscan as (_ & _ & Hpos).
  rewrite lookup_ScalePathLengths in Hk.
  destruct (pl1 !! k) as [v1|] eqn:E; cbn in Hk; inversion Hk; subst.
  apply Qmult_le_0_compat; [|exact Hs].
  apply (Hpos ltac:(intros k' v'; rewrite lookup_SetAllToZero;
                    destruct (pl0 !! k'); cbn; intros Hv; inversion Hv;
                    apply Qle_refl) k v1 E).
Qed.

End ScanMore.

(** ** ComputePathLengths, further *)

Section PathLengthMore.

Context {G : Type} {TG : TGeoManager G} {FO : FloatOps} {PU : PDGUtils}
        {UN : Units}.

Import PathLengthList PathLengthListFacts.

(** X9.  [ComputePathLengths] keeps the keys of the record as they are:
    it adds no key and drops none, through either [return]. *)
Theorem ComputePathLengths_keys (fuel : nat) (a a' : ROOTGeomAnalyzer G)
    (x p : TLorentzVector) (site : ReturnSite) (m : list Message)
    (pl0 : gmap Z Q) :
  fCurrPathLengthList a = Some pl0 ->
  ComputePathLengths fuel a x p = Done (a', site, m) ->
  exists pl', fCurrPathLengthList a' = Some pl' /\ dom pl' = dom pl0.
Proof.
  intros Hpl H. unfold ComputePathLengths in H. rewrite Hpl in H.
  cbn [deref obind] in H.
  apply obind_Done in H as (g & _ & H).
  apply obind_Done in H as ([e m'] & Hrun & H).
  apply cpl_while_dom in Hrun. rewrite dom_SetAllToZero in Hrun.
  destruct e as [g1 pl1|g1 pl1]; inversion H; subst; eexists;
    (split; [reflexivity|]); [rewrite dom_ScalePathLengths|]; exact Hrun.
Qed.

(** X10.  Whenever [ComputePathLengths] returns through the
    [WillNeverEnter] return, at whatever trip of its loop, it has
    attributed no segment, and the record it hands back has the keys it
    had, all at zero. *)
Theorem ComputePathLengths_never_entered (fuel : nat)
    (a a' : ROOTGeomAnalyzer G) (x p : TLorentzVector) (m : list Message) :
  ComputePathLengths fuel a x p = Done (a', ReturnNeverEnters, m) ->
  segments m = []
  /\ exists pl0,
       fCurrPathLengthList a = Some pl0
       /\ fCurrPathLengthList a' = Some (SetAllToZero pl0).
Proof.
  unfold ComputePathLengths. intros H.
  apply obind_Done in H as (pl0 & Hpl & H). apply deref_Done in Hpl.
  apply obind_Done in H as (g & _ & H).
  apply obind_Done in H as ([e m'] & Hrun & H).
  destruct e as [g1 pl1|g1 pl1]; inversion H; subst.
  split.
  - eapply cpl_while_never_segments; eauto.
  - apply cpl_while_returns_untouched in Hrun. subst pl1. eauto.
Qed.

(** *** The scale factor *)

(** X11.  Changing the units with [SetUnits] changes neither the walk of
    [ComputePathLengths] (the same messages, the same [return], the same
    navigator state) nor the proportions of the record: each entry is the
    old entry with the new scale factor in place of the old one. *)
Theorem ComputePathLengths_units (fuel : nat) (u : Q)
    (a a1 : ROOTGeomAnalyzer G) (x p : TLorentzVector) (site : ReturnSite)
    (m : list Message) :
  ComputePathLengths fuel a x p = Done (a1, site, m) ->
  exists a2,
    ComputePathLengths fuel (SetUnits u a) x p = Done (a2, site, m)
    /\ fGeometry a2 = fGeometry a1
    /\ forall pl1 pl2 k,
         fCurrPathLengthList a1 = Some pl1 ->
         fCurrPathLengthList a2 = Some pl2 ->
         match pl1 !! k, pl2 !! k with
         | Some v1, Some v2 => v2 * fScale a == v1 * (u / meter)
         | None, None => True
         | _, _ => False
         end.
Proof.
  unfold ComputePathLengths. intros H.
  cbn [fCurrPathLengthList fGeometry SetUnits].
  apply obind_Done in H as (pl0 & Hpl & H). rewrite Hpl. cbn [obind].
  apply obind_Done in H as (g & Hg & H). rewrite Hg. cbn [obind].
  apply obind_Done in H as ([e m'] & Hrun & H).
  rewrite <- (cpl_while_ext fuel fuel a (SetUnits u a) p eq_refl), Hrun.
  cbn [obind].
  destruct e as [g1 pl1|g1 pl1].
  - inversion H; subst; clear H.
    eexists; (split; [reflexivity|]); (split; [reflexivity|]).
    intros q1 q2 k E1 E2; cbn in E1, E2; inversion E1; inversion E2; subst.
    rewrite !lookup_ScalePathLengths. cbn [fScale SetUnits].
    destruct (pl1 !! k); cbn; [ring | exact I].
  - apply cpl_while_returns_untouched in Hrun as ->.
    inversion H; subst; clear H.
    eexists; (split; [reflexivity|]); (split; [reflexivity|]).
    intros q1 q2 k E1 E2; cbn in E1, E2; inversion E1; inversion E2; subst.
    rewrite lookup_SetAllToZero. destruct (pl0 !! k); cbn; [ring | exact I].
Qed.

End PathLengthMore.

(** ** Where a ray walk can and cannot crash *)

Lemma obind_Crash {A B} (m : outcome A) (f : A -> outcome B) :
  obind m f = Crash -> m = Crash \/ exists a, m = Done a /\ f a = Crash.
Proof. destruct m; simpl; intros; [eauto | auto | discriminate]. Qed.

Section WalkSafety.

Context {G : Type} {TG : TGeoManager G} {FO : FloatOps} {PU : PDGUtils}.

Lemma step_while_not_entering_no_crash (fuel : nat) :
  forall (g : G) (s : Q), step_while_not_entering fuel g s <> Crash.
Proof.
  induction fuel as [|n IH]; intros g s; simpl;
    destruct (IsEntering g); try discriminate. apply IH.
Qed.

Lemma next_boundary_no_crash (fuel : nat) (g : G) :
  next_boundary fuel g <> Crash.
Proof. apply step_while_not_entering_no_crash. Qed.

Lemma cpl_seek_entry_no_crash (fuel : nat) :
  forall (g : G) (s : Q), cpl_seek_entry fuel g s <> Crash.
Proof.
  induction fuel as [|n IH]; intros g s; simpl;
    destruct (IsEntering g); try discriminate.
  destruct (WillNeverEnter _); [discriminate|].
  intros H. apply obind_Crash in H as [H|([sk m] & _ & H)];
    [by apply IH in H | discriminate].
Qed.

Lemma cpl_elements_no_crash fuel (a : ROOTGeomAnalyzer G) p mat :
  forall eles l g pl, cpl_elements fuel a p mat eles l g pl <> Crash.
Proof.
  induction eles as [|ele eles IH]; intros l g pl; cbn [cpl_elements];
    [discriminate|].
  intros H. apply obind_Crash in H as [H|([g1 s] & _ & H)];
    [by apply next_boundary_no_crash in H|].
  destruct (advance 0 1 2 s p (r l)) as [r' mr].
  apply obind_Crash in H as [H|([[[l2 g2] pl2] m2] & _ & H)];
    [by apply IH in H | discriminate].
Qed.

Lemma cpl_inside_no_crash fuel (a : ROOTGeomAnalyzer G) p v l g pl :
  cpl_inside fuel a p (Some v) l g pl <> Crash.
Proof.
  unfold cpl_inside. destruct (condition l); [|discriminate].
  cbn [deref obind].
  destruct (GetMedium v) as [med|]; [|discriminate].
  destruct (GetMaterial med) as [mat|]; [|discriminate].
  destruct (IsMixture mat); [apply cpl_elements_no_crash|].
  intros H. apply obind_Crash in H as [H|([g1 s] & _ & H)];
    [by apply next_boundary_no_crash in H|].
  destruct (advance 0 1 2 s p _). discriminate.
Qed.

Lemma cpl_body_no_crash fuel (a : ROOTGeomAnalyzer G) p l g pl :
  (forall g0 : G, is_Some (GetCurrentVolume g0)) ->
  cpl_body fuel a p l g pl <> Crash.
Proof.
  intros Hvol. unfold cpl_body.
  cbn [FlagNotInYet condition step r].
  destruct (Hvol (FindNode (TVector3_xyz (r l))
                    (SetCurrentPoint (TVector3_xyz (r l)) g))) as [v ->].
  cbn [deref obind].
  destruct (IsOutside _ || _).
  - destruct (negb _); [discriminate|].
    intros H. apply obind_Crash in H as [H|([sk ms] & _ & H)];
      [by apply cpl_seek_entry_no_crash in H|].
    destruct sk as [g1 s|g1]; [|discriminate].
    destruct (advance 0 1 2 s p (r l)) as [r' mr].
    apply obind_Crash in H as [H|([[[l2 g2] pl2] m2] & _ & H)];
      [by apply cpl_inside_no_crash in H | discriminate].
  - intros H. apply obind_Crash in H as [H|([[[l2 g2] pl2] m2] & _ & H)];
      [by apply cpl_inside_no_crash in H | discriminate].
Qed.

Lemma cpl_while_no_crash inner fuel (a : ROOTGeomAnalyzer G) p :
  (forall g0 : G, is_Some (GetCurrentVolume g0)) ->
  forall l g pl, cpl_while inner fuel a p l g pl <> Crash.
Proof.
  intros Hvol. induction fuel as [|n IH]; intros l g pl; simpl;
    destruct ((FlagNotInYet l =? 0)%Z || condition l); try discriminate.
  intros H. apply obind_Crash in H as [H|([fl m] & _ & H)];
    [by apply cpl_body_no_crash in H|].
  destruct fl as [l1 g1 pl1|l1 g1 pl1|g1 pl1]; try discriminate.
  apply obind_Crash in H as [H|([e m'] & _ & H)];
    [by apply IH in H | discriminate].
Qed.

(** In a volume without medium, or whose medium has no material, a trip
    attributes nothing, does not move, and leaves the loop to end. *)
Lemma cpl_body_no_material inner (a : ROOTGeomAnalyzer G) p l g pl v :
  IsOutside (positioned l g) = false ->
  GetCurrentVolume (positioned l g) = Some v ->
  volume_codes v = None ->
  exists l',
    cpl_body inner a p l g pl
    = Done (Continue l' (positioned l g) pl,
            [MsgPosition (r l) (FlagNotInYet l)])
    /\ FlagNotInYet l' <> 0%Z
    /\ condition l' = false.
Proof.
  intros Hin Hvol Hbare. unfold cpl_body.
  cbn [FlagNotInYet condition step r]. fold (positioned l g).
  rewrite Hvol, Hin. cbn [deref obind].
  rewrite bool_decide_eq_true_2 by eauto. cbn [negb orb].
  unfold cpl_inside. cbn [FlagNotInYet condition step r deref obind].
  assert (Hflag : FlagNotInYet
                    (if (FlagNotInYet l =? 0)%Z
                     then mkLocals 1 true (step l) (r l)
                     else mkLocals (FlagNotInYet l) true (step l) (r l))
                  <> 0%Z).
  { destruct (FlagNotInYet l =? 0)%Z eqn:E; cbn; [lia|].
    by apply Z.eqb_neq in E. }
  unfold volume_codes in Hbare.
  destruct (GetMedium v) as [med|]; cbn in Hbare.
  - destruct (GetMaterial med) as [mat|]; [discriminate|].
    cbn [obind]. eexists. split; [reflexivity|]. split; [exact Hflag|].
    reflexivity.
  - cbn [obind]. eexists. split; [reflexivity|]. split; [exact Hflag|].
    reflexivity.
Qed.

(** X12.  With its record and its geometry allocated,
    [ComputePathLengths] does not crash on a navigator that reports a
    current volume wherever it is asked: a volume without medium, or a
    medium without material, is tested for, not dereferenced.  At such a
    volume (the navigator not being outside) the walk ends, at whatever
    trip it comes to it: the call returns through its last [return] with
    what it had accumulated before (rescaled), the point in that volume
    being the last it probes; what lies behind the volume on the ray is
    not attributed. *)
Theorem ComputePathLengths_no_crash (fuel : nat) (a : ROOTGeomAnalyzer G)
    (x p : TLorentzVector) (g : G) (pl0 : gmap Z Q) :
  fCurrPathLengthList a = Some pl0 ->
  fGeometry a = Some g ->
  ((forall g0 : G, is_Some (GetCurrentVolume g0)) ->
   ComputePathLengths fuel a x p <> Crash)
  /\ (forall (j : nat) (l : Locals) (gj : G) (plj : gmap Z Q)
             (v : TGeoVolume),
        cpl_state_after fuel j a p (cpl_start x)
          (SetCurrentDirection (direction_of p) g)
          (PathLengthList.SetAllToZero pl0) = Some (l, gj, plj) ->
        (FlagNotInYet l =? 0)%Z || condition l = true ->
        IsOutside (positioned l gj) = false ->
        GetCurrentVolume (positioned l gj) = Some v ->
        volume_codes v = None ->
        (j < fuel)%nat ->
        exists m,
          ComputePathLengths fuel a x p
          = Done (set_fCurrPathLengthList (Some (ScalePathLengths a plj))
                    (set_fGeometry (Some (positioned l gj)) a),
                  ReturnEnd, m)
          /\ last (positions m) = Some (r l)).
Proof.
  intros Hpl Hg. split.
  - intros Hvol. unfold ComputePathLengths.
    rewrite Hpl, Hg. cbn [deref obind].
    intros H. apply obind_Crash in H as [H|([e m] & _ & H)].
    + by apply cpl_while_no_crash in H.
    + destruct e; discriminate.
  - intros j l gj plj v Hafter Hcond Hin Hvol Hbare Hj.
    destruct (cpl_while_after _ _ _ _ _ _ _ _ _ _ Hafter) as [mj Hmj].
    specialize (Hmj (S (fuel - S j))).
    replace (j + S (fuel - S j))%nat with fuel in Hmj by lia.
    destruct (cpl_body_no_material fuel a p l gj plj v Hin Hvol Hbare)
      as (l' & Hb & Hflag & Hc).
    unfold ComputePathLengths. rewrite Hpl, Hg. cbn [deref obind].
    fold (cpl_start x). rewrite Hmj.
    cbn [cpl_while]. rewrite Hcond, Hb. cbn [obind].
    assert (Hend : forall n,
               cpl_while fuel n a p l' (positioned l gj) plj
               = Done (LoopEnd (positioned l gj) plj, [])).
    { apply Z.eqb_neq in Hflag.
      intros [|n]; cbn [cpl_while]; rewrite Hflag, Hc; reflexivity. }
    rewrite Hend. cbn [obind].
    eexists. split; [reflexivity|].
    rewrite app_nil_r, positions_app. apply last_snoc.
Qed.

(** X13.  When the navigator has no current volume at the starting point,
    [ComputePathLengths] crashes: the name of the volume is read for the
    log before the test [!vol]. *)
Theorem ComputePathLengths_null_volume (fuel : nat)
    (a : ROOTGeomAnalyzer G) (x p : TLorentzVector) (g : G)
    (pl : gmap Z Q) :
  fCurrPathLengthList a = Some pl ->
  fGeometry a = Some g ->
  let x0 := mkTVector3 (lvX x) (lvY x) (lvZ x) in
  GetCurrentVolume
    (FindNode x0 (SetCurrentPoint x0
       (SetCurrentDirection (direction_of p) g))) = None ->
  ComputePathLengths (S fuel) a x p = Crash.
Proof.
  intros Hpl Hg x0 Hvol. unfold ComputePathLengths.
  rewrite Hpl, Hg. cbn [deref obind].
  cbn [cpl_while FlagNotInYet condition Z.eqb orb].
  unfold cpl_body. cbn [FlagNotInYet condition step r].
  rewrite TVector3_xyz_id. fold x0. rewrite Hvol. reflexivity.
Qed.

(** *** Indices *)

Lemma advance_012_messages (d : Q) (p : TLorentzVector) (v : TVector3) :
  snd (advance 0 1 2 d p v) = [].
Proof. reflexivity. Qed.

Lemma cpl_elements_indices fuel (a : ROOTGeomAnalyzer G) p mat :
  forall eles l g pl l' g' pl' m,
    cpl_elements fuel a p mat eles l g pl = Done (l', g', pl', m) ->
    bad_indices m = [].
Proof.
  induction eles as [|ele eles IH]; intros l g pl l' g' pl' m H;
    cbn [cpl_elements] in H.
  - inversion H. reflexivity.
  - apply obind_Done in H as ([g1 s] & _ & H).
    pose proof (advance_012_messages s p (r l)) as Hadv.
    destruct (advance 0 1 2 s p (r l)) as [r' mr]. cbn [snd] in Hadv.
    subst mr.
    apply obind_Done in H as ([[[l2 g2] pl2] m2] & Hrec & H).
    inversion H; subst. cbn [app]. apply IH in Hrec. exact Hrec.
Qed.

Lemma cpl_inside_indices fuel (a : ROOTGeomAnalyzer G) p vol l g pl
    l' g' pl' m :
  cpl_inside fuel a p vol l g pl = Done (l', g', pl', m) ->
  bad_indices m = [].
Proof.
  unfold cpl_inside. destruct (condition l); [|by inversion 1].
  intros H. apply obind_Done in H as (v & _ & H).
  destruct (GetMedium v) as [med|]; [|by inversion H].
  destruct (GetMaterial med) as [mat|]; [|by inversion H].
  destruct (IsMixture mat); [by eapply cpl_elements_indices|].
  apply obind_Done in H as ([g1 s] & _ & H).
  pose proof (advance_012_messages s p
                (r (if (FlagNotInYet l =? 0)%Z
                    then mkLocals 1 true (step l) (r l) else l))) as Hadv.
  destruct (advance 0 1 2 s p _) as [r' mr]. cbn [snd] in Hadv. subst mr.
  inversion H. reflexivity.
Qed.

Lemma cpl_body_indices fuel (a : ROOTGeomAnalyzer G) p l g pl fl m :
  cpl_body fuel a p l g pl = Done (fl, m) -> bad_indices m = [].
Proof.
  unfold cpl_body. cbn [FlagNotInYet condition step r]. intros H.
  apply obind_Done in H as (v0 & _ & H).
  destruct (IsOutside _ || _).
  - destruct (negb _); [by inversion H|].
    apply obind_Done in H as ([sk ms] & Hseek & H).
    apply cpl_seek_entry_messages in Hseek as [_ Hbad].
    destruct sk as [g1 s|g1].
    + pose proof (advance_012_messages s p (r l)) as Hadv.
      destruct (advance 0 1 2 s p (r l)) as [r' mr]. cbn [snd] in Hadv.
      subst mr.
      apply obind_Done in H as ([[[l2 g2] pl2] mi] & Hin & H).
      apply cpl_inside_indices in Hin. inversion H; subst.
      change (bad_indices ([MsgPosition (r l) (FlagNotInYet l)]
                           ++ ms ++ [] ++ mi) = []).
      rewrite !bad_indices_app, Hbad, Hin. reflexivity.
    + inversion H; subst.
      change (bad_indices ([MsgPosition (r l) (FlagNotInYet l)] ++ ms) = []).
      rewrite bad_indices_app, Hbad. reflexivity.
  - apply obind_Done in H as ([[[l2 g2] pl2] mi] & Hin & H).
    apply cpl_inside_indices in Hin. inversion H; subst. exact Hin.
Qed.

Lemma cpl_while_indices inner fuel (a : ROOTGeomAnalyzer G) p :
  forall l g pl e m,
    cpl_while inner fuel a p l g pl = Done (e, m) -> bad_indices m = [].
Proof.
  induction fuel as [|n IH]; intros l g pl e m H; simpl in H;
    destruct ((FlagNotInYet l =? 0)%Z || condition l);
    try discriminate; try (by inversion H).
  apply obind_Done in H as ([fl m1] & Hb & H).
  apply cpl_body_indices in Hb.
  destruct fl as [l1 g1 pl1|l1 g1 pl1|g1 pl1];
    try (inversion H; subst; exact Hb).
  apply obind_Done in H as ([e' m'] & Hrec & H). inversion H; subst.
  rewrite bad_indices_app, Hb. cbn [app]. eapply IH; eauto.
Qed.

(** X14.  [ComputePathLengths] advances its position through the indices
    0, 1, 2 only: no run of it makes ROOT report a bad index. *)
Theorem ComputePathLengths_indices (fuel : nat) (a a' : ROOTGeomAnalyzer G)
    (x p : TLorentzVector) (site : ReturnSite) (m : list Message) :
  ComputePathLengths fuel a x p = Done (a', site, m) ->
  bad_indices m = [].
Proof.
  unfold ComputePathLengths. intros H.
  apply obind_Done in H as (pl0 & _ & H).
  apply obind_Done in H as (g & _ & H).
  apply obind_Done in H as ([e m'] & Hrun & H).
  apply cpl_while_indices in Hrun.
  destruct e; inversion H; subst; exact Hrun.
Qed.

End WalkSafety.

(** ** GenerateVertex, further *)

Section VertexMore.

Context {G : Type} {TG : TGeoManager G} {FO : FloatOps} {PU : PDGUtils}
        {R : Type} {TR : TRandom R}.





End VertexMore.

(** ** Loading *)

Section LoadingFacts.

Context {G : Type} {TG : TGeoManager G} {TC : TGeoCatalog G}
        {TS : TSystem G} {FO : FloatOps} {PU : PDGUtils} {UN : Units}.

Import PathLengthList PathLengthListFacts.

Lemma push_elements_app (eles : list TGeoElement) :
  forall codes,
    push_elements codes eles
    = codes ++ (GetTargetPdgCode_element <$> eles).
Proof.
  unfold push_elements.
  induction eles as [|e eles IH]; intros codes; cbn [foldl fmap list_fmap].
  - by rewrite app_nil_r.
  - rewrite IH. unfold PDGCodeList.push_back. by rewrite <- app_assoc.
Qed.

Lemma push_volume_Done (v : TGeoVolume) (codes codes' : list Z) :
  push_volume v codes = Done codes' ->
  exists cs, volume_codes v = Some cs /\ codes' = codes ++ cs.
Proof.
  unfold push_volume, volume_codes. intros H.
  apply obind_Done in H as (med & Hmed & H). apply deref_Done in Hmed.
  apply obind_Done in H as (mat & Hmat & H). apply deref_Done in Hmat.
  rewrite Hmed. cbn. rewrite Hmat. cbn.
  destruct (IsMixture mat); inversion H; subst; eexists;
    (split; [reflexivity|]).
  - apply push_elements_app.
  - reflexivity.
Qed.

Lemma push_volume_Crash (v : TGeoVolume) (codes : list Z) :
  volume_codes v = None -> push_volume v codes = Crash.
Proof.
  unfold push_volume, volume_codes.
  destruct (GetMedium v) as [med|]; [|reflexivity]. cbn.
  destruct (GetMaterial med) as [mat|]; [|reflexivity]. cbn. discriminate.
Qed.

Lemma push_volume_not_OutOfFuel (v : TGeoVolume) (codes : list Z) :
  push_volume v codes <> OutOfFuel.
Proof.
  unfold push_volume.
  destruct (GetMedium v) as [med|]; [|discriminate]. cbn.
  destruct (GetMaterial med) as [mat|]; [|discriminate]. cbn.
  destruct (IsMixture mat); discriminate.
Qed.

Lemma build_volumes_Done (vl : TObjArray) :
  forall n ivol codes codes' m,
    build_volumes n ivol vl codes = Done (codes', m) ->
    codes' = codes ++ (entries_from n ivol vl ≫= entry_codes)
    /\ m = entries_from n ivol vl ≫= entry_warning
    /\ forall v, Some v ∈ entries_from n ivol vl ->
                 is_Some (volume_codes v).
Proof.
  induction n as [|n IH]; intros ivol codes codes' m H;
    cbn [build_volumes entries_from] in *.
  - inversion H; subst. rewrite app_nil_r.
    repeat split. intros v Hin. inversion Hin.
  - destruct (At vl ivol) as [v|] eqn:Eat.
    + apply obind_Done in H as (codes1 & Hpush & H).
      apply push_volume_Done in Hpush as (cs & Hcs & ->).
      apply IH in H as (-> & -> & Hall).
      cbn. rewrite Hcs. cbn. rewrite <- app_assoc.
      repeat split. intros v' Hin.
      apply elem_of_cons in Hin as [E|Hin]; [|by apply Hall].
      inversion E; subst. eauto.
    + apply obind_Done in H as ([codes1 m1] & Hrec & H).
      inversion H; subst. apply IH in Hrec as (-> & -> & Hall).
      cbn. repeat split. intros v' Hin.
      apply elem_of_cons in Hin as [E|Hin]; [discriminate | by apply Hall].
Qed.

Lemma build_volumes_Crash (vl : TObjArray) (v : TGeoVolume) :
  volume_codes v = None ->
  forall n ivol codes,
    Some v ∈ entries_from n ivol vl ->
    build_volumes n ivol vl codes = Crash.
Proof.
  intros Hbad. induction n as [|n IH]; intros ivol codes Hin;
    cbn [build_volumes entries_from] in *.
  - inversion Hin.
  - apply elem_of_cons in Hin as [E|Hin].
    + rewrite <- E. by rewrite push_volume_Crash.
    + destruct (At vl ivol) as [v1|].
      * destruct (push_volume v1 codes) as [codes1| |] eqn:Ep;
          cbn [obind]; [by apply IH | reflexivity|].
        by apply push_volume_not_OutOfFuel in Ep.
      * by rewrite IH.
Qed.

Lemma BuildListOfTargetNuclei_Done (a a' : ROOTGeomAnalyzer G) (g : G)
    (vl : TObjArray) (m : list Message) :
  fGeometry a = Some g ->
  GetListOfVolumes g = Some vl ->
  BuildListOfTargetNuclei a = Done (a', m) ->
  fCurrPDGCodeList a' = Some (listed vl ≫= entry_codes)
  /\ m = listed vl ≫= entry_warning
  /\ forall v, Some v ∈ listed vl -> is_Some (volume_codes v).
Proof.
  unfold BuildListOfTargetNuclei. cbn [fGeometry set_fCurrPDGCodeList].
  intros -> -> H.
  apply obind_Done in H as ([codes m'] & Hb & H).
  apply build_volumes_Done in Hb as (-> & -> & Hall).
  inversion H; subst. auto.
Qed.

(** X16.  [BuildListOfTargetNuclei], when it returns on a geometry with a
    volume list, has replaced the list of codes by the codes of the listed
    volumes in the order of the list, a volume listed twice contributing
    twice; it has warned once for each empty entry, and every listed
    volume has a medium with a material. *)
Theorem BuildListOfTargetNuclei_codes (a a' : ROOTGeomAnalyzer G) (g : G)
    (vl : TObjArray) (m : list Message) :
  fGeometry a = Some g ->
  GetListOfVolumes g = Some vl ->
  BuildListOfTargetNuclei a = Done (a', m) ->
  fCurrPDGCodeList a' = Some (listed vl ≫= entry_codes)
  /\ m = listed vl ≫= entry_warning
  /\ forall v, Some v ∈ listed vl -> is_Some (volume_codes v).
Proof.
  intros Hg Hvl H.
  destruct (BuildListOfTargetNuclei_Done a a' g vl m Hg Hvl H)
    as (Hcodes & Hm & Hall).
  split; [exact Hcodes|]. split; [exact Hm | exact Hall].
Qed.

(** X17.  A listed volume without medium, or whose medium has no
    material, makes [BuildListOfTargetNuclei] crash, and with it [Load]:
    the loader reads [volume->GetMedium()->GetMaterial()] unchecked, where
    the ray walks test both pointers. *)
Theorem Load_unchecked_medium (a : ROOTGeomAnalyzer G) (g : G)
    (vl : TObjArray) (v : TGeoVolume) :
  GetListOfVolumes g = Some vl ->
  Some v ∈ listed vl ->
  volume_codes v = None ->
  BuildListOfTargetNuclei (set_fGeometry (Some g) a) = Crash
  /\ Load_gm (Some g) a = Crash.
Proof.
  intros Hvl Hin Hbad.
  assert (BuildListOfTargetNuclei (set_fGeometry (Some g) a) = Crash) as E.
  { unfold BuildListOfTargetNuclei. cbn [fGeometry set_fCurrPDGCodeList
      set_fGeometry]. rewrite Hvl.
    rewrite (build_volumes_Crash vl v Hbad _ _ _ Hin). reflexivity. }
  split; [exact E|].
  unfold Load_gm. cbn [fGeometry set_fGeometry deref obind].
  rewrite E. reflexivity.
Qed.

Lemma BuildListOfTargetNuclei_frame (a a' : ROOTGeomAnalyzer G) m :
  BuildListOfTargetNuclei a = Done (a', m) ->
  is_Some (fCurrPDGCodeList a')
  /\ fGeometry a' = fGeometry a /\ fScale a' = fScale a
  /\ fNPoints a' = fNPoints a /\ fNRays a' = fNRays a
  /\ fDensWeight a' = fDensWeight a.
Proof.
  unfold BuildListOfTargetNuclei. cbn [fGeometry set_fCurrPDGCodeList].
  destruct (fGeometry a) as [g|] eqn:Eg.
  - destruct (GetListOfVolumes g) as [vl|].
    + intros H. apply obind_Done in H as ([codes m'] & _ & H).
      inversion H; subst. cbn. rewrite Eg. eauto 10.
    + intros H. inversion H; subst. cbn. rewrite Eg. eauto 10.
  - intros H. inversion H; subst. cbn. rewrite Eg. eauto 10.
Qed.

Lemma Load_gm_Done (gm : option G) (a a' : ROOTGeomAnalyzer G) m :
  Load_gm gm a = Done (a', m) ->
  exists g codes top a1 m1,
    gm = Some g
    /\ BuildListOfTargetNuclei (set_fGeometry gm a) = Done (a1, m1)
    /\ fCurrPDGCodeList a1 = Some codes
    /\ GetTopVolume g = Some top
    /\ m = m1 ++ [no_top_volume_msg]
    /\ a' = set_fTopVolume (Some top)
              (set_fCurrVertex (Some (mkTVector3 0 0 0))
                 (set_fCurrMaxPathLengthList (Some (create codes))
                    (set_fCurrPathLengthList (Some (create codes)) a1))).
Proof.
  unfold Load_gm. cbn [fGeometry set_fGeometry]. intros H.
  apply obind_Done in H as (g & Hg & H). apply deref_Done in Hg.
  apply obind_Done in H as ([a1 m1] & Hb & H).
  apply obind_Done in H as (codes & Hc & H). apply deref_Done in Hc.
  pose proof (BuildListOfTargetNuclei_frame _ _ _ Hb) as (_ & Hg1 & _).
  cbn [fGeometry set_fGeometry] in Hg1.
  cbn [fGeometry set_fCurrVertex set_fCurrMaxPathLengthList
       set_fCurrPathLengthList set_fTopVolume fTopVolume] in H.
  rewrite Hg1, Hg in H. cbn [deref obind] in H.
  destruct (GetTopVolume g) as [top|] eqn:Etop; [|discriminate].
  cbn [deref obind] in H. inversion H; subst.
  exists g, codes, top, a1, m1. auto 10.
Qed.

(** X18.  A [Load] that returns leaves every pointer member allocated:
    the given geometry, its top volume, the vertex at the origin, and two
    records whose keys are the listed codes, all at zero.  Scale, sample
    counts and the weighting flag are as they were, and the last line it
    logs is the pFATAL line about the top volume, which no test guards. *)
Theorem Load_allocates (gm : option G) (a a' : ROOTGeomAnalyzer G)
    (m : list Message) :
  Load_gm gm a = Done (a', m) ->
  allocated a'
  /\ fGeometry a' = gm
  /\ fCurrVertex a' = Some (mkTVector3 0 0 0)
  /\ (exists codes,
        fCurrPDGCodeList a' = Some codes
        /\ fCurrPathLengthList a' = Some (create codes)
        /\ fCurrMaxPathLengthList a' = Some (create codes))
  /\ (fScale a', fNPoints a', fNRays a', fDensWeight a')
     = (fScale a, fNPoints a, fNRays a, fDensWeight a)
  /\ last m = Some no_top_volume_msg.
Proof.
  intros H.
  apply Load_gm_Done in H
    as (g & codes & top & a1 & m1 & -> & Hb & Hc & Htop & -> & ->).
  apply BuildListOfTargetNuclei_frame in Hb
    as (_ & Hg & Hs & Hp & Hr & Hw).
  cbn [fGeometry set_fGeometry fScale fNPoints fNRays fDensWeight] in *.
  unfold allocated. cbn. rewrite Hg, Hc, Hs, Hp, Hr, Hw.
  repeat split; eauto. apply last_snoc.
Qed.

Lemma lookup_create (codes : list Z) (k : Z) :
  k ∈ codes -> create codes !! k = Some 0.
Proof.
  unfold create. induction codes as [|c codes IH]; intros Hin.
  - inversion Hin.
  - cbn. destruct (decide (c = k)) as [->|Hne].
    + by rewrite lookup_insert_eq.
    + rewrite lookup_insert_ne by done. apply IH.
      apply elem_of_cons in Hin as [E|Hin]; [congruence | done].
Qed.

Lemma dom_create (codes : list Z) :
  dom (create codes) = list_to_set codes.
Proof.
  unfold create. induction codes as [|c codes IH]; cbn.
  - apply dom_empty_L.
  - rewrite dom_insert_L, IH. reflexivity.
Qed.

(** X19.  After a [Load] that returns, every code of every listed volume
    is a key of both records, and the records have no other key: a ray
    walk can add to the entry of any material the list knows. *)
Theorem Load_covers_the_list (g : G) (a a' : ROOTGeomAnalyzer G)
    (vl : TObjArray) (m : list Message) :
  GetListOfVolumes g = Some vl ->
  Load_gm (Some g) a = Done (a', m) ->
  exists pl,
    fCurrPathLengthList a' = Some pl
    /\ fCurrMaxPathLengthList a' = Some pl
    /\ forall k,
         k ∈ dom pl
         <-> exists v cs,
               Some v ∈ listed vl /\ volume_codes v = Some cs /\ k ∈ cs.
Proof.
  intros Hvl H.
  apply Load_gm_Done in H
    as (g0 & codes & top & a1 & m1 & Eg & Hb & Hc & Htop & -> & ->).
  inversion Eg; subst g0.
  apply (BuildListOfTargetNuclei_Done _ _ g vl) in Hb
    as (Hcodes & _ & Hall); [|reflexivity | exact Hvl].
  rewrite Hc in Hcodes. inversion Hcodes; subst codes.
  eexists. split; [reflexivity|]. split; [reflexivity|].
  intros k. rewrite dom_create, elem_of_list_to_set, list_elem_of_bind.
  split.
  - intros (o & Hk & Ho). destruct o as [v|]; [|inversion Hk].
    destruct (Hall v Ho) as [cs Hcs]. cbn in Hk. rewrite Hcs in Hk.
    eauto.
  - intros (v & cs & Hin & Hcs & Hk). exists (Some v).
    split; [|exact Hin]. cbn. rewrite Hcs. exact Hk.
Qed.

(** X20.  The constructor from a file name returns without an exception
    when the file cannot be accessed: it logs one pERROR line and leaves
    the object as [Initialize] made it, so that asking it for the list of
    target nuclei, or for the path lengths of a ray, crashes. *)
Theorem constructor_of_missing_file (filename : string)
    (raw : ROOTGeomAnalyzer G) :
  AccessPathName filename = true ->
  ROOTGeomAnalyzer_of_file filename raw
  = Done (Initialize raw, [no_file_msg])
  /\ ListOfTargetNuclei (Initialize raw) = Crash
  /\ forall fuel x p, ComputePathLengths fuel (Initialize raw) x p = Crash.
Proof.
  intros Hacc. unfold ROOTGeomAnalyzer_of_file, Load_file.
  rewrite Hacc. repeat split.
Qed.

(** X21.  A call of [SetTopVolName] with a name the geometry does not know,
    after a call with a name it knows, keeps the volume of the first call
    as top volume and leaves the stored name empty: name and volume no
    longer go together. *)
Theorem SetTopVolName_unknown_after_known (known unknown : string)
    (a a1 : Named G) (g : G) (gvol : TGeoVolume) (m1 : list Message) :
  fGeometry (base a) = Some g ->
  GetVolume known g = Some gvol ->
  GetVolume unknown g = None ->
  SetTopVolName known a = Done (a1, m1) ->
  fTopVolumeName a1 = known
  /\ exists a2,
       SetTopVolName unknown a1 = Done (a2, no_such_volume_msgs)
       /\ fTopVolume (base a2) = Some gvol
       /\ fTopVolumeName a2 = EmptyString.
Proof.
  intros Hg Hk Hu H. unfold SetTopVolName in *.
  cbn [base fTopVolumeName] in *. rewrite Hg in H. cbn [deref obind] in H.
  rewrite Hk in H. inversion H; subst. cbn [base fTopVolumeName].
  split; [reflexivity|].
  cbn [fGeometry set_fTopVolume]. rewrite Hg. cbn [deref obind].
  rewrite Hu. eexists. split; [reflexivity|]. split; reflexivity.
Qed.

End LoadingFacts.

(** ** A loaded analyzer *)

Section LoadedQueries.

Context {G : Type} {TG : TGeoManager G} {TC : TGeoCatalog G}
        {TS : TSystem G} {FO : FloatOps} {PU : PDGUtils} {UN : Units}
        {R : Type} {TR : TRandom R}.

Import PathLengthList PathLengthListFacts.

(** X22.  On the analyzer a [Load] has returned, the scan
    [ComputeMaxPathLengths] returns whenever the boundary searches of the
    navigator do, and [ComputePathLengths] does not crash whenever the
    navigator has a current volume wherever it is asked. *)
Theorem loaded_analyzer_answers (fuel : nat) (gm : option G)
    (a a' : ROOTGeomAnalyzer G) (m : list Message) :
  Load_gm gm a = Done (a', m) ->
  ((forall g0 : G, exists gs, next_boundary fuel g0 = Done gs) ->
   forall rnd : R,
     exists a2 rnd', ComputeMaxPathLengths fuel a' rnd = Done (a2, rnd', []))
  /\ ((forall g0 : G, is_Some (GetCurrentVolume g0)) ->
      forall x p, ComputePathLengths fuel a' x p <> Crash).
Proof.
  intros H.
  apply Load_gm_Done in H
    as (g & codes & top & a1 & m1 & -> & Hb & Hc & Htop & -> & ->).
  apply BuildListOfTargetNuclei_frame in Hb as (_ & Hg & _).
  cbn [fGeometry set_fGeometry] in Hg.
  split.
  - intros Hnb rnd. unfold ComputeMaxPathLengths.
    cbn [fGeometry fTopVolume fCurrMaxPathLengthList fCurrPDGCodeList
         set_fTopVolume set_fCurrVertex set_fCurrMaxPathLengthList
         set_fCurrPathLengthList].
    rewrite Hg, Hc. cbn [deref obind].
    match goal with
    | |- context [scan_materials ?cs ?f ?a0 ?b ?g0 ?r0 ?pl0] =>
        destruct (scan_materials_returns f a0 b Hnb cs g0 r0 pl0)
          as [[[g' rnd'] pl'] ->]
    end.
    cbn [obind]. eauto.
  - intros Hvol x p. unfold ComputePathLengths.
    cbn [fGeometry fCurrPathLengthList
         set_fTopVolume set_fCurrVertex set_fCurrMaxPathLengthList
         set_fCurrPathLengthList].
    rewrite Hg. cbn [deref obind].
    intros H. apply obind_Crash in H as [H|([e m'] & _ & H)].
    + by apply cpl_while_no_crash in H.
    + destruct e; discriminate.
Qed.

(** X23.  With the units set to [units::meter] itself, as [Initialize]
    does, [ScalePathLengths] leaves every length as it is; this needs
    [units::meter] not to be zero. *)
Theorem ScalePathLengths_in_meters (a : ROOTGeomAnalyzer G)
    (pl : gmap Z Q) (k : Z) (v' : Q) :
  ~ meter == 0 ->
  ScalePathLengths (SetUnits meter a) pl !! k = Some v' ->
  exists v, pl !! k = Some v /\ v' == v.
Proof.
  intros Hm. rewrite lookup_ScalePathLengths. cbn [fScale SetUnits].
  destruct (pl !! k) as [v|]; cbn; intros E; inversion E.
  exists v. split; [reflexivity|]. field. exact Hm.
Qed.

End LoadedQueries.

(** ** Where the walks are *)

Section Positions.

Context {G : Type} {TG : TGeoManager G} {FO : FloatOps} {PU : PDGUtils}.

Lemma step_while_not_entering_step (fuel : nat) :
  forall (g g' : G) (s s' : Q),
    step_while_not_entering fuel g s = Done (g', s') ->
    s' = s \/ exists g0, s' = GetStep g0.
Proof.
  induction fuel as [|n IH]; intros g g' s s' H; simpl in H.
  - destruct (IsEntering g); [inversion H; auto | discriminate].
  - destruct (IsEntering g); [inversion H; auto|].
    apply IH in H as [->|H]; eauto.
Qed.

Lemma boundary_steps_not_negative (fuel : nat) :
  (forall g0 : G, 0 <= GetStep g0) ->
  forall n (g g' : G) ss,
    boundary_steps fuel n g = Done (g', ss) -> 0 <= Qsum ss.
Proof.
  intros Hpos. induction n as [|n IH]; intros g g' ss H;
    cbn [boundary_steps] in H.
  - inversion H. apply Qle_refl.
  - apply obind_Done in H as ([g1 s] & Hnb & H).
    apply obind_Done in H as ([g2 ss'] & Hrec & H).
    inversion H; subst. apply IH in Hrec.
    apply step_while_not_entering_step in Hnb as [->|[g0 ->]];
      cbn [Qsum foldr]; replace 0 with (0 + 0) by reflexivity;
      apply Qplus_le_compat; auto.
Qed.

Lemma cpl_trip_steps_not_negative (fuel : nat) (l : Locals) (g : G) :
  (forall g0 : G, 0 <= GetStep g0) ->
  0 <= Qsum (cpl_trip_steps fuel l g).
Proof.
  intros Hpos. unfold cpl_trip_steps, cpl_segments.
  destruct (IsOutside (positioned l g)).
  - destruct (next_boundary fuel (positioned l g)) as [[g1 s]| |] eqn:Hnb;
      try apply Qle_refl.
    apply step_while_not_entering_step in Hnb as [->|[g0 ->]];
      cbn [Qsum foldr]; replace 0 with (0 + 0) by reflexivity;
      apply Qplus_le_compat; auto using Qle_refl.
  - destruct (material_here (positioned l g)) as [mat|];
      [|apply Qle_refl].
    unfold material_segments.
    destruct (boundary_steps fuel _ _) as [[g1 ss]| |] eqn:Hss;
      try apply Qle_refl.
    rewrite segment_steps_zip
      by (eapply boundary_steps_length; eauto).
    eapply boundary_steps_not_negative; eauto.
Qed.

(** The points the loop probes are those at the parameters the steps of
    the navigator add up to. *)
Lemma cpl_while_parameters inner fuel (a : ROOTGeomAnalyzer G) x p :
  forall l g pl e m t,
    on_ray x p t (r l) ->
    cpl_while inner fuel a p l g pl = Done (e, m) ->
    Forall2 (fun t v => on_ray x p t v)
      (cpl_parameters inner fuel a p t l g pl) (positions m).
Proof.
  induction fuel as [|n IH]; intros l g pl e m t Hray H;
    cbn [cpl_while cpl_parameters] in *;
    destruct ((FlagNotInYet l =? 0)%Z || condition l);
    try discriminate;
    try (inversion H; subst; constructor).
  apply obind_Done in H as ([fl m1] & Hb & H). rewrite Hb.
  apply (cpl_body_spec _ _ p) in Hb as [Hpos Hb].
  destruct fl as [l1 g1 pl1|l1 g1 pl1|g1 pl1].
  - destruct Hb as [_ Hsh].
    apply obind_Done in H as ([e' m'] & Hrec & H). inversion H; subst.
    rewrite positions_app, Hpos. cbn [app].
    constructor; [exact Hray|].
    eapply IH; [|exact Hrec]. eapply shifted_on_ray; eauto.
  - inversion H; subst. rewrite Hpos.
    constructor; [exact Hray | constructor].
  - inversion H; subst. rewrite Hpos.
    constructor; [exact Hray | constructor].
Qed.

Lemma cpl_parameters_from inner (a : ROOTGeomAnalyzer G) p :
  (forall g0 : G, 0 <= GetStep g0) ->
  forall fuel l g pl t,
    Forall (fun u => t <= u) (cpl_parameters inner fuel a p t l g pl).
Proof.
  intros Hpos. induction fuel as [|n IH]; intros l g pl t;
    cbn [cpl_parameters];
    destruct ((FlagNotInYet l =? 0)%Z || condition l);
    try constructor; try apply Qle_refl.
  destruct (cpl_body inner a p l g pl) as [[fl m1]| |]; try constructor.
  destruct fl as [l1 g1 pl1|l1 g1 pl1|g1 pl1]; try constructor.
  eapply Forall_impl; [apply IH|].
  intros u Hu. cbn beta in Hu.
  eapply Qle_trans; [|exact Hu].
  pose proof (cpl_trip_steps_not_negative inner l g Hpos) as Hs.
  rewrite <- (Qplus_0_r t) at 1. apply Qplus_le_compat; [apply Qle_refl|].
  exact Hs.
Qed.

(** X24.  The points [ComputePathLengths] probes lie on the ray from [x]
    along [p], each at the parameter that the steps of the navigator add
    up to: the first is [x] itself (parameter 0), and every next one lies
    further by the steps of the trip before it (the step at which the
    navigator was entering, or the steps of the segments traversed).  When
    the navigator reports no negative step, no parameter is negative. *)
Theorem ComputePathLengths_stays_on_ray (fuel : nat)
    (a a' : ROOTGeomAnalyzer G) (x p : TLorentzVector) (site : ReturnSite)
    (m : list Message) (g : G) (pl0 : gmap Z Q) :
  fGeometry a = Some g ->
  fCurrPathLengthList a = Some pl0 ->
  ComputePathLengths fuel a x p = Done (a', site, m) ->
  let ts := ComputePathLengths_parameters fuel a g x p pl0 in
  Forall2 (fun t v => on_ray x p t v) ts (positions m)
  /\ (fuel <> 0%nat ->
      head ts = Some 0
      /\ head (positions m) = Some (mkTVector3 (lvX x) (lvY x) (lvZ x)))
  /\ ((forall g0 : G, 0 <= GetStep g0) -> Forall (fun t => 0 <= t) ts).
Proof.
  intros Hg Hpl0 H ts.
  unfold ComputePathLengths in H. rewrite Hpl0, Hg in H.
  cbn [deref obind] in H.
  apply obind_Done in H as ([e m'] & Hrun & H).
  assert (m = m') as -> by (destruct e; inversion H; reflexivity).
  fold (cpl_start x) in Hrun.
  split; [|split].
  - unfold ts, ComputePathLengths_parameters.
    eapply cpl_while_parameters; [|exact Hrun].
    unfold on_ray. cbn [cpl_start r fX fY fZ]. repeat split; ring.
  - intros Hf. destruct fuel as [|n]; [done|].
    unfold ts, ComputePathLengths_parameters.
    cbn [cpl_parameters cpl_while cpl_start FlagNotInYet condition Z.eqb orb]
      in *.
    split; [reflexivity|].
    apply obind_Done in Hrun as ([fl m1] & Hb & Hrun).
    apply (cpl_body_spec _ _ p) in Hb as [Hpos _]. cbn [r] in Hpos.
    destruct fl as [l1 g1 pl1|l1 g1 pl1|g1 pl1].
    + apply obind_Done in Hrun as ([e' m2] & _ & Hrun).
      inversion Hrun; subst. rewrite positions_app, Hpos. reflexivity.
    + inversion Hrun; subst. rewrite Hpos. reflexivity.
    + inversion Hrun; subst. rewrite Hpos. reflexivity.
  - intros Hpos. unfold ts, ComputePathLengths_parameters.
    apply cpl_parameters_from. exact Hpos.
Qed.

(** *** The first loop of GenerateVertex *)

Lemma advance_123 (d : Q) (p : TLorentzVector) (v : TVector3) :
  snd (advance 1 2 3 d p v) = [MsgBadIndex 3].
Proof. reflexivity. Qed.

Lemma gv_dist_body_indices fuel (a : ROOTGeomAnalyzer G) p tgtpdg
    l g dist fl m :
  gv_dist_body fuel a p tgtpdg l g dist = Done (fl, m) ->
  Forall (eq 3%Z) (bad_indices m)
  /\ match fl with
     | inl (_, _, dist') | inr (_, _, dist') =>
         dist' = dist \/ 3%Z ∈ bad_indices m
     end.
Proof.
  unfold gv_dist_body. cbn [FlagNotInYet condition step r]. intros H.
  apply obind_Done in H as (v0 & Hv & H). apply deref_Done in Hv.
  rewrite Hv in H.
  apply obind_Done in H as ([[[brk l1] g1] m1] & Hout & H).
  assert (Hm1 : m1 = [] \/ m1 = [MsgBadIndex 3]).
  { destruct (IsOutside _ || _); [|inversion Hout; auto].
    destruct (negb _); [inversion Hout; auto|].
    apply obind_Done in Hout as ([g2 s] & _ & Hout).
    pose proof (advance_123 s p (r l)) as Hadv.
    cbn [FlagNotInYet condition step r] in Hout.
    destruct (advance 1 2 3 s p (r l)) as [r' mr]. cbn [snd] in Hadv.
    inversion Hout; subst. auto. }
  assert (Hbad1 : Forall (eq 3%Z) (bad_indices m1)).
  { destruct Hm1 as [-> | ->]; repeat constructor. }
  destruct brk.
  { inversion H; subst. split; [exact Hbad1 | by left]. }
  destruct (condition l1); [|inversion H; subst; split; [exact Hbad1|by left]].
  cbn [deref obind] in H.
  destruct (GetMedium v0) as [med|];
    [|inversion H; subst; split; [exact Hbad1|by left]].
  destruct (GetMaterial med) as [mat|];
    [|inversion H; subst; split; [exact Hbad1|by left]].
  apply obind_Done in H as ([g2 s] & _ & H).
  match type of H with
  | context [advance 1 2 3 s p ?v] =>
      pose proof (advance_123 s p v) as Hadv;
      destruct (advance 1 2 3 s p v) as [r' mr]
  end.
  cbn [snd] in Hadv. subst mr. inversion H; subst.
  change (bad_indices (MsgPosition (r l) (FlagNotInYet l)
                       :: m1 ++ [MsgBadIndex 3]))
    with (bad_indices (m1 ++ [MsgBadIndex 3])).
  rewrite bad_indices_app.
  change (bad_indices [MsgBadIndex 3]) with [3%Z].
  split.
  - apply Forall_app. split; [exact Hbad1 | repeat constructor].
  - right. apply elem_of_app. right. by left.
Qed.

Lemma gv_dist_while_indices inner fuel (a : ROOTGeomAnalyzer G) p tgtpdg :
  forall l g dist l' g' dist' m,
    gv_dist_while inner fuel a p tgtpdg l g dist = Done (l', g', dist', m) ->
    Forall (eq 3%Z) (bad_indices m)
    /\ (dist' = dist \/ 3%Z ∈ bad_indices m).
Proof.
  induction fuel as [|n IH]; intros l g dist l' g' dist' m H; simpl in H;
    destruct ((FlagNotInYet l =? 0)%Z || condition l);
    try discriminate;
    try (inversion H; subst; split; [constructor | by left]).
  apply obind_Done in H as ([fl m1] & Hb & H).
  apply gv_dist_body_indices in Hb as [Hall Hd].
  destruct fl as [[[l1 g1] d1]|[[l1 g1] d1]].
  - inversion H; subst. auto.
  - apply obind_Done in H as ([[[l2 g2] d2] m2] & Hrec & H).
    inversion H; subst. apply IH in Hrec as [Hall2 Hd2].
    rewrite bad_indices_app. split; [by apply Forall_app|].
    rewrite elem_of_app.
    destruct Hd as [->|Hd]; [|by auto].
    destruct Hd2 as [->|Hd2]; auto.
Qed.

(** X25.  The first loop of [GenerateVertex] cannot find material without
    stepping out of the components of its position: whenever it ends with
    a total other than zero, ROOT has reported the bad index 3, and it
    reports no other index. *)
Theorem GenerateVertex_dist_reports_index_3 (fuel : nat)
    (a : ROOTGeomAnalyzer G) (g g' : G) (x p : TLorentzVector) (tgtpdg : Z)
    (l : Locals) (dist : Q) (m : list Message) :
  GenerateVertex_dist fuel a g x p tgtpdg = Done (l, g', dist, m) ->
  Forall (eq 3%Z) (bad_indices m)
  /\ (~ dist == 0 -> 3%Z ∈ bad_indices m).
Proof.
  unfold GenerateVertex_dist. intros H.
  apply gv_dist_while_indices in H as [Hall Hd].
  split; [exact Hall|]. intros Hnz.
  destruct Hd as [->|Hd]; [|exact Hd]. exfalso. apply Hnz. reflexivity.
Qed.

End Positions.

(** ** What ends a walk *)

Section WalkEnds.

Context {G : Type} {TG : TGeoManager G} {FO : FloatOps} {PU : PDGUtils}.

Lemma cpl_elements_condition fuel (a : ROOTGeomAnalyzer G) p mat :
  forall eles l g pl l' g' pl' m,
    cpl_elements fuel a p mat eles l g pl = Done (l', g', pl', m) ->
    condition l' = condition l.
Proof.
  induction eles as [|ele eles IH]; intros l g pl l' g' pl' m H;
    cbn [cpl_elements] in H.
  - inversion H. reflexivity.
  - apply obind_Done in H as ([g1 s] & _ & H).
    destruct (advance 0 1 2 s p (r l)) as [r' mr].
    apply obind_Done in H as ([[[l2 g2] pl2] m2] & Hrec & H).
    inversion H; subst. apply IH in Hrec. exact Hrec.
Qed.

Lemma cpl_inside_condition fuel (a : ROOTGeomAnalyzer G) p v med mat
    l g pl l' g' pl' m :
  GetMedium v = Some med ->
  GetMaterial med = Some mat ->
  condition l = true ->
  cpl_inside fuel a p (Some v) l g pl = Done (l', g', pl', m) ->
  condition l' = true.
Proof.
  unfold cpl_inside. intros Hmed Hmat Hc. rewrite Hc.
  cbn [deref obind]. rewrite Hmed, Hmat.
  set (l1 := if (FlagNotInYet l =? 0)%Z
             then mkLocals 1 true (step l) (r l) else l).
  assert (Hc1 : condition l1 = true)
    by (subst l1; destruct (_ =? _)%Z; [reflexivity | exact Hc]).
  destruct (IsMixture mat).
  - intros H. apply cpl_elements_condition in H. congruence.
  - intros H. apply obind_Done in H as ([g1 s] & _ & H).
    destruct (advance 0 1 2 s p (r l1)) as [r' mr].
    inversion H; subst. exact Hc1.
Qed.

Lemma cpl_while_inside_goes_on inner (a : ROOTGeomAnalyzer G) p :
  (forall g0 : G, IsOutside g0 = false) ->
  (forall g0 : G, exists v med mat,
      GetCurrentVolume g0 = Some v /\ GetMedium v = Some med
      /\ GetMaterial med = Some mat) ->
  forall fuel l g pl res,
    condition l = true ->
    cpl_while inner fuel a p l g pl <> Done res.
Proof.
  intros Hin Hmat. induction fuel as [|n IH]; intros l g pl res Hc; simpl;
    rewrite Hc, orb_true_r; [discriminate|].
  intros H. apply obind_Done in H as ([fl m] & Hb & H).
  unfold cpl_body in Hb. cbn [FlagNotInYet condition step r] in Hb.
  destruct (Hmat (FindNode (TVector3_xyz (r l))
                    (SetCurrentPoint (TVector3_xyz (r l)) g)))
    as (v & med & mat & Hv & Hmed & Hm).
  rewrite Hv, Hin in Hb. cbn [deref obind orb negb] in Hb.
  rewrite bool_decide_eq_true_2 in Hb by eauto. cbn [negb] in Hb.
  apply obind_Done in Hb as ([[[l2 g2] pl2] mi] & Hins & Hb).
  eapply cpl_inside_condition in Hins; [|exact Hmed | exact Hm | reflexivity].
  inversion Hb; subst.
  apply obind_Done in H as ([e m'] & Hrec & _).
  by apply IH in Hrec.
Qed.

(** X26.  [ComputePathLengths] only ends where the navigator reports an
    outside: if it reports none, and a material everywhere, the call does
    not return however long it runs.  Unlike the bounded walk of the scan,
    it has no cap on the trips of its loop. *)
Theorem ComputePathLengths_needs_an_outside (fuel : nat)
    (a : ROOTGeomAnalyzer G) (x p : TLorentzVector) :
  (forall g0 : G, IsOutside g0 = false) ->
  (forall g0 : G, exists v med mat,
      GetCurrentVolume g0 = Some v /\ GetMedium v = Some med
      /\ GetMaterial med = Some mat) ->
  forall res, ComputePathLengths fuel a x p <> Done res.
Proof.
  intros Hin Hmat res H. unfold ComputePathLengths in H.
  apply obind_Done in H as (pl0 & _ & H).
  apply obind_Done in H as (g & _ & H).
  apply obind_Done in H as ([e m] & Hrun & _).
  by apply (cpl_while_inside_goes_on _ _ _ Hin Hmat) in Hrun.
Qed.

End WalkEnds.

(** ** The further properties at work *)

Section MoreRuns.

Import BoxWorld Scenarios Sites.

Lemma bounded_walk_value_witness :
  let a := analyzer [pdg_Fe] true in
  let XYZ := mkTVector3 0 0 0 in
  let direction := mkTVector3 1 0 0 in
  let segs := @ComputeMaxPathLengthPDG_trace Cursor (nav two_irons) float_ops
      pdg_utils 10 a start XYZ
                direction pdg_Fe in
  exists len g',
    @ComputeMaxPathLengthPDG Cursor (nav two_irons) float_ops
      pdg_utils 10 a start XYZ direction pdg_Fe
    = Done (len, g')
    /\ len == matching_length pdg_Fe segs * last_matching_weight pdg_Fe 0 segs.
Proof.
  intros a XYZ direction segs.
  destruct (@ComputeMaxPathLengthPDG Cursor (nav two_irons) float_ops
      pdg_utils 10 a start XYZ direction
              pdg_Fe) as [[len g']| |] eqn:E.
  2,3: vm_compute in E; discriminate.
  exists len, g'. split; [reflexivity|].
  exact (proj1 (@bounded_walk_value Cursor (nav two_irons) float_ops
                  pdg_utils 10 a start g' XYZ direction pdg_Fe len E)).
Defined.

Lemma bounded_walk_uniform_weight_witness :
  let a := analyzer [pdg_H; pdg_O; pdg_Fe] true in
  let XYZ := mkTVector3 1 0 0 in
  let direction := mkTVector3 1 0 0 in
  exists len g',
    @ComputeMaxPathLengthPDG Cursor (nav water_then_iron)
      float_ops pdg_utils 10 a start XYZ direction
      pdg_Fe = Done (len, g')
    /\ len == density_weighted_length pdg_Fe
                (@ComputeMaxPathLengthPDG_trace Cursor (nav water_then_iron)
      float_ops pdg_utils 10 a
                   start XYZ direction pdg_Fe).
Proof.
  intros a XYZ direction.
  assert (Hu : uniform_weight pdg_Fe 8
                 (@ComputeMaxPathLengthPDG_trace Cursor (nav water_then_iron)
      float_ops pdg_utils 10 a
                    start XYZ direction pdg_Fe)).
  { match goal with
    | |- uniform_weight _ _ ?t =>
        let v := eval vm_compute in t in change t with v
    end.
    intros k s w' Hin Hk.
    repeat (apply elem_of_cons in Hin as [Hin|Hin];
            [inversion Hin; subst; try discriminate; try reflexivity|]).
    inversion Hin. }
  destruct (@ComputeMaxPathLengthPDG Cursor (nav water_then_iron)
      float_ops pdg_utils 10 a start XYZ
              direction pdg_Fe) as [[len g']| |] eqn:E.
  2,3: vm_compute in E; discriminate.
  exists len, g'. split; [reflexivity|].
  exact (@bounded_walk_uniform_weight Cursor (nav water_then_iron)
           float_ops pdg_utils 10 a start g' XYZ direction pdg_Fe len 8
           Hu E).
Defined.

Lemma bounded_walk_unweighted_witness :
  let a := analyzer [pdg_Fe] false in
  let XYZ := mkTVector3 0 0 0 in
  let direction := mkTVector3 1 0 0 in
  exists len g',
    @ComputeMaxPathLengthPDG Cursor (nav two_irons) float_ops
      pdg_utils 10 a start XYZ direction pdg_Fe
    = Done (len, g')
    /\ len == matching_length pdg_Fe
                (@ComputeMaxPathLengthPDG_trace Cursor (nav two_irons) float_ops
      pdg_utils 10 a start XYZ
                   direction pdg_Fe).
Proof.
  intros a XYZ direction.
  destruct (@ComputeMaxPathLengthPDG Cursor (nav two_irons) float_ops
      pdg_utils 10 a start XYZ direction
              pdg_Fe) as [[len g']| |] eqn:E.
  2,3: vm_compute in E; discriminate.
  exists len, g'. split; [reflexivity|].
  exact (@bounded_walk_unweighted Cursor (nav two_irons) float_ops
           pdg_utils 10 a start g' XYZ direction pdg_Fe len eq_refl E).
Defined.

Lemma endless_boundary_returns (fuel : nat) (g0 : TVector3) :
  exists gs, @next_boundary TVector3 endless fuel g0 = Done gs.
Proof. destruct fuel; eexists; reflexivity. Qed.

Lemma bounded_walk_returns_witness :
  (exists len g',
      @ComputeMaxPathLengthPDG TVector3 endless float_ops pdg_utils 3
        endless_analyzer (mkTVector3 0 0 0) (mkTVector3 0 0 0)
        (mkTVector3 1 0 0) pdg_Fe = Done (len, g'))
  /\ (length (@ComputeMaxPathLengthPDG_trace TVector3 endless float_ops
                pdg_utils 3 endless_analyzer (mkTVector3 0 0 0)
                (mkTVector3 0 0 0) (mkTVector3 1 0 0) pdg_Fe) <= 100)%nat.
Proof.
  apply (@bounded_walk_returns TVector3 endless float_ops pdg_utils).
  apply endless_boundary_returns.
Defined.

Lemma ComputeMaxPathLengths_returns_witness :
  exists a' rnd',
    @ComputeMaxPathLengths TVector3 endless float_ops pdg_utils (list Q)
      replay 3 endless_analyzer draws = Done (a', rnd', []).
Proof.
  apply (@ComputeMaxPathLengths_returns TVector3 endless float_ops
           pdg_utils (list Q) replay).
  - unfold allocated. cbn. repeat split; eexists; reflexivity.
  - apply endless_boundary_returns.
Defined.

Lemma ComputeMaxPathLengths_draws_witness :
  exists a' rnd' m,
    @ComputeMaxPathLengths Cursor (nav bar_in_air) float_ops pdg_utils
      (list Q) replay 10 (scanner 2) draws = Done (a', rnd', m)
    /\ rnd' = after_draws 48 draws.
Proof.
  destruct (@ComputeMaxPathLengths Cursor (nav bar_in_air) float_ops
              pdg_utils (list Q) replay 10 (scanner 2) draws)
    as [[[a' rnd'] m]| |] eqn:E.
  2,3: vm_compute in E; discriminate.
  exists a', rnd', m. split; [reflexivity|].
  rewrite (@ComputeMaxPathLengths_draws Cursor (nav bar_in_air) float_ops
             pdg_utils (list Q) replay 10 (scanner 2) a' draws rnd' m start
             [pdg_Fe] eq_refl eq_refl E).
  reflexivity.
Defined.

Lemma ComputeMaxPathLengths_keys_witness :
  exists a' rnd' m pl',
    @ComputeMaxPathLengths Cursor (nav bar_in_air) float_ops pdg_utils
      (list Q) replay 10 (scanner 1) draws = Done (a', rnd', m)
    /\ fCurrMaxPathLengthList a' = Some pl'
    /\ dom pl' = dom (PathLengthList.create [pdg_Fe])
    /\ forall k v, k ∉ [pdg_Fe] -> pl' !! k = Some v -> v == 0.
Proof.
  destruct (@ComputeMaxPathLengths Cursor (nav bar_in_air) float_ops
              pdg_utils (list Q) replay 10 (scanner 1) draws)
    as [[[a' rnd'] m]| |] eqn:E.
  2,3: vm_compute in E; discriminate.
  destruct (@ComputeMaxPathLengths_keys Cursor (nav bar_in_air) float_ops
              pdg_utils (list Q) replay 10 (scanner 1) a' draws rnd' m
              start [pdg_Fe] (PathLengthList.create [pdg_Fe])
              eq_refl eq_refl eq_refl E) as (pl' & Hpl & Hdom & Hz).
  exists a', rnd', m, pl'. auto.
Defined.

Lemma ComputeMaxPathLengths_not_negative_witness :
  exists a' rnd' m,
    @ComputeMaxPathLengths Cursor (nav bar_in_air) float_ops pdg_utils
      (list Q) replay 10 (scanner 1) draws = Done (a', rnd', m)
    /\ forall pl' v,
         fCurrMaxPathLengthList a' = Some pl' ->
         pl' !! pdg_Fe = Some v -> 0 <= v.
Proof.
  destruct (@ComputeMaxPathLengths Cursor (nav bar_in_air) float_ops
              pdg_utils (list Q) replay 10 (scanner 1) draws)
    as [[[a' rnd'] m]| |] eqn:E.
  2,3: vm_compute in E; discriminate.
  exists a', rnd', m. split; [reflexivity|].
  intros pl' v Hpl Hv.
  assert (Hs : 0 <= fScale (scanner 1)) by (vm_compute; discriminate).
  exact (@ComputeMaxPathLengths_not_negative Cursor (nav bar_in_air)
           float_ops pdg_utils (list Q) replay 10 (scanner 1) a' draws rnd'
           m start pl' pdg_Fe v Hs eq_refl E Hpl Hv).
Defined.

Lemma ComputePathLengths_keys_witness :
  exists a' site m pl',
    @ComputePathLengths Cursor (nav water_then_iron) float_ops pdg_utils 10
      (analyzer [pdg_H; pdg_O; pdg_Fe] true) (at_ 1 0 0) along_x
    = Done (a', site, m)
    /\ fCurrPathLengthList a' = Some pl'
    /\ dom pl' = dom (PathLengthList.create [pdg_H; pdg_O; pdg_Fe]).
Proof.
  destruct (@ComputePathLengths Cursor (nav water_then_iron) float_ops
              pdg_utils 10 (analyzer [pdg_H; pdg_O; pdg_Fe] true)
              (at_ 1 0 0) along_x) as [[[a' site] m]| |] eqn:E.
  2,3: vm_compute in E; discriminate.
  destruct (@ComputePathLengths_keys Cursor (nav water_then_iron) float_ops
              pdg_utils 10 (analyzer [pdg_H; pdg_O; pdg_Fe] true) a'
              (at_ 1 0 0) along_x site m
              (PathLengthList.create [pdg_H; pdg_O; pdg_Fe]) eq_refl E)
    as (pl' & Hpl & Hdom).
  exists a', site, m, pl'. auto.
Defined.

Lemma ComputePathLengths_never_entered_witness :
  exists a' m,
    @ComputePathLengths Cursor (nav iron_cube) float_ops pdg_utils 10
      (analyzer [pdg_Fe] true) (at_ 0 0 20) along_z
    = Done (a', ReturnNeverEnters, m)
    /\ segments m = []
    /\ fCurrPathLengthList a'
       = Some (PathLengthList.SetAllToZero (PathLengthList.create [pdg_Fe])).
Proof.
  destruct (@ComputePathLengths Cursor (nav iron_cube) float_ops pdg_utils
              10 (analyzer [pdg_Fe] true) (at_ 0 0 20) along_z)
    as [[[a' site] m]| |] eqn:E.
  2,3: vm_compute in E; discriminate.
  assert (site = ReturnNeverEnters) as ->
    by (vm_compute in E; congruence).
  destruct (@ComputePathLengths_never_entered Cursor (nav iron_cube)
              float_ops pdg_utils 10 (analyzer [pdg_Fe] true) a'
              (at_ 0 0 20) along_z m E) as (Hseg & pl0 & Hpl0 & Hpl).
  exists a', m. split; [reflexivity|]. split; [exact Hseg|].
  rewrite Hpl. cbn in Hpl0. inversion Hpl0. reflexivity.
Defined.

Lemma ComputePathLengths_units_witness :
  let a := analyzer [pdg_H; pdg_O; pdg_Fe] true in
  exists a1 a2 site m,
    @ComputePathLengths Cursor (nav water_then_iron) float_ops pdg_utils 10
      a (at_ 1 0 0) along_x = Done (a1, site, m)
    /\ @ComputePathLengths Cursor (nav water_then_iron) float_ops pdg_utils
         10 (SetUnits 10 a) (at_ 1 0 0) along_x = Done (a2, site, m)
    /\ forall pl1 pl2 v1 v2,
         fCurrPathLengthList a1 = Some pl1 ->
         fCurrPathLengthList a2 = Some pl2 ->
         pl1 !! pdg_Fe = Some v1 -> pl2 !! pdg_Fe = Some v2 ->
         v2 * 1 == v1 * (10 / 5).
Proof.
  intros a.
  destruct (@ComputePathLengths Cursor (nav water_then_iron) float_ops
              pdg_utils 10 a (at_ 1 0 0) along_x)
    as [[[a1 site] m]| |] eqn:E.
  2,3: vm_compute in E; discriminate.
  destruct (@ComputePathLengths_units Cursor (nav water_then_iron)
              float_ops pdg_utils units 10 10 a a1 (at_ 1 0 0) along_x
              site m E) as (a2 & H2 & _ & Hrec).
  exists a1, a2, site, m. split; [reflexivity|]. split; [exact H2|].
  intros pl1 pl2 v1 v2 H1 H2' Hv1 Hv2.
  specialize (Hrec pl1 pl2 pdg_Fe H1 H2'). rewrite Hv1, Hv2 in Hrec.
  exact Hrec.
Defined.

Lemma ComputePathLengths_no_crash_witness :
  let a := analyzer [pdg_Fe] true in
  @ComputePathLengths TVector3 endless float_ops pdg_utils 5
    endless_analyzer (at_ 0 0 0) along_x <> Crash
  /\ exists a' m pl v,
       @ComputePathLengths Cursor (nav iron_bare_iron) float_ops pdg_utils
         10 a (at_ 1 0 0) along_x = Done (a', ReturnEnd, m)
       /\ last (positions m) = Some (mkTVector3 10 0 0)
       /\ fCurrPathLengthList a' = Some pl
       /\ pl !! pdg_Fe = Some v
       /\ v == 9 * 8.
Proof.
  intros a. split.
  - apply (proj1 (@ComputePathLengths_no_crash TVector3 endless float_ops
                    pdg_utils 5 endless_analyzer (at_ 0 0 0) along_x
                    (mkTVector3 0 0 0) (PathLengthList.create [pdg_Fe])
                    eq_refl eq_refl)).
    intros g0. eexists. reflexivity.
  - destruct (@cpl_state_after Cursor (nav iron_bare_iron) float_ops
                pdg_utils 10 1 a along_x (cpl_start (at_ 1 0 0))
                (@SetCurrentDirection Cursor (nav iron_bare_iron)
                   (direction_of along_x) start)
                (PathLengthList.SetAllToZero
                   (PathLengthList.create [pdg_Fe])))
      as [[[l gj] plj]|] eqn:E.
    2: vm_compute in E; discriminate.
    assert (El : ((FlagNotInYet l =? 0)%Z || condition l = true)
                 /\ @IsOutside Cursor (nav iron_bare_iron)
                      (@positioned Cursor (nav iron_bare_iron) l gj) = false
                 /\ @GetCurrentVolume Cursor (nav iron_bare_iron)
                      (@positioned Cursor (nav iron_bare_iron) l gj)
                    = Some (hall 1)
                 /\ r l = mkTVector3 10 0 0
                 /\ exists v,
                      @ScalePathLengths Cursor a plj !! pdg_Fe = Some v
                      /\ v == 9 * 8).
    { pose proof E as E'. vm_compute in E'. inversion E'; subst.
      split; [reflexivity|]. split; [reflexivity|].
      split; [reflexivity|]. split; [reflexivity|].
      eexists. split; vm_compute; reflexivity. }
    destruct El as (Hcond & Hin & Hvol & Hr & v & Hv & Hv72).
    destruct (proj2 (@ComputePathLengths_no_crash Cursor
                       (nav iron_bare_iron) float_ops pdg_utils 10 a
                       (at_ 1 0 0) along_x start
                       (PathLengthList.create [pdg_Fe]) eq_refl eq_refl)
                1%nat l gj plj (hall 1) E Hcond Hin Hvol eq_refl
                ltac:(lia)) as (m & Hrun & Hlast).
    eexists _, m, _, v. split; [exact Hrun|].
    split; [rewrite Hlast, Hr; reflexivity|].
    split; [reflexivity|]. split; [exact Hv | exact Hv72].
Defined.

Lemma ComputePathLengths_null_volume_witness :
  @ComputePathLengths TVector3 nowhere float_ops pdg_utils 1
    endless_analyzer (at_ 0 0 0) along_x = Crash.
Proof.
  apply (@ComputePathLengths_null_volume TVector3 nowhere float_ops
           pdg_utils 0 endless_analyzer (at_ 0 0 0) along_x
           (mkTVector3 0 0 0) (PathLengthList.create [pdg_Fe]));
    reflexivity.
Defined.

Lemma ComputePathLengths_indices_witness :
  exists a' site m,
    @ComputePathLengths Cursor (nav water_then_iron) float_ops pdg_utils 10
      (analyzer [pdg_H; pdg_O; pdg_Fe] true) (at_ 1 0 0) along_x
    = Done (a', site, m)
    /\ bad_indices m = [].
Proof.
  destruct (@ComputePathLengths Cursor (nav water_then_iron) float_ops
              pdg_utils 10 (analyzer [pdg_H; pdg_O; pdg_Fe] true)
              (at_ 1 0 0) along_x) as [[[a' site] m]| |] eqn:E.
  2,3: vm_compute in E; discriminate.
  exists a', site, m. split; [reflexivity|].
  exact (@ComputePathLengths_indices Cursor (nav water_then_iron) float_ops
           pdg_utils 10 _ a' (at_ 1 0 0) along_x site m E).
Defined.


Lemma BuildListOfTargetNuclei_codes_witness :
  exists a' m,
    @BuildListOfTargetNuclei Cursor site_catalog pdg_utils
      (analyzer [] true) = Done (a', m)
    /\ fCurrPDGCodeList a' = Some [pdg_N; pdg_H; pdg_O; pdg_Fe]
    /\ m = [null_volume_msg].
Proof.
  destruct (@BuildListOfTargetNuclei Cursor site_catalog pdg_utils
              (analyzer [] true)) as [[a' m]| |] eqn:E.
  2,3: vm_compute in E; discriminate.
  destruct (@BuildListOfTargetNuclei_codes Cursor site_catalog pdg_utils
              (analyzer [] true) a' start (array_of site_vols) m
              eq_refl eq_refl E) as (Hc & Hm & _).
  exists a', m. split; [reflexivity|]. split.
  - rewrite Hc. vm_compute. reflexivity.
  - rewrite Hm. vm_compute. reflexivity.
Defined.

Lemma Load_unchecked_medium_witness :
  @BuildListOfTargetNuclei Cursor bare_catalog pdg_utils
    (set_fGeometry (Some start) raw) = Crash
  /\ @Load_gm Cursor bare_catalog pdg_utils (Some start) raw = Crash.
Proof.
  apply (@Load_unchecked_medium Cursor bare_catalog pdg_utils raw start
           (array_of [Some iron; Some (hall 100)]) (hall 100)).
  - reflexivity.
  - vm_compute. right. left.
  - reflexivity.
Defined.

Lemma Load_allocates_witness :
  exists a' m,
    @Load_gm Cursor site_catalog pdg_utils (Some start) raw = Done (a', m)
    /\ allocated a'
    /\ fCurrVertex a' = Some (mkTVector3 0 0 0)
    /\ last m = Some no_top_volume_msg.
Proof.
  destruct (@Load_gm Cursor site_catalog pdg_utils (Some start) raw)
    as [[a' m]| |] eqn:E.
  2,3: vm_compute in E; discriminate.
  destruct (@Load_allocates Cursor site_catalog pdg_utils (Some start) raw
              a' m E) as (Ha & _ & Hv & _ & _ & Hm).
  exists a', m. auto.
Defined.

Lemma Load_covers_the_list_witness :
  exists a' m pl,
    @Load_gm Cursor site_catalog pdg_utils (Some start) raw = Done (a', m)
    /\ fCurrPathLengthList a' = Some pl
    /\ pdg_O ∈ dom pl.
Proof.
  destruct (@Load_gm Cursor site_catalog pdg_utils (Some start) raw)
    as [[a' m]| |] eqn:E.
  2,3: vm_compute in E; discriminate.
  destruct (@Load_covers_the_list Cursor site_catalog pdg_utils start raw
              a' (array_of site_vols) m eq_refl E)
    as (pl & Hpl & _ & Hk).
  exists a', m, pl. split; [reflexivity|]. split; [exact Hpl|].
  apply Hk. exists water, [pdg_H; pdg_O].
  split; [vm_compute; right; left|].
  split; [reflexivity|]. right. left.
Defined.

Lemma constructor_of_missing_file_witness :
  @ROOTGeomAnalyzer_of_file Cursor site_catalog one_file pdg_utils
    "nothing.root" raw = Done (Initialize raw, [no_file_msg])
  /\ ListOfTargetNuclei (Initialize raw) = Crash
  /\ forall fuel x p,
       @ComputePathLengths Cursor site_nav float_ops pdg_utils fuel
         (Initialize raw) x p = Crash.
Proof.
  apply (@constructor_of_missing_file Cursor site_nav site_catalog one_file
           float_ops pdg_utils "nothing.root" raw).
  reflexivity.
Defined.

Lemma SetTopVolName_unknown_after_known_witness :
  let a := mkNamed (analyzer [pdg_Fe] true) EmptyString in
  exists a1 m1,
    @SetTopVolName Cursor site_catalog "iron" a = Done (a1, m1)
    /\ fTopVolumeName a1 = "iron"%string
    /\ exists a2,
         @SetTopVolName Cursor site_catalog "lead" a1
         = Done (a2, no_such_volume_msgs)
         /\ fTopVolume (base a2) = Some iron
         /\ fTopVolumeName a2 = EmptyString.
Proof.
  intros a.
  destruct (@SetTopVolName Cursor site_catalog "iron" a)
    as [[a1 m1]| |] eqn:E.
  2,3: vm_compute in E; discriminate.
  exists a1, m1. split; [reflexivity|].
  exact (@SetTopVolName_unknown_after_known Cursor site_catalog "iron"
           "lead" a a1 start iron m1 eq_refl eq_refl eq_refl E).
Defined.

Lemma loaded_analyzer_answers_witness :
  exists a' m,
    @Load_gm TVector3 endless_catalog pdg_utils (Some (mkTVector3 0 0 0))
      endless_analyzer = Done (a', m)
    /\ (exists a2 rnd',
          @ComputeMaxPathLengths TVector3 endless float_ops pdg_utils
            (list Q) replay 3 a' draws = Done (a2, rnd', []))
    /\ @ComputePathLengths TVector3 endless float_ops pdg_utils 3 a'
         (at_ 0 0 0) along_x <> Crash.
Proof.
  destruct (@Load_gm TVector3 endless_catalog pdg_utils
              (Some (mkTVector3 0 0 0)) endless_analyzer)
    as [[a' m]| |] eqn:E.
  2,3: vm_compute in E; discriminate.
  destruct (@loaded_analyzer_answers TVector3 endless endless_catalog
              float_ops pdg_utils (list Q) replay 3 _ _ a' m E)
    as [Hscan Hwalk].
  exists a', m. split; [reflexivity|]. split.
  - apply Hscan. apply endless_boundary_returns.
  - apply Hwalk. intros g0. eexists. reflexivity.
Defined.

Lemma ScalePathLengths_in_meters_witness :
  exists v, ({[pdg_Fe := 7]} : gmap Z Q) !! pdg_Fe = Some v
            /\ 7 * (5 / 5) == v.
Proof.
  apply (@ScalePathLengths_in_meters Cursor units (analyzer [pdg_Fe] true)
           {[pdg_Fe := 7]} pdg_Fe (7 * (5 / 5))).
  - intros H. vm_compute in H. discriminate.
  - vm_compute. reflexivity.
Defined.

Lemma ComputePathLengths_stays_on_ray_witness :
  let a := analyzer [pdg_H; pdg_O; pdg_Fe] true in
  let ts := @ComputePathLengths_parameters Cursor (nav water_then_iron)
              float_ops pdg_utils 10 a start (at_ 1 0 0) along_x
              (PathLengthList.create [pdg_H; pdg_O; pdg_Fe]) in
  ts = [0; 18; 29]
  /\ exists a' site m,
       @ComputePathLengths Cursor (nav water_then_iron) float_ops pdg_utils
         10 a (at_ 1 0 0) along_x = Done (a', site, m)
       /\ Forall2 (fun t v => on_ray (at_ 1 0 0) along_x t v) ts
            (positions m)
       /\ head (positions m) = Some (mkTVector3 1 0 0).
Proof.
  intros a ts.
  split; [vm_compute; reflexivity|].
  destruct (@ComputePathLengths Cursor (nav water_then_iron) float_ops
              pdg_utils 10 a (at_ 1 0 0) along_x)
    as [[[a' site] m]| |] eqn:E.
  2,3: vm_compute in E; discriminate.
  destruct (@ComputePathLengths_stays_on_ray Cursor (nav water_then_iron)
              float_ops pdg_utils 10 a a' (at_ 1 0 0) along_x site m start
              (PathLengthList.create [pdg_H; pdg_O; pdg_Fe])
              eq_refl eq_refl E)
    as (Hall & Hhead & _).
  exists a', site, m. split; [reflexivity|]. split; [exact Hall|].
  apply Hhead. discriminate.
Defined.

Lemma GenerateVertex_dist_reports_index_3_witness :
  exists l g' dist m,
    @GenerateVertex_dist Cursor (nav iron_cube) float_ops pdg_utils 10
      (analyzer [pdg_Fe] true) start (at_ 1 0 0) along_x pdg_Fe
    = Done (l, g', dist, m)
    /\ Forall (eq 3%Z) (bad_indices m)
    /\ 3%Z ∈ bad_indices m.
Proof.
  destruct (@GenerateVertex_dist Cursor (nav iron_cube) float_ops pdg_utils
              10 (analyzer [pdg_Fe] true) start (at_ 1 0 0) along_x pdg_Fe)
    as [[[[l g'] dist] m]| |] eqn:E.
  2,3: vm_compute in E; discriminate.
  assert (Hd : ~ dist == 0).
  { pose proof E as E'. vm_compute in E'. inversion E'; subst.
    intros H. vm_compute in H. discriminate. }
  destruct (@GenerateVertex_dist_reports_index_3 Cursor (nav iron_cube)
              float_ops pdg_utils 10 _ start g' (at_ 1 0 0) along_x pdg_Fe
              l dist m E) as [Hall Hin].
  exists l, g', dist, m. split; [reflexivity|]. split; [exact Hall|].
  exact (Hin Hd).
Defined.

Lemma ComputePathLengths_needs_an_outside_witness :
  @ComputePathLengths TVector3 endless float_ops pdg_utils 50
    endless_analyzer (at_ 0 0 0) along_x
  <> Done (endless_analyzer, ReturnEnd, []).
Proof.
  apply (@ComputePathLengths_needs_an_outside TVector3 endless float_ops
           pdg_utils).
  - intros g0. reflexivity.
  - intros g0. eexists _, _, _. repeat split.
Defined.

End MoreRuns.
